(** * SeeNote: spectrogram analysis, view mapping and label annotation

    A shallow embedding of the TypeScript sources of SeeNote
    (types.ts, constants.ts, utils/audioProcessing.ts, utils/helpers.ts,
    components/Spectrogram.tsx and App.tsx), followed by the properties
    proved about it.

    Numbers.  A JavaScript number is an IEEE-754 double.
    - Label times, pointer positions and scroll offsets are finite doubles,
      each given by its rational value ([Q]).  The sums, differences,
      products and quotients that the pointer handlers, the layout of
      lanes, the time format and the colour map compute are rounded to
      the nearest double ([Double.round64]), and their literals (0.05,
      0.1, 1.1, 0.2 ...) are the doubles nearest to them.  The pixel
      geometry of the label boxes and of the playhead ([labelLeft],
      [labelWidth], [playheadX], [syncScroll]) is given without rounding.
    - The frequency-scale formulas and the first embedding of the signal
      analysis, which need [cos], [sqrt], [log] and [pow], are taken over
      the real numbers ([R]) without rounding; a result that is not a
      finite number in JavaScript (a division by zero, [NaN]) is made
      explicit where a definition can produce one.  The analysis is given
      a second time with its rounding ([AudioProcessing.Rounded]).
    Sample counts, array indices, FFT and hop sizes are integers. *)

From Stdlib Require Import ZArith QArith Qminmax Qabs Qround Qpower Reals.
From Stdlib Require Import Lia Psatz.
From Stdlib Require Import Bool String Ascii List Permutation Sorted.
From Stdlib Require Import DecimalString DecimalNat DecimalN.
From stdpp Require Import list.
Import ListNotations.

(* ================================================================= *)
(** * Part I: the program *)
(* ================================================================= *)

(* ----------------------------------------------------------------- *)
(** ** types.ts *)

Module Types.

Inductive FrequencyScale : Type := linear | log | mel.

(** [color?] and [layerIndex?] are optional fields: [None] is an absent
    field ([undefined]). *)
Record Label : Type := mkLabel {
  id : string;
  configId : string;
  start : Q;
  end_ : Q;
  text : string;
  color : option string;
  layerIndex : option nat
}.

Record LabelConfig : Type := mkLabelConfig {
  key : string;
  cfg_text : string;
  cfg_color : option string
}.

End Types.
Import Types.

(* ----------------------------------------------------------------- *)
(** ** Double-precision arithmetic

    A finite double is a rational [m * 2^(e - 52)] with [|m| < 2^53] and
    [-1022 <= e <= 1023] ([|m| >= 2^52] unless [e = -1022]).  The result
    of [+], [-], [*] and [/] on doubles is the exact result rounded to
    the nearest such number, a tie going to the even [m].  The upper end
    of the range is not enforced: a result beyond it is rounded with 53
    bits as well, where JavaScript gives [Infinity]. *)

Module Double.

Local Open Scope Q_scope.

(** The integer [e] with [2^e <= x < 2^(e+1)], for [x > 0]. *)
Definition binade (x : Q) : Z :=
  let e := (Z.log2 (Qnum x) - Z.log2 (Zpos (Qden x)))%Z in
  if Qle_bool (2 ^ e) x then e else (e - 1)%Z.

(** The nearest integer, a tie going to the even one. *)
Definition rne (q : Q) : Z :=
  let f := Qfloor q in
  match Qcompare (q - inject_Z f) (1 # 2) with
  | Lt => f
  | Gt => (f + 1)%Z
  | Eq => if Z.even f then f else (f + 1)%Z
  end.

(** The exponent of [x > 0], the least one for a subnormal [x], and the
    unit in the last place of [x]. *)
Definition expo (x : Q) : Z := Z.max (binade x) (-1022).

Definition ulp (x : Q) : Q := 2 ^ (expo x - 52).

Definition roundPos (x : Q) : Q := inject_Z (rne (x / ulp x)) * ulp x.

(** The double nearest to [x], as a reduced fraction. *)
Definition round64 (x : Q) : Q :=
  Qred (match Qnum x with
        | Z0 => 0
        | Zpos _ => roundPos x
        | Zneg _ => - roundPos (- x)
        end).

Definition isDouble (x : Q) : Prop := round64 x == x.

(** [x + y], [x - y], [x * y] and [x / y] of two doubles ([y] is not 0
    in a quotient). *)
Definition fadd (x y : Q) : Q := round64 (x + y).
Definition fsub (x y : Q) : Q := round64 (x - y).
Definition fmul (x y : Q) : Q := round64 (x * y).
Definition fdiv (x y : Q) : Q := round64 (x / y).

(** The literals [0.1], [0.05] and [1.1]. *)
Definition lit_0_1 : Q := round64 (1 # 10).
Definition lit_0_05 : Q := round64 (1 # 20).
Definition lit_1_1 : Q := round64 (11 # 10).

End Double.
Import Double.

(* ----------------------------------------------------------------- *)
(** ** utils/helpers.ts *)

Module Helpers.

Local Open Scope Q_scope.

(** The source assigns [label.layerIndex = i] on the label object, which
    the list of processed labels then holds.  Labels are values here: the
    array holds one object per label (each is made by an object literal
    or a spread), so no two entries share an object. *)
Definition setLayerIndex (i : nat) (l : Label) : Label :=
  mkLabel (id l) (configId l) (start l) (end_ l) (text l) (color l) (Some i).

(** [[...labels].sort((a, b) => a.start - b.start)]: the sort is stable,
    so a label goes before the first label that does not start earlier. *)
Fixpoint insertByStart (x : Label) (l : list Label) : list Label :=
  match l with
  | [] => [x]
  | y :: ys =>
      if Qle_bool (start x) (start y) then x :: y :: ys
      else y :: insertByStart x ys
  end.

Definition sortByStart (labels : list Label) : list Label :=
  foldr insertByStart [] labels.

(** The [for] loop over [layers]: the first index [i] with
    [layers[i] + 0.1 <= label.start], if there is one; the sum is the
    rounded sum of two doubles. *)
Fixpoint firstFit (layers : list Q) (i : nat) (s : Q) : option nat :=
  match layers with
  | [] => None
  | e :: rest =>
      if Qle_bool (fadd e lit_0_1) s then Some i else firstFit rest (S i) s
  end.

(** One round of [sorted.forEach]: the state is [(layers, processed)]. *)
Definition placeLabel (st : list Q * list Label) (label : Label)
  : list Q * list Label :=
  let (layers, processed) := st in
  match firstFit layers 0 (start label) with
  | Some i =>
      (<[i := end_ label]> layers, processed ++ [setLayerIndex i label])
  | None =>
      (layers ++ [end_ label],
       processed ++ [setLayerIndex (length layers) label])
  end.

Definition calculateLabelLayers (labels : list Label) : list Label :=
  snd (fold_left placeLabel (sortByStart labels) ([], [])).

(** *** Number formatting and the label exports *)

Local Open Scope string_scope.

(** The decimal digits of a natural number. *)
Definition digits (n : Z) : string :=
  NilEmpty.string_of_uint (N.to_uint (Z.to_N n)).

Fixpoint zeros (k : nat) : string :=
  match k with O => "" | S k' => String "0" (zeros k') end.

Section ToFixed.

(** [Number::toString] where it prints the double's shortest digits and
    not the digits of its value (a magnitude of [10^21] or more gives an
    exponent form such as [1e+21]): it is not modelled and stays a
    parameter. *)
Variable numberToString : Q -> string.

(** [x.toFixed(f)] for a finite [x] and a literal [0 <= f <= 100] (the
    source passes 4 and 6).  With [x] made non-negative, [n] is the
    integer nearest to [x * 10^f], the larger one on a tie. *)
Definition toFixed (x : Q) (f : nat) : string :=
  let s := if Qlt_le_dec x 0 then "-" else "" in
  let x := Qabs x in
  if Qle_bool (inject_Z (10 ^ 21)) x then s ++ numberToString x
  else
    let n := Qfloor (x * inject_Z (10 ^ Z.of_nat f) + (1 # 2)) in
    let m := digits n in
    if (f =? 0)%nat then s ++ m
    else
      let m := if (String.length m <=? f)%nat
               then zeros (f + 1 - String.length m) ++ m else m in
      let k := String.length m in
      s ++ substring 0 (k - f) m ++ "." ++ substring (k - f) f m.

(** [filename.replace(/\.[^/.]+$/, "")]: only the last dot can start a
    match, and it does when what follows is non-empty and has no [/]. *)
Fixpoint extensionAt (s : string) : bool :=
  match s with
  | "" => false
  | String c "" => negb (Ascii.eqb c "/" || Ascii.eqb c ".")
  | String c rest => negb (Ascii.eqb c "/" || Ascii.eqb c ".") && extensionAt rest
  end.

Fixpoint getBaseName (filename : string) : string :=
  match filename with
  | "" => ""
  | String c rest =>
      if Ascii.eqb c "." && extensionAt rest then ""
      else String c (getBaseName rest)
  end.

Definition TAB : string := String (ascii_of_nat 9) "".
Definition NL : string := String (ascii_of_nat 10) "".

(** What an export hands to [saveFile]: the suggested file name and
    the content. *)
Record SavedFile : Type := mkSavedFile {
  suggestedName : string;
  content : string
}.

(** [labels.forEach(l => { txtContent += ... })] *)
Definition exportToAudacity (labels : list Label) (filename : string)
  : SavedFile :=
  let base := getBaseName filename in
  let outName := base ++ "_labels.txt" in
  let txtContent :=
    fold_left
      (fun txtContent l =>
         txtContent ++
           (toFixed (start l) 6 ++ TAB ++ toFixed (end_ l) 6 ++ TAB
              ++ text l ++ NL))
      labels "" in
  mkSavedFile outName txtContent.

(** *** [formatTime] and the CSV export *)

(** [z.toString()] for an integer-valued number: the digits of an
    integer of magnitude below [2^53]; a larger one is printed by
    [numberToString]. *)
Definition intToString (z : Z) : string :=
  if (Z.abs z <? 2 ^ 53)%Z
  then (if (z <? 0)%Z then "-" else "") ++ digits (Z.abs z)
  else numberToString (inject_Z z).

(** [s.padStart(2, '0')] *)
Definition padStart2 (s : string) : string :=
  if (String.length s <? 2)%nat then zeros (2 - String.length s) ++ s else s.

(** [x % y] for a finite [x] and a non-zero [y]: the quotient is
    truncated, so the remainder has the sign of [x].  The remainder of
    two doubles is a double: nothing is rounded. *)
Definition truncQ (x : Q) : Z :=
  if Qle_bool 0 x then Qfloor x else Qceiling x.

Definition jsRem (x y : Q) : Q := x - y * inject_Z (truncQ (x / y)).

Definition formatTime (seconds : Q) : string :=
  let m := Qfloor (fdiv seconds 60) in
  let s := Qfloor (jsRem seconds 60) in
  let ms := Qfloor (fmul (jsRem seconds 1) 100) in
  intToString m ++ ":" ++ padStart2 (intToString s) ++ "."
    ++ padStart2 (intToString ms).

Definition QUOTE_CHAR : ascii := ascii_of_nat 34.
Definition QUOTE : string := String QUOTE_CHAR "".

(** The [replace] of the CSV export: every double quote of the text is
    doubled. *)
Fixpoint escapeQuotes (s : string) : string :=
  match s with
  | "" => ""
  | String c rest =>
      if Ascii.eqb c QUOTE_CHAR
      then String QUOTE_CHAR (String QUOTE_CHAR (escapeQuotes rest))
      else String c (escapeQuotes rest)
  end.

Definition exportToCSV (labels : list Label) (filename : string)
  : SavedFile :=
  let base := getBaseName filename in
  let outName := base ++ "_annotations.csv" in
  let csvContent :=
    fold_left
      (fun csvContent l =>
         let safeText := QUOTE ++ escapeQuotes (text l) ++ QUOTE in
         csvContent ++
           (safeText ++ "," ++ toFixed (start l) 4 ++ ","
              ++ toFixed (end_ l) 4 ++ NL))
      labels ("Label,Start,End" ++ NL) in
  mkSavedFile outName csvContent.

End ToFixed.


End Helpers.
Import Helpers.

(* ----------------------------------------------------------------- *)
(** ** constants.ts *)

Module Constants.

Local Open Scope string_scope.

Definition HOTKEY_COLORS : list string :=
  [ "#ffffff"; "#ef4444"; "#f97316"; "#eab308"; "#22c55e";
    "#06b6d4"; "#3b82f6"; "#a855f7"; "#ec4899"; "#64748b" ].

(** [HOTKEY_COLORS[i]] is [undefined] ([None]) past the table. *)
Definition DEFAULT_LABEL_CONFIGS : list LabelConfig :=
  [ mkLabelConfig "0" "Custom Label" (HOTKEY_COLORS !! 0%nat) ].

(** The colour stops of the map; the positions are the doubles that
    the literals 0.2, 0.4, 0.6 and 0.8 denote. *)
Record Stop : Type := mkStop { pos : Q; r : Z; g : Z; b : Z }.

Definition MAGMA_STOPS : list Stop :=
  [ mkStop 0 28 15 70;
    mkStop (round64 (2 # 10)) 80 17 123;
    mkStop (round64 (4 # 10)) 180 53 120;
    mkStop (round64 (6 # 10)) 230 81 97;
    mkStop (round64 (8 # 10)) 249 195 135;
    mkStop 1 250 251 198 ].

Definition MIN_ZOOM_SEC : Q := 1.
Definition MAX_ZOOM_SEC : Q := 60.

End Constants.
Import Constants.

(* ----------------------------------------------------------------- *)
(** ** JavaScript numbers that may not be finite

    The value of an arithmetic expression over the reals, with the
    IEEE-754 results [Infinity], [-Infinity] and [NaN] that a division by
    zero, a logarithm or a power can produce.  Rounding is not modelled and
    a zero has no sign (it divides as [+0]). *)

Module JsNumber.

Local Open Scope R_scope.

Inductive number : Type :=
| Fin (r : R)
| Inf (positive : bool)
| NaN.

(** [Some true] for a positive, [Some false] for a negative real. *)
Definition sgn (r : R) : option bool :=
  if Rlt_dec 0 r then Some true
  else if Rlt_dec r 0 then Some false else None.

Definition neg (a : number) : number :=
  match a with
  | Fin r => Fin (- r)
  | Inf p => Inf (negb p)
  | NaN => NaN
  end.

Definition add (a b : number) : number :=
  match a, b with
  | Fin x, Fin y => Fin (x + y)
  | Fin _, Inf p | Inf p, Fin _ => Inf p
  | Inf p, Inf q => if Bool.eqb p q then Inf p else NaN
  | _, _ => NaN
  end.

Definition sub (a b : number) : number := add a (neg b).

Definition mul (a b : number) : number :=
  match a, b with
  | Fin x, Fin y => Fin (x * y)
  | Fin x, Inf p | Inf p, Fin x =>
      match sgn x with Some q => Inf (Bool.eqb p q) | None => NaN end
  | Inf p, Inf q => Inf (Bool.eqb p q)
  | _, _ => NaN
  end.

Definition div (a b : number) : number :=
  match a, b with
  | Fin x, Fin y =>
      if Req_dec_T y 0
      then match sgn x with Some p => Inf p | None => NaN end
      else Fin (x / y)
  | Fin _, Inf _ => Fin 0
  | Inf p, Fin y => Inf (if Rlt_dec y 0 then negb p else p)
  | _, _ => NaN
  end.

(** [Math.max(a, b)] *)
Definition Math_max (a b : number) : number :=
  match a, b with
  | NaN, _ | _, NaN => NaN
  | Inf true, _ | _, Inf true => Inf true
  | Inf false, c | c, Inf false => c
  | Fin x, Fin y => Fin (Rmax x y)
  end.

(** [Math.log(a)] and [Math.log10(a)] *)
Definition logWith (f : R -> R) (a : number) : number :=
  match a with
  | Fin x =>
      if Rlt_dec 0 x then Fin (f x)
      else if Rlt_dec x 0 then NaN else Inf false
  | Inf true => Inf true
  | _ => NaN
  end.

Definition Math_log : number -> number := logWith ln.
Definition Math_log10 : number -> number := logWith (fun x => ln x / ln 10).

Definition isInteger (x : R) : bool :=
  if Req_dec_T x (IZR (Int_part x)) then true else false.

Definition isOddInteger (x : R) : bool :=
  isInteger x && Z.odd (Int_part x).

(** [Math.pow(base, exponent)], by the cases of [Number::exponentiate]. *)
Definition Math_pow (base exponent : number) : number :=
  match exponent with
  | NaN => NaN
  | Inf pe =>
      match base with
      | NaN => NaN
      | Inf true => if pe then Inf true else Fin 0
      | Inf false => if pe then Inf true else Fin 0
      | Fin b =>
          if Req_dec_T b 0 then (if pe then Fin 0 else Inf true)
          else if Rlt_dec 1 (Rabs b) then (if pe then Inf true else Fin 0)
          else if Rlt_dec (Rabs b) 1 then (if pe then Fin 0 else Inf true)
          else NaN
      end
  | Fin e =>
      if Req_dec_T e 0 then Fin 1
      else
        match base with
        | NaN => NaN
        | Inf true => if Rlt_dec 0 e then Inf true else Fin 0
        | Inf false =>
            if Rlt_dec 0 e then Inf (negb (isOddInteger e)) else Fin 0
        | Fin b =>
            if Rlt_dec 0 b then Fin (Rpower b e)
            else if Req_dec_T b 0
                 then (if Rlt_dec 0 e then Fin 0 else Inf true)
                 else if isInteger e then Fin (powerRZ b (Int_part e))
                      else NaN
        end
  end.

(** An integer-valued number, or a number that is not finite: the
    values that [Math.floor(a / b)] has for integers [a] and [b]. *)
Inductive jsint : Type :=
| Int (z : Z)
| IntInf (positive : bool)
| IntNaN.

(** [Math.floor(a / b)] for integers [a] and [b]. *)
Definition floorDiv (a b : Z) : jsint :=
  if (b =? 0)%Z then
    if (0 <? a)%Z then IntInf true
    else if (a <? 0)%Z then IntInf false else IntNaN
  else Int (a / b).

(** [w * h] for an integer [h]. *)
Definition times (w : jsint) (h : Z) : jsint :=
  match w with
  | Int z => Int (z * h)
  | IntInf p =>
      if (0 <? h)%Z then IntInf p
      else if (h <? 0)%Z then IntInf (negb p) else IntNaN
  | IntNaN => IntNaN
  end.

(** [col < w] for an integer [col]. *)
Definition lessThan (col : Z) (w : jsint) : bool :=
  match w with
  | Int z => (col <? z)%Z
  | IntInf p => p
  | IntNaN => false
  end.

(** [Math.min(a, b)] and [Math.floor(a)] *)
Definition Math_min (a b : number) : number :=
  match a, b with
  | NaN, _ | _, NaN => NaN
  | Inf false, _ | _, Inf false => Inf false
  | Inf true, c | c, Inf true => c
  | Fin x, Fin y => Fin (Rmin x y)
  end.

Definition Math_floor (a : number) : number :=
  match a with
  | Fin x => Fin (IZR (Int_part x))
  | other => other
  end.

(** [a < b] and [a >= b]: false when an operand is [NaN]. *)
Definition ltNum (a b : number) : bool :=
  match a, b with
  | Fin x, Fin y => if Rlt_dec x y then true else false
  | Fin _, Inf q => q
  | Inf p, Fin _ => negb p
  | Inf p, Inf q => negb p && q
  | _, _ => false
  end.

Definition geNum (a b : number) : bool :=
  match a, b with
  | Fin x, Fin y => if Rle_dec y x then true else false
  | Fin _, Inf q => negb q
  | Inf p, Fin _ => p
  | Inf p, Inf q => p || negb q
  | _, _ => false
  end.

Declare Scope js_scope.
Delimit Scope js_scope with js.
Bind Scope js_scope with number.
Infix "+" := add : js_scope.
Infix "-" := sub : js_scope.
Infix "*" := mul : js_scope.
Infix "/" := div : js_scope.

Definition ofZ (z : Z) : number := Fin (IZR z).

End JsNumber.

(* ----------------------------------------------------------------- *)
(** ** utils/audioProcessing.ts *)

Module AudioProcessing.

Import JsNumber.

(** *** [generateSpectrogramData]

    [fftSize] and [hopSize] are integers.  The embedding follows the
    source for an even [fftSize >= 2] whose FFT indices stay integral,
    that is for the powers of two that the settings offer, and
    [Math.log2] of a power of two is its exponent.  This first embedding
    is the analysis over the real numbers: sample values are finite and
    no result is rounded.  The analysis with its rounding follows in
    [Rounded]. *)

Section STFT.

Local Open Scope Z_scope.

Inductive Error : Type := RangeError.

Inductive Outcome (A : Type) : Type :=
| Returned (a : A)
| Thrown (e : Error).
Arguments Returned {A} a.
Arguments Thrown {A} e.

Record AudioBuffer : Type := mkAudioBuffer {
  channelData : list R;
  sampleRate : R
}.

Record SpectrogramData : Type := mkSpectrogramData {
  data : list Z;
  width : jsint;
  height : Z;
  dataSampleRate : R
}.

(** [new Uint8Array(len)]: [ToIndex] takes [NaN] to 0 and rejects a
    negative or infinite length.  Memory is not bounded: an array of
    any finite length is allocated, filled with zeros. *)
Definition newUint8Array (len : jsint) : Outcome (list Z) :=
  match len with
  | Int z =>
      if z <? 0 then Thrown RangeError
      else Returned (repeat 0 (Z.to_nat z))
  | IntInf _ => Thrown RangeError
  | IntNaN => Returned []
  end.

(** A typed array read and write at an integer index.  A write out of
    range is ignored; the reads of the source are in range. *)
Definition rd {A} (d : A) (a : list A) (i : Z) : A :=
  if i <? 0 then d else nth (Z.to_nat i) a d.

Definition wr {A} (a : list A) (i : Z) (v : A) : list A :=
  if i <? 0 then a else <[Z.to_nat i := v]> a.

(** [a.subarray(begin, end)] *)
Definition subarray {A} (a : list A) (begin end_ : Z) : list A :=
  let len := Z.of_nat (length a) in
  let rel i := if i <? 0 then Z.max (len + i) 0 else Z.min i len in
  let b := rel begin in
  let e := rel end_ in
  take (Z.to_nat (Z.max (e - b) 0)) (drop (Z.to_nat b) a).

(** [for (v = init; cond(v); v = next(v)) body(v)] on a state, with the
    number of rounds bounded by [fuel]. *)
Fixpoint forLoop {S : Type} (fuel : nat) (cond : Z -> bool)
    (next : Z -> Z) (body : Z -> S -> S) (v : Z) (s : S) : S :=
  match fuel with
  | O => s
  | Datatypes.S fuel' =>
      if cond v then forLoop fuel' cond next body (next v) (body v s)
      else s
  end.

(** [for (let i = 0; i < n; i++) body(i)] *)
Definition forUpTo {S : Type} (n : Z) (body : Z -> S -> S) (s : S) : S :=
  fold_left (fun s i => body i s) (seqZ 0 n) s.

(** 32-bit signed integers of the bitwise operators. *)
Definition toInt32 (z : Z) : Z :=
  let m := z mod 2 ^ 32 in if m <? 2 ^ 31 then m else m - 2 ^ 32.

Definition reverseBits (x n : Z) : Z :=
  forUpTo n
    (fun i result =>
       if negb (Z.land (Z.shiftr (toInt32 x) (i mod 32)) 1 =? 0)
       then toInt32 (Z.lor result
                       (toInt32 (Z.shiftl 1 ((n - 1 - i) mod 32))))
       else result)
    0.

(** [-60 dB .. 0 dB] to [0 .. 255] *)
Definition intensityOf (re im : R) : R :=
  let mag := sqrt (re * re + im * im) in
  let val := (20 * (ln (mag + / 1000000) / ln 10))%R in
  let intensity := ((val + 60) * 4)%R in
  let intensity := if Rlt_dec intensity 0 then 0%R else intensity in
  if Rlt_dec 255 intensity then 255%R else intensity.

(** The conversion of a finite number stored in a [Uint8Array]: the
    fraction is dropped and the integer taken modulo 256. *)
Definition truncate (x : R) : Z :=
  if Rle_dec 0 x then Int_part x else - Int_part (- x).

Definition ToUint8 (x : R) : Z := truncate x mod 256.

Variable audioBuffer : AudioBuffer.
Variable fftSize : Z.
Variable hopSize : Z.

Definition window : list R :=
  map (fun i => (0.5 * (1 - cos ((2 * PI * IZR i) / IZR (fftSize - 1))))%R)
    (seqZ 0 fftSize).

Definition bits : Z := Z.log2 fftSize.

(** A [Uint16Array]: the entries are stored modulo [2^16]. *)
Definition rev : list Z :=
  map (fun i => reverseBits i bits mod 2 ^ 16) (seqZ 0 fftSize).

Definition sinTable : list R :=
  map (fun i => sin (-2 * PI * IZR i / IZR fftSize)) (seqZ 0 (fftSize / 2)).

Definition cosTable : list R :=
  map (fun i => cos (-2 * PI * IZR i / IZR fftSize)) (seqZ 0 (fftSize / 2)).

Definition butterfly (halfSize step i j : Z) (ri : list R * list R)
  : list R * list R :=
  let (real, imag) := ri in
  let k := j * step in
  let tReal := (rd 0 real (i + j + halfSize) * rd 0 cosTable k
                - rd 0 imag (i + j + halfSize) * rd 0 sinTable k)%R in
  let tImag := (rd 0 real (i + j + halfSize) * rd 0 sinTable k
                + rd 0 imag (i + j + halfSize) * rd 0 cosTable k)%R in
  let real := wr real (i + j + halfSize) (rd 0 real (i + j) - tReal)%R in
  let imag := wr imag (i + j + halfSize) (rd 0 imag (i + j) - tImag)%R in
  let real := wr real (i + j) (rd 0 real (i + j) + tReal)%R in
  let imag := wr imag (i + j) (rd 0 imag (i + j) + tImag)%R in
  (real, imag).

Definition performFFT (input : list R) : list R * list R :=
  let real := repeat 0%R (Z.to_nat fftSize) in
  let imag := repeat 0%R (Z.to_nat fftSize) in
  let ri :=
    forUpTo fftSize
      (fun i '(real, imag) =>
         (wr real (rd 0 rev i) (rd 0 input i * rd 0 window i)%R,
          wr imag (rd 0 rev i) 0%R))
      (real, imag) in
  forLoop (Z.to_nat fftSize) (fun size => size <=? fftSize)
    (fun size => size * 2)
    (fun size ri =>
       let halfSize := size / 2 in
       let step := fftSize / size in
       forLoop (Z.to_nat fftSize) (fun i => i <? fftSize)
         (fun i => i + size)
         (fun i ri => forUpTo halfSize (butterfly halfSize step i) ri)
         0 ri)
    2 ri.

(** One column: the inner loop over the bins. *)
Definition storeColumn (height col : Z) (ri : list R * list R)
    (outputData : list Z) : list Z :=
  forUpTo height
    (fun bin outputData =>
       let intensity := intensityOf (rd 0%R (fst ri) bin) (rd 0%R (snd ri) bin) in
       wr outputData (col * height + (height - 1 - bin)) (ToUint8 intensity))
    outputData.

(** The main loop, from column [col], for at most [fuel] columns; a
    chunk shorter than [fftSize] ends it. *)
Fixpoint mainLoop (fuel : nat) (w : jsint) (height col : Z)
    (outputData : list Z) : list Z :=
  match fuel with
  | O => outputData
  | Datatypes.S fuel' =>
      if lessThan col w then
        let startIdx := col * hopSize in
        let chunk :=
          subarray (channelData audioBuffer) startIdx (startIdx + fftSize) in
        if Z.of_nat (length chunk) <? fftSize then outputData
        else
          let ri := performFFT chunk in
          mainLoop fuel' w height (col + 1)
            (storeColumn height col ri outputData)
      else outputData
  end.

(** The number of rounds of [for (col = 0; col < w; col++)]. *)
Definition rounds (w : jsint) : nat :=
  match w with Int z => Z.to_nat z | _ => O end.

(** The promise of [generateSpectrogramData] settles with the record
    or with the error of the output allocation; the pauses of the loop
    ([await] of a zero timeout every 1000 columns) change nothing. *)
Definition generateSpectrogramData : Outcome SpectrogramData :=
  let length := Z.of_nat (Datatypes.length (channelData audioBuffer)) in
  let width := floorDiv (length - fftSize) hopSize in
  let height := fftSize / 2 in
  match newUint8Array (times width height) with
  | Thrown e => Thrown e
  | Returned outputData =>
      let outputData := mainLoop (rounds width) width height 0 outputData in
      Returned
        (mkSpectrogramData outputData width height (sampleRate audioBuffer))
  end.

End STFT.

Arguments Returned {A} a.
Arguments Thrown {A} e.

(** *** [generateSpectrogramData] with its rounding

    The analysis once more, as the program computes it.  A sample and an
    element of a [Float32Array] is a single-precision number, finite,
    infinite or [NaN]; each arithmetic result is rounded to double
    precision and each store into a [Float32Array] to single precision.
    [Math.cos], [Math.sin], [Math.sqrt] and [Math.log10] are
    implementation-approximated in ECMAScript: their values at the finite
    arguments are the parameters [cosD], [sinD], [sqrtD] and [log10D],
    their values at the other arguments are those that the language
    fixes.  A zero has no sign. *)

Module Rounded.

Local Open Scope R_scope.

(** The nearest integer, a tie going to the even one. *)
Definition nearestEven (x : R) : Z :=
  let f := Int_part x in
  let r := x - IZR f in
  if Rlt_dec r (1 / 2) then f
  else if Rlt_dec (1 / 2) r then (f + 1)%Z
  else if Z.even f then f else (f + 1)%Z.

(** The integer [e] with [2^e <= x < 2^(e+1)], for [x > 0]. *)
Definition exponentOf (x : R) : Z := Int_part (ln x / ln 2).

(** The number nearest to [x] in the binary format with [prec] bits of
    precision and the exponents [emin .. emax]; a magnitude that rounds
    to [2^(emax+1)] is infinite. *)
Definition roundTo (prec emin emax : Z) (x : R) : number :=
  if Req_dec_T x 0 then Fin 0
  else
    let a := Rabs x in
    let e := Z.max (exponentOf a) emin in
    let u := powerRZ 2 (e - (prec - 1)) in
    let m := IZR (nearestEven (a / u)) * u in
    let positive := if Rlt_dec 0 x then true else false in
    if Rle_dec (powerRZ 2 (emax + 1)) m then Inf positive
    else Fin (if positive then m else - m).

Definition toDouble : R -> number := roundTo 53 (-1022) 1023.
Definition toSingle : R -> number := roundTo 24 (-126) 127.

Definition rounded (f : R -> number) (a : number) : number :=
  match a with
  | Fin x => f x
  | other => other
  end.

(** [a + b], [a - b], [a * b] and [a / b] *)
Definition addD (a b : number) : number := rounded toDouble (add a b).
Definition subD (a b : number) : number := rounded toDouble (sub a b).
Definition mulD (a b : number) : number := rounded toDouble (mul a b).
Definition divD (a b : number) : number := rounded toDouble (div a b).

(** The value that a store leaves in an element of a [Float32Array]. *)
Definition storeSingle (a : number) : number := rounded toSingle a.

(** [Math.PI] and the literal [1e-6] *)
Definition Math_PI : number := Fin (884279719003555 / 281474976710656).
Definition lit_1e_6 : number :=
  Fin (4722366482869645 / 4722366482869645213696).

(** The conversion of a number stored in a [Uint8Array]: a number that
    is not finite becomes 0. *)
Definition storeUint8 (a : number) : Z :=
  match a with
  | Fin x => ToUint8 x
  | _ => 0%Z
  end.

Record AudioBuffer : Type := mkAudioBuffer {
  channelData : list number;
  sampleRate : R
}.

Section STFT.

Variables cosD sinD sqrtD log10D : R -> R.

Definition Math_cos (a : number) : number :=
  match a with
  | Fin x => Fin (cosD x)
  | _ => NaN
  end.

Definition Math_sin (a : number) : number :=
  match a with
  | Fin x => Fin (sinD x)
  | _ => NaN
  end.

Definition Math_sqrt (a : number) : number :=
  match a with
  | Fin x => if Rlt_dec x 0 then NaN else Fin (sqrtD x)
  | Inf true => Inf true
  | _ => NaN
  end.

Definition Math_log10 : number -> number := logWith log10D.

(** [-60 dB .. 0 dB] to [0 .. 255] *)
Definition intensityOf (re im : number) : number :=
  let mag := Math_sqrt (addD (mulD re re) (mulD im im)) in
  let val := mulD (Fin 20) (Math_log10 (addD mag lit_1e_6)) in
  let intensity := mulD (addD val (Fin 60)) (Fin 4) in
  let intensity := if ltNum intensity (Fin 0) then Fin 0 else intensity in
  if ltNum (Fin 255) intensity then Fin 255 else intensity.

Variable audioBuffer : AudioBuffer.
Variable fftSize : Z.
Variable hopSize : Z.

Local Open Scope Z_scope.

Definition window : list number :=
  map (fun i =>
         storeSingle
           (mulD (Fin 0.5)
              (subD (Fin 1)
                 (Math_cos
                    (divD (mulD (mulD (Fin 2) Math_PI) (ofZ i))
                       (ofZ (fftSize - 1)))))))
    (seqZ 0 fftSize).

Definition sinTable : list number :=
  map (fun i =>
         storeSingle
           (Math_sin
              (divD (mulD (mulD (Fin (-2)) Math_PI) (ofZ i)) (ofZ fftSize))))
    (seqZ 0 (fftSize / 2)).

Definition cosTable : list number :=
  map (fun i =>
         storeSingle
           (Math_cos
              (divD (mulD (mulD (Fin (-2)) Math_PI) (ofZ i)) (ofZ fftSize))))
    (seqZ 0 (fftSize / 2)).

(** A read past the end of a typed array is [undefined], [NaN] in the
    arithmetic. *)
Definition butterfly (halfSize step i j : Z)
    (ri : list number * list number) : list number * list number :=
  let (real, imag) := ri in
  let k := j * step in
  let tReal :=
    subD (mulD (rd NaN real (i + j + halfSize)) (rd NaN cosTable k))
      (mulD (rd NaN imag (i + j + halfSize)) (rd NaN sinTable k)) in
  let tImag :=
    addD (mulD (rd NaN real (i + j + halfSize)) (rd NaN sinTable k))
      (mulD (rd NaN imag (i + j + halfSize)) (rd NaN cosTable k)) in
  let real :=
    wr real (i + j + halfSize)
      (storeSingle (subD (rd NaN real (i + j)) tReal)) in
  let imag :=
    wr imag (i + j + halfSize)
      (storeSingle (subD (rd NaN imag (i + j)) tImag)) in
  let real := wr real (i + j) (storeSingle (addD (rd NaN real (i + j)) tReal)) in
  let imag := wr imag (i + j) (storeSingle (addD (rd NaN imag (i + j)) tImag)) in
  (real, imag).

Definition performFFT (input : list number) : list number * list number :=
  let real := repeat (Fin 0) (Z.to_nat fftSize) in
  let imag := repeat (Fin 0) (Z.to_nat fftSize) in
  let ri :=
    forUpTo fftSize
      (fun i '(real, imag) =>
         (wr real (rd 0 (rev fftSize) i)
            (storeSingle (mulD (rd NaN input i) (rd NaN window i))),
          wr imag (rd 0 (rev fftSize) i) (Fin 0)))
      (real, imag) in
  forLoop (Z.to_nat fftSize) (fun size => size <=? fftSize)
    (fun size => size * 2)
    (fun size ri =>
       let halfSize := size / 2 in
       let step := fftSize / size in
       forLoop (Z.to_nat fftSize) (fun i => i <? fftSize)
         (fun i => i + size)
         (fun i ri => forUpTo halfSize (butterfly halfSize step i) ri)
         0 ri)
    2 ri.

Definition storeColumn (height col : Z) (ri : list number * list number)
    (outputData : list Z) : list Z :=
  forUpTo height
    (fun bin outputData =>
       let intensity :=
         intensityOf (rd NaN (fst ri) bin) (rd NaN (snd ri) bin) in
       wr outputData (col * height + (height - 1 - bin))
         (storeUint8 intensity))
    outputData.

Fixpoint mainLoop (fuel : nat) (w : jsint) (height col : Z)
    (outputData : list Z) : list Z :=
  match fuel with
  | O => outputData
  | Datatypes.S fuel' =>
      if lessThan col w then
        let startIdx := col * hopSize in
        let chunk :=
          subarray (channelData audioBuffer) startIdx (startIdx + fftSize) in
        if Z.of_nat (length chunk) <? fftSize then outputData
        else
          let ri := performFFT chunk in
          mainLoop fuel' w height (col + 1)
            (storeColumn height col ri outputData)
      else outputData
  end.

Definition generateSpectrogramData : Outcome SpectrogramData :=
  let length := Z.of_nat (Datatypes.length (channelData audioBuffer)) in
  let width := floorDiv (length - fftSize) hopSize in
  let height := fftSize / 2 in
  match newUint8Array (times width height) with
  | Thrown e => Thrown e
  | Returned outputData =>
      let outputData := mainLoop (rounds width) width height 0 outputData in
      Returned
        (mkSpectrogramData outputData width height (sampleRate audioBuffer))
  end.

End STFT.

End Rounded.

(** *** The row-to-frequency map of [drawSpectrogramChunk]

    The body of the loop that fills [binMap], up to [targetFreq]; the
    settings [minFreq] and [maxFreq] are finite numbers. *)

Local Open Scope js_scope.

Definition toMel (f : number) : number :=
  Fin 2595 * Math_log10 (Fin 1 + f / Fin 700).

Definition fromMel (m : number) : number :=
  Fin 700 * (Math_pow (Fin 10) (m / Fin 2595) - Fin 1).

Definition targetFreq (frequencyScale : FrequencyScale)
    (canvasHeight : Z) (minFreq maxFreq : R) (y : Z) : number :=
  let safeMinFreq := Math_max (Fin minFreq) (Fin 1) in
  let normY := Fin 1 - (ofZ y / ofZ canvasHeight) in
  match frequencyScale with
  | linear => Fin minFreq + (normY * (Fin maxFreq - Fin minFreq))
  | log => safeMinFreq * Math_pow (Fin maxFreq / safeMinFreq) normY
  | mel =>
      let minM := toMel (Fin minFreq) in
      let maxM := toMel (Fin maxFreq) in
      let targetM := minM + (normY * (maxM - minM)) in
      fromMel targetM
  end.

(** *** The pixel loop of [drawSpectrogramChunk] *)

(** The conversion of a number stored in an [Int32Array]: a number that
    is not finite becomes 0. *)
Definition storeInt32 (a : number) : Z :=
  match a with
  | Fin x => toInt32 (truncate x)
  | _ => 0%Z
  end.

(** [binMap[y]]: the bin shown in pixel row [y]. *)
Definition binMap (frequencyScale : FrequencyScale)
    (canvasHeight specHeight : Z) (minFreq maxFreq sampleRate : R) (y : Z)
  : Z :=
  let nyquist := Fin sampleRate / Fin 2 in
  let targetFreq := targetFreq frequencyScale canvasHeight minFreq maxFreq y in
  let binIndex := Math_floor ((targetFreq / nyquist) * ofZ specHeight) in
  storeInt32 (Math_max (Fin 0) (Math_min binIndex (ofZ (specHeight - 1)%Z))).

(** The column of the data shown in pixel column [x], or [None] when the
    bounds check skips the pixel column. *)
Definition columnOf (specWidth : Z) (startTime timePerPixel totalDuration : number)
    (x : Z) : option Z :=
  let t := startTime + (ofZ x * timePerPixel) in
  let exactCol := (t / totalDuration) * ofZ specWidth in
  if geNum exactCol (Fin 0) && ltNum exactCol (ofZ specWidth) then
    match Math_floor exactCol with
    | Fin c => Some (Int_part c)
    | _ => None
    end
  else None.


Local Close Scope js_scope.

(** Contrast and brightness: from the stored intensity to the index of
    the colour in [COLOR_MAP].  Only field operations are used: the
    numbers are doubles, given by their rational values, and each result
    is rounded. *)
Definition colorIdxOf (rawIntensity : Z) (contrast brightness : Q) : Z :=
  let nVal := fdiv (inject_Z rawIntensity) 255 in
  let nVal := fadd (fmul (fsub nVal (1 # 2)) contrast) (1 # 2) in
  let nVal := if Qlt_le_dec nVal 0 then 0%Q else nVal in
  let nVal := if Qlt_le_dec 1 nVal then 1%Q else nVal in
  let val := fmul (fmul nVal 255) brightness in
  let val := if Qlt_le_dec 255 val then 255%Q else val in
  let val := if Qlt_le_dec val 0 then 0%Q else val in
  (Qfloor val * 3)%Z.

(** The first pair of neighbouring stops that brackets [val]. *)
Fixpoint findSegment (stops : list Stop) (val : Q) : option (Stop * Stop) :=
  match stops with
  | lower :: ((upper :: _) as rest) =>
      if Qle_bool (pos lower) val && Qle_bool val (pos upper)
      then Some (lower, upper)
      else findSegment rest val
  | _ => None
  end.

Definition interpolateColor (val : Q) : Z * Z * Z :=
  let first := nth 0 MAGMA_STOPS (mkStop 0 0 0 0) in
  let last := nth (length MAGMA_STOPS - 1) MAGMA_STOPS (mkStop 0 0 0 0) in
  let (lower, upper) :=
    match findSegment MAGMA_STOPS val with
    | Some p => p
    | None => (first, last)
    end in
  let range := fsub (pos upper) (pos lower) in
  let rangePct := fdiv (fsub val (pos lower)) range in
  let pctLower := fsub 1 rangePct in
  let pctUpper := rangePct in
  let mix (l u : Z) : Z :=
    Qfloor (fadd (fmul (inject_Z l) pctLower) (fmul (inject_Z u) pctUpper)) in
  (mix (r lower) (r upper), mix (g lower) (g upper), mix (b lower) (b upper)).

(** The conversion of an integer stored in a [Uint8ClampedArray]. *)
Definition toUint8Clamp (z : Z) : Z := Z.max 0 (Z.min 255 z).

(** The look-up table: three entries per intensity [i] of [0 .. 255]. *)
Definition COLOR_MAP : list Z :=
  flat_map
    (fun i =>
       let '(cr, cg, cb) := interpolateColor (fdiv (inject_Z i) 255) in
       [toUint8Clamp cr; toUint8Clamp cg; toUint8Clamp cb])
    (seqZ 0 256).

End AudioProcessing.

(* ----------------------------------------------------------------- *)
(** ** Strings

    A string is a sequence of code units below 256 (Latin-1). *)

Module JsString.

(** [c.toLowerCase()] on one code unit: the capital letters of Latin-1
    are 32 below their small letters. *)
Definition toLowerCaseChar (c : ascii) : ascii :=
  let n := nat_of_ascii c in
  if ((65 <=? n) && (n <=? 90) || (192 <=? n) && (n <=? 214)
      || (216 <=? n) && (n <=? 222))%nat
  then ascii_of_nat (n + 32) else c.

Fixpoint toLowerCase (s : string) : string :=
  match s with
  | EmptyString => EmptyString
  | String c rest => String (toLowerCaseChar c) (toLowerCase rest)
  end.

End JsString.

(* ----------------------------------------------------------------- *)
(** ** components/Spectrogram.tsx: the pointer interaction with labels *)

Module Spectrogram.

Local Open Scope Q_scope.

Inductive Side : Type := side_start | side_end.

(** Where a press on the container landed, as [handleMouseDown] tests it
    with [closest]. *)
Inductive Target : Type := onCanvas | inInput | inButton | inLabelItem.

(** What the component reads and does not own.  [containerLeft] is
    [containerRef.current.getBoundingClientRect().left], [None] while the
    ref is not attached.  [pixelsPerSecond] is the container width over the
    window seconds (or 100), a positive number. *)
Record Props : Type := mkProps {
  duration : Q;
  pixelsPerSecond : Q;
  containerLeft : option Q;
  activeLabelConfig : LabelConfig
}.

(** The label list and the selection belong to the parent
    ([onLabelsChange], [onSelectLabel] replace them); the rest is the
    component's own state. *)
Record State : Type := mkState {
  labels : list Label;
  selectedLabelId : option string;
  scrollLeft : Q;
  dragStart : option (Q * Q);               (* x, scroll *)
  creatingLabel : option (Q * Q);           (* start, current *)
  resizingLabel : option (string * Side * Q); (* id, side, originalTime *)
  draggedLabel : option (string * Q)        (* id, startOffset *)
}.

Definition withStart (s : Q) (l : Label) : Label :=
  mkLabel (id l) (configId l) s (end_ l) (text l) (color l) (layerIndex l).
Definition withEnd (e : Q) (l : Label) : Label :=
  mkLabel (id l) (configId l) (start l) e (text l) (color l) (layerIndex l).
Definition withStartEnd (s e : Q) (l : Label) : Label :=
  mkLabel (id l) (configId l) s e (text l) (color l) (layerIndex l).

(** *** The frequency axis: the row of a tick

    The helpers are the component's own copies of the mel maps. *)

Section Axis.

Import JsNumber.
Local Open Scope js_scope.

Definition toMel (f : number) : number :=
  Fin 2595 * Math_log10 (Fin 1 + f / Fin 700).

Definition fromMel (m : number) : number :=
  Fin 700 * (Math_pow (Fin 10) (m / Fin 2595) - Fin 1).

(** The [y] that [renderTick(freq)] computes on a canvas of the given
    [height]; the tick is drawn when [0 <= y <= height]. *)
Definition renderTick_y (frequencyScale : FrequencyScale) (height : Z)
    (minFreq maxFreq : R) (freq : number) : number :=
  match frequencyScale with
  | linear =>
      let pct := (freq - Fin minFreq) / (Fin maxFreq - Fin minFreq) in
      ofZ height - (pct * ofZ height)
  | log =>
      let minSafe := Math_max (Fin minFreq) (Fin 1) in
      let pct :=
        Math_log (freq / minSafe)
        / Math_log (Fin maxFreq / minSafe) in
      ofZ height - (pct * ofZ height)
  | mel =>
      let minM := toMel (Fin minFreq) in
      let maxM := toMel (Fin maxFreq) in
      let m := toMel freq in
      let pct := (m - minM) / (maxM - minM) in
      ofZ height - (pct * ofZ height)
  end.

End Axis.

Local Open Scope Q_scope.

Section Handlers.

Variable props : Props.

Definition getPointerTime (sc : Q) (clientX : Q) : Q :=
  match containerLeft props with
  | None => 0
  | Some rleft =>
      let x := fsub clientX rleft in
      let absoluteX := fadd x sc in
      let t := fdiv absoluteX (pixelsPerSecond props) in
      Qmax 0 (Qmin t (duration props))
  end.

Definition handleMouseDown (button : Z) (target : Target) (clientX : Q)
    (st : State) : State :=
  if (button =? 2)%Z then
    mkState (labels st) (selectedLabelId st) (scrollLeft st)
      (Some (clientX, scrollLeft st))
      (creatingLabel st) (resizingLabel st) (draggedLabel st)
  else
    match target with
    | inInput | inButton => st
    | _ =>
        let onAxis :=
          match containerLeft props with
          | Some rleft => negb (Qle_bool 50 (fsub clientX rleft))
          | None => false
          end in
        if onAxis then st
        else
          match target with
          | inLabelItem => st
          | _ =>
              let t := getPointerTime (scrollLeft st) clientX in
              mkState (labels st) None (scrollLeft st) (dragStart st)
                (Some (t, t)) (resizingLabel st) (draggedLabel st)
          end
    end.

(** [onMouseDown] of a label item [l]: the middle button deletes it,
    any other button selects it and starts a drag. *)
Definition labelMouseDown (l : Label) (button : Z) (clientX : Q)
    (st : State) : State :=
  if (button =? 1)%Z then
    mkState (List.filter (fun lb => negb (String.eqb (id lb) (id l))) (labels st))
      (match selectedLabelId st with
       | Some sid => if String.eqb sid (id l) then None else Some sid
       | None => None
       end)
      (scrollLeft st) (dragStart st)
      (creatingLabel st) (resizingLabel st) (draggedLabel st)
  else
    mkState (labels st) (Some (id l)) (scrollLeft st) (dragStart st)
      (creatingLabel st) (resizingLabel st)
      (Some (id l, fsub (getPointerTime (scrollLeft st) clientX) (start l))).

(** [onMouseDown] of the left or right edge handle of a label item. *)
Definition handleMouseDownEdge (l : Label) (side : Side) (st : State)
  : State :=
  mkState (labels st) (Some (id l)) (scrollLeft st) (dragStart st)
    (creatingLabel st)
    (Some (id l, side,
           match side with side_start => start l | side_end => end_ l end))
    (draggedLabel st).

Definition resizeLabel (rid : string) (side : Side) (t : Q) (l : Label)
  : Label :=
  if String.eqb (id l) rid then
    match side with
    | side_start => withStart (Qmin t (fsub (end_ l) lit_0_05)) l
    | side_end => withEnd (Qmax t (fadd (start l) lit_0_05)) l
    end
  else l.

Definition dragLabel (did : string) (startOffset : Q) (t : Q) (l : Label)
  : Label :=
  if String.eqb (id l) did then
    let duration := fsub (end_ l) (start l) in
    let newStart := Qmax 0 (fsub t startOffset) in
    withStartEnd newStart (fadd newStart duration) l
  else l.

Definition handleMouseMove (clientX : Q) (st : State) : State :=
  match dragStart st with
  | Some (x, scroll) =>
      let delta := fsub x clientX in
      mkState (labels st) (selectedLabelId st) (Qmax 0 (fadd scroll delta))
        (dragStart st) (creatingLabel st) (resizingLabel st)
        (draggedLabel st)
  | None =>
      let t := getPointerTime (scrollLeft st) clientX in
      match creatingLabel st with
      | Some (s, _) =>
          mkState (labels st) (selectedLabelId st) (scrollLeft st)
            (dragStart st) (Some (s, t)) (resizingLabel st)
            (draggedLabel st)
      | None =>
          match resizingLabel st with
          | Some (rid, side, _) =>
              mkState (map (resizeLabel rid side t) (labels st))
                (selectedLabelId st) (scrollLeft st) (dragStart st)
                (creatingLabel st) (resizingLabel st) (draggedLabel st)
          | None =>
              match draggedLabel st with
              | Some (did, startOffset) =>
                  mkState (map (dragLabel did startOffset t) (labels st))
                    (selectedLabelId st) (scrollLeft st) (dragStart st)
                    (creatingLabel st) (resizingLabel st) (draggedLabel st)
              | None => st
              end
          end
      end
  end.

(** [newId] stands for [Math.random().toString(36).substr(2, 9)]. *)
Definition handleMouseUp (newId : string) (st : State) : State :=
  let ls :=
    match creatingLabel st with
    | Some (s, c) =>
        let start := Qmin s c in
        let end_ := Qmax s c in
        if Qlt_le_dec lit_0_05 (fsub end_ start) then
          let isActiveDefault :=
            String.eqb (key (activeLabelConfig props)) "0" in
          let newLabel :=
            mkLabel newId (key (activeLabelConfig props)) start end_
              (if isActiveDefault then ""%string
               else cfg_text (activeLabelConfig props))
              (cfg_color (activeLabelConfig props)) None in
          (labels st ++ [newLabel], Some newId)
        else (labels st, selectedLabelId st)
    | None => (labels st, selectedLabelId st)
    end in
  mkState (fst ls) (snd ls) (scrollLeft st) None None None None.

End Handlers.

(** *** Wheel, playback, layout and the label controls *)

Section View.

Variable props : Props.

(** [x || d] for a number: 0 is falsy. *)
Definition orElse (x d : Q) : Q := if Qeq_bool x 0 then d else x.

(** [handleWheel]: with Ctrl or Meta the wheel zooms about the pointer,
    otherwise it pans.  The result is the new [scrollLeft] and the window
    size handed to [onZoomChange] (the old one when nothing is handed).
    [clientWidth] is the width of the container. *)
Definition handleWheel (clientWidth windowSize : Q) (ctrlOrMeta : bool)
    (clientX deltaX deltaY : Q) (sc : Q) : Q * Q :=
  if ctrlOrMeta then
    match containerLeft props with
    | None => (sc, windowSize)
    | Some rleft =>
        let mouseX := fsub clientX rleft in
        let timeAtMouse := fdiv (fadd sc mouseX) (pixelsPerSecond props) in
        let zoomFactor := lit_1_1 in
        let direction : Q := if Qlt_le_dec 0 deltaY then 1 else -1 in
        let newWindowSize :=
          fmul windowSize
            (if Qlt_le_dec 0 direction then zoomFactor
             else fdiv 1 zoomFactor) in
        let newWindowSize :=
          Qmax 1 (Qmin (Qmin newWindowSize 60) (orElse (duration props) 60)) in
        let containerWidth := clientWidth in
        let newPixelsPerSecond := fdiv containerWidth newWindowSize in
        let newScrollLeft :=
          fsub (fmul timeAtMouse newPixelsPerSecond) mouseX in
        let maxScroll :=
          Qmax 0 (fsub (fmul (duration props) newPixelsPerSecond)
                    containerWidth) in
        let newScrollLeft := Qmax 0 (Qmin newScrollLeft maxScroll) in
        (newScrollLeft, newWindowSize)
    end
  else
    let panAmount := fadd deltaY deltaX in
    let width :=
      match containerLeft props with
      | Some _ => orElse clientWidth 0
      | None => 0
      end in
    let maxScroll :=
      Qmax 0 (fsub (fmul (duration props) (pixelsPerSecond props)) width) in
    (Qmax 0 (Qmin (fadd sc panAmount) maxScroll), windowSize).

(** The effect that follows the playback: the new [scrollLeft] while
    playing with the container attached.  The product and the difference
    are given without rounding. *)
Definition syncScroll (clientWidth currentTime : Q) : Q :=
  let containerWidth := clientWidth in
  let playheadPos := currentTime * pixelsPerSecond props in
  let targetScroll := playheadPos - containerWidth / 2 in
  if Qlt_le_dec 0 targetScroll then targetScroll else 0.

(** The [x] of the playhead line in [draw]; the line is drawn when
    [0 <= playheadX <= width]. *)
Definition playheadX (currentTime sc : Q) : Q :=
  currentTime * pixelsPerSecond props - sc.

(** The box of a label item: [left], [width] and [top] of its style; the
    item is 30 high and shown at least 2 wide.  The products and the
    differences are given without rounding. *)
Definition labelLeft (sc : Q) (l : Label) : Q :=
  start l * pixelsPerSecond props - sc.

Definition labelWidth (l : Label) : Q :=
  (end_ l - start l) * pixelsPerSecond props.

Definition labelTop (l : Label) : Q :=
  10 + inject_Z (Z.of_nat (match layerIndex l with Some i => i | None => O end))
       * 35.

Definition labelShownWidth (l : Label) : Q := Qmax 2 (labelWidth l).

(** [onChange] of the text input of label [lid]: a text that equals the
    name of a category other than the default one, letter case apart,
    binds the label to that category; another text turns a label of a
    coloured category into a custom one. *)
Definition changeLabelText (labelConfigs : list LabelConfig) (lid : string)
    (newText : string) (lb : Label) : Label :=
  if String.eqb (id lb) lid then
    match
      List.find
        (fun c =>
           String.eqb (JsString.toLowerCase (cfg_text c))
             (JsString.toLowerCase newText)
           && negb (String.eqb (key c) "0"))
        labelConfigs
    with
    | Some matchingConfig =>
        mkLabel (id lb) (key matchingConfig) (start lb) (end_ lb)
          (cfg_text matchingConfig) (cfg_color matchingConfig) (layerIndex lb)
    | None =>
        if negb (String.eqb (configId lb) "0")
           && negb (match color lb with
                    | Some c => String.eqb c "#ffffff"
                    | None => false
                    end)
           && negb (String.eqb (text lb) newText)
        then mkLabel (id lb) "0" (start lb) (end_ lb) newText
               (Some "#ffffff"%string) (layerIndex lb)
        else mkLabel (id lb) (configId lb) (start lb) (end_ lb) newText
               (color lb) (layerIndex lb)
    end
  else lb.

Definition handleTextChange (labelConfigs : list LabelConfig) (lid : string)
    (newText : string) (st : State) : State :=
  mkState (map (changeLabelText labelConfigs lid newText) (labels st))
    (selectedLabelId st) (scrollLeft st) (dragStart st) (creatingLabel st)
    (resizingLabel st) (draggedLabel st).

(** [onClick] of the delete button of a label item. *)
Definition handleDeleteClick (l : Label) (st : State) : State :=
  mkState (List.filter (fun lb => negb (String.eqb (id lb) (id l))) (labels st))
    (match selectedLabelId st with
     | Some sid => if String.eqb sid (id l) then None else Some sid
     | None => None
     end)
    (scrollLeft st) (dragStart st)
    (creatingLabel st) (resizingLabel st) (draggedLabel st).

End View.

(** *** The events of the component *)

Inductive Event : Type :=
| MouseDown (button : Z) (target : Target) (clientX : Q)
| LabelMouseDown (l : Label) (button : Z) (clientX : Q)
| EdgeMouseDown (l : Label) (side : Side)
| MouseMove (clientX : Q)
| MouseUp (newId : string)
| Wheel (clientWidth windowSize : Q) (ctrlOrMeta : bool)
    (clientX deltaX deltaY : Q)
| PlaybackTick (clientWidth currentTime : Q)
| TextChange (labelConfigs : list LabelConfig) (lid newText : string)
| DeleteClick (l : Label).

Definition withScrollLeft (sc : Q) (st : State) : State :=
  mkState (labels st) (selectedLabelId st) sc (dragStart st)
    (creatingLabel st) (resizingLabel st) (draggedLabel st).

(** One event, under the props of the render that handles it. *)
Definition step (props : Props) (ev : Event) (st : State) : State :=
  match ev with
  | MouseDown button target clientX =>
      handleMouseDown props button target clientX st
  | LabelMouseDown l button clientX => labelMouseDown props l button clientX st
  | EdgeMouseDown l side => handleMouseDownEdge l side st
  | MouseMove clientX => handleMouseMove props clientX st
  | MouseUp newId => handleMouseUp props newId st
  | Wheel clientWidth windowSize ctrlOrMeta clientX deltaX deltaY =>
      withScrollLeft
        (fst (handleWheel props clientWidth windowSize ctrlOrMeta clientX
                deltaX deltaY (scrollLeft st))) st
  | PlaybackTick clientWidth currentTime =>
      withScrollLeft (syncScroll props clientWidth currentTime) st
  | TextChange labelConfigs lid newText =>
      handleTextChange labelConfigs lid newText st
  | DeleteClick l => handleDeleteClick l st
  end.

Definition run (events : list (Props * Event)) (st : State) : State :=
  fold_left (fun st pe => step (fst pe) (snd pe) st) events st.

End Spectrogram.

(* ----------------------------------------------------------------- *)
(** ** App.tsx: the category list *)

Module App.

Local Open Scope string_scope.

Record State : Type := mkState {
  labels : list Label;
  labelConfigs : list LabelConfig;
  activeLabelIndex : nat
}.

(** [i.toString()] for an array index. *)
Definition toString (i : nat) : string :=
  NilEmpty.string_of_uint (Nat.to_uint i).

(** JavaScript white space among the code units below 256. *)
Definition isWhiteSpace (c : ascii) : bool :=
  let n := nat_of_ascii c in
  ((9 <=? n) && (n <=? 13) || (n =? 32) || (n =? 160))%nat.

(** [s.trim() === ""] *)
Fixpoint trimIsEmpty (s : string) : bool :=
  match s with
  | "" => true
  | String c rest => isWhiteSpace c && trimIsEmpty rest
  end.

Definition handleAddLabelConfig (newLabelText : string) (st : State)
  : State :=
  if trimIsEmpty newLabelText then st
  else
    let nextIndex := length (labelConfigs st) in
    if (10 <=? nextIndex)%nat then st
    else
      let newConfig :=
        mkLabelConfig (toString nextIndex) newLabelText
          (HOTKEY_COLORS !! nextIndex) in
      mkState (labels st) (labelConfigs st ++ [newConfig]) nextIndex.

(** [labelConfigs.filter((_, i) => i !== idx)] *)
Definition removeAt (idx : nat) (cs : list LabelConfig) : list LabelConfig :=
  map snd (List.filter (fun ic => negb (fst ic =? idx)%nat)
             (imap (fun i c => (i, c)) cs)).

Definition convertToCustom (k : string) (l : Label) : Label :=
  if String.eqb (configId l) k
  then mkLabel (id l) "0" (start l) (end_ l) (text l) (Some "#ffffff")
         (layerIndex l)
  else l.

(** [choice] is the answer to the [confirm] prompt, which is asked only
    when some label uses the category: [true] converts the labels to
    custom ones, [false] deletes them.  [None] is the [TypeError] of
    reading [config.key] when [labelConfigs[idx]] is [undefined]. *)
Definition handleDeleteCategory (idx : nat) (choice : bool) (st : State)
  : option State :=
  if (idx =? 0)%nat then Some st
  else
    match labelConfigs st !! idx with
    | None => None
    | Some config =>
        let linkedLabels :=
          List.filter (fun l => String.eqb (configId l) (key config)) (labels st) in
        let updatedLabels :=
          if (0 <? length linkedLabels)%nat then
            if choice then map (convertToCustom (key config)) (labels st)
            else List.filter (fun l => negb (String.eqb (configId l) (key config)))
                   (labels st)
          else labels st in
        let newConfigs := removeAt idx (labelConfigs st) in
        let reindexed :=
          imap (fun i c =>
                  mkLabelConfig (toString i) (cfg_text c) (HOTKEY_COLORS !! i))
            newConfigs in
        Some (mkState updatedLabels reindexed 0)
    end.

(** *** Renaming a category, the hot keys and the palette *)

Fixpoint trimStart (s : string) : string :=
  match s with
  | "" => ""
  | String c rest => if isWhiteSpace c then trimStart rest else s
  end.

Fixpoint trimEnd (s : string) : string :=
  match s with
  | "" => ""
  | String c rest =>
      match trimEnd rest with
      | "" => if isWhiteSpace c then "" else String c ""
      | kept => String c kept
      end
  end.

(** [s.trim()] *)
Definition trim (s : string) : string := trimEnd (trimStart s).

Definition withText (t : string) (l : Label) : Label :=
  mkLabel (id l) (configId l) (start l) (end_ l) t (color l) (layerIndex l).

Definition renameLabel (k newName : string) (l : Label) : Label :=
  if String.eqb (configId l) k then withText newName l else l.

(** [saveEditingCategory], with the index and the text of the category
    under edit.  [None] is the [TypeError] of reading [config.text] when
    [labelConfigs[idx]] is [undefined]. *)
Definition saveEditingCategory (editingLabelIndex : option nat)
    (editingLabelText : string) (st : State) : option State :=
  match editingLabelIndex with
  | None => Some st
  | Some idx =>
      let newName := trim editingLabelText in
      if String.eqb newName "" then Some st
      else
        match labelConfigs st !! idx with
        | None => None
        | Some config =>
            if negb (String.eqb newName (cfg_text config)) then
              let updatedConfigs :=
                <[idx := mkLabelConfig (key config) newName (cfg_color config)]>
                  (labelConfigs st) in
              let updatedLabels :=
                map (renameLabel (key config) newName) (labels st) in
              Some (mkState updatedLabels updatedConfigs (activeLabelIndex st))
            else Some st
        end
  end.

(** The digit of a key that matches [/^[0-9]$/]. *)
Definition digitOfKey (k : string) : option nat :=
  match k with
  | String c "" =>
      let n := nat_of_ascii c in
      if ((48 <=? n) && (n <=? 57))%nat then Some (n - 48)%nat else None
  | _ => None
  end.

(** The global [keydown] handler: the label list, the selection and the
    active category after a key (play and mute are not part of the
    state).  An empty selected id is falsy. *)
Definition handleKeyDown (targetIsInput : bool) (k : string)
    (selectedLabelId : option string) (st : State) : State * option string :=
  if targetIsInput then (st, selectedLabelId)
  else
    let lower := JsString.toLowerCase k in
    let deleted :=
      if String.eqb lower "delete" || String.eqb lower "backspace" then
        match selectedLabelId with
        | Some sid =>
            if String.eqb sid "" then (labels st, selectedLabelId)
            else (List.filter (fun l => negb (String.eqb (id l) sid)) (labels st),
                  None)
        | None => (labels st, selectedLabelId)
        end
      else (labels st, selectedLabelId) in
    let active :=
      match digitOfKey k with
      | Some idx =>
          if (idx <? length (labelConfigs st))%nat then idx
          else activeLabelIndex st
      | None => activeLabelIndex st
      end in
    (mkState (fst deleted) (labelConfigs st) active, snd deleted).

(** *** The events that change the categories or the label list

    [ClickCategory idx] is a click on the palette button of the category
    at position [idx]; there is no such button past the list.
    [LabelsChange] is [onLabelsChange] of the spectrogram. *)
Inductive Event : Type :=
| AddCategory (newLabelText : string)
| DeleteCategory (idx : nat) (choice : bool)
| SaveCategory (editingLabelIndex : option nat) (editingLabelText : string)
| KeyDown (targetIsInput : bool) (k : string) (selectedLabelId : option string)
| ClickCategory (idx : nat)
| LabelsChange (newLabels : list Label).

Definition step (ev : Event) (st : State) : option State :=
  match ev with
  | AddCategory newLabelText => Some (handleAddLabelConfig newLabelText st)
  | DeleteCategory idx choice => handleDeleteCategory idx choice st
  | SaveCategory i t => saveEditingCategory i t st
  | KeyDown targetIsInput k sel => Some (fst (handleKeyDown targetIsInput k sel st))
  | ClickCategory idx =>
      if (idx <? length (labelConfigs st))%nat
      then Some (mkState (labels st) (labelConfigs st) idx)
      else None
  | LabelsChange newLabels =>
      Some (mkState newLabels (labelConfigs st) (activeLabelIndex st))
  end.

Fixpoint run (events : list Event) (st : State) : option State :=
  match events with
  | [] => Some st
  | ev :: rest =>
      match step ev st with
      | Some st' => run rest st'
      | None => None
      end
  end.

Definition initial : State := mkState [] DEFAULT_LABEL_CONFIGS 0.

End App.

(* ----------------------------------------------------------------- *)
(** ** The layering as the specification words it

    "Sort labels by start time; for each label in order, assign it to the
    first lane whose last end time + 0.1s gap <= label.start, else open a
    new lane."  A lane is the set of labels that carry its index; nothing
    is kept besides the labels placed so far.  The invariants that relate
    the lane-end array of the code to the labels placed follow. *)

Module LayeringSpec.

Local Open Scope Q_scope.

Definition inLane (i : nat) (l : Label) : bool :=
  match layerIndex l with Some k => (k =? i)%nat | None => false end.

(** The end time of the label placed last in lane [i]. *)
Definition laneEnd (placed : list Label) (i : nat) : option Q :=
  option_map end_ (last (List.filter (inLane i) placed)).

(** The lanes opened so far are [0 .. laneCount - 1]. *)
Definition laneCount (placed : list Label) : nat :=
  list_max
    (map (fun l => match layerIndex l with Some k => S k | None => O end)
       placed).

Definition roundedGap (e : Q) : Q := fadd e lit_0_1.

(** The greedy assignment for a given gap: a label goes to the first
    lane whose last label ends a gap before the label starts, or else to
    a new lane. *)
Definition fits (gap : Q -> Q) (placed : list Label) (s : Q) (i : nat)
  : bool :=
  match laneEnd placed i with
  | Some e => Qle_bool (gap e) s
  | None => false
  end.

Definition laneFor (gap : Q -> Q) (placed : list Label) (s : Q) : nat :=
  match List.find (fits gap placed s) (seq 0 (laneCount placed)) with
  | Some i => i
  | None => laneCount placed
  end.


(** [layers] lists, lane by lane, the end of the label placed last. *)
Definition tracks (layers : list Q) (placed : list Label) : Prop :=
  (forall i, laneEnd placed i = layers !! i) /\
  laneCount placed = length layers.

(** A label that starts before it ends. *)
Definition wellFormed (l : Label) : Prop := start l < end_ l.

(** The times of a label are numbers of the program. *)
Definition doubleTimes (l : Label) : Prop :=
  isDouble (start l) /\ isDouble (end_ l).

(** A label a millisecond long or longer that ends between 0 and [2^32]
    seconds. *)
Definition ordinaryTimes (l : Label) : Prop :=
  start l + (1 # 1000) <= end_ l /\ 0 <= end_ l <= 4294967296.

(** A label without its derived lane. *)
Definition withoutLayer (l : Label) : Label :=
  mkLabel (id l) (configId l) (start l) (end_ l) (text l) (color l) None.

(** Each label placed is in a lane of [layers] that ends no earlier than
    the label, of two labels of one lane the one placed later starts no
    earlier than the rounded sum of the other's end and 0.1, and the lane
    ends are doubles. *)
Definition gapInvariant (layers : list Q) (placed : list Label) : Prop :=
  (forall p a, placed !! p = Some a ->
     exists i e, layerIndex a = Some i /\ layers !! i = Some e /\
                 end_ a <= e) /\
  (forall p q a b, (p < q)%nat ->
     placed !! p = Some a -> placed !! q = Some b ->
     layerIndex a = layerIndex b -> roundedGap (end_ a) <= start b) /\
  (forall i e, layers !! i = Some e -> isDouble e).

(** Ordered by start time. *)
Definition startsLe (a b : Label) : Prop := start a <= start b.

End LayeringSpec.
Import LayeringSpec.

(* ----------------------------------------------------------------- *)
(** ** The Audacity export as the specification words it

    One line per label, [start TAB end TAB label], the times with six
    decimals, and no header. *)

Module ExportSpec.

Local Open Scope string_scope.

Definition audacityLine (numberToString : Q -> string) (l : Label) : string :=
  toFixed numberToString (start l) 6 ++ TAB
    ++ toFixed numberToString (end_ l) 6 ++ TAB ++ text l ++ NL.

Fixpoint allDigits (s : string) : bool :=
  match s with
  | "" => true
  | String c rest =>
      (48 <=? nat_of_ascii c)%nat && (nat_of_ascii c <=? 57)%nat
      && allDigits rest
  end.

(** The natural number that a string of decimal digits denotes. *)
Definition valueOf (s : string) : option N :=
  option_map N.of_uint (NilEmpty.uint_of_string s).

(** [s] is [x] in fixed notation with [f] decimals: an optional minus
    sign, at least one digit, a point and [f] digits, and the digits are
    those of the integer nearest to [|x| * 10^f] (the larger on a tie). *)
Definition rendersFixed (f : nat) (x : Q) (s : string) : Prop :=
  exists ip fp,
    s = (if Qlt_le_dec x 0 then "-" else "") ++ ip ++ "." ++ fp /\
    String.length fp = f /\
    ip <> "" /\
    allDigits (ip ++ fp) = true /\
    valueOf (ip ++ fp)
    = Some (Z.to_N (Qfloor (Qabs x * inject_Z (10 ^ Z.of_nat f) + (1 # 2)))).

(** Magnitudes below [10^21], where [toFixed] prints fixed notation. *)
Definition fixedRange (x : Q) : Prop := (Qabs x < inject_Z (10 ^ 21))%Q.

End ExportSpec.
Import ExportSpec.

(* ----------------------------------------------------------------- *)
(** ** Invariants of the category list *)

Module CategorySpec.

(** The key of a category is its position, printed in decimal. *)
Definition keysIndexed (cs : list LabelConfig) : Prop :=
  forall i c, cs !! i = Some c -> key c = App.toString i.

End CategorySpec.
Import CategorySpec.

(* ----------------------------------------------------------------- *)
(** ** The invariant of a stored label *)

Module LabelSpec.

Local Open Scope Q_scope.

(** [start < end], both within [[0, duration]]. *)
Definition validLabel (duration : Q) (l : Label) : Prop :=
  start l < end_ l /\ 0 <= start l /\ end_ l <= duration.

End LabelSpec.
Import LabelSpec.

(* ----------------------------------------------------------------- *)
(** ** Configurations of the analysis *)

Module AnalysisSpec.

Local Open Scope Z_scope.

Definition powerOfTwo (n : Z) : Prop := exists k, 0 <= k /\ n = 2 ^ k.

(** "[fftSize] a power of two >= 2, [hopSize > 0]" *)
Definition validConfig (fftSize hopSize : Z) : Prop :=
  powerOfTwo fftSize /\ 2 <= fftSize /\ 0 < hopSize.

(** [clamp(x, 0, 255)] *)
Definition clamp255 (x : R) : R := Rmin 255 (Rmax 0 x).

(** [(20 * log10(sqrt(re^2 + im^2) + 1e-6) + 60) * 4] *)
Definition decibelScale (re im : R) : R :=
  ((20 * (ln (sqrt (re * re + im * im) + / 1000000) / ln 10) + 60) * 4)%R.

(** The value stored for bin [bin] of column [col]: computed from the
    transform of the frame that starts at sample [col * hopSize]. *)
Definition cellOf (audioBuffer : AudioProcessing.AudioBuffer)
    (fftSize hopSize col bin : Z) : Z :=
  let frame :=
    AudioProcessing.subarray (AudioProcessing.channelData audioBuffer)
      (col * hopSize) (col * hopSize + fftSize) in
  let ri := AudioProcessing.performFFT fftSize frame in
  AudioProcessing.ToUint8
    (AudioProcessing.intensityOf
       (AudioProcessing.rd 0%R (fst ri) bin)
       (AudioProcessing.rd 0%R (snd ri) bin)).



End AnalysisSpec.
Import AnalysisSpec.

(* ----------------------------------------------------------------- *)
(** ** The mel scale over the reals *)

Module ScaleSpec.

Local Open Scope R_scope.

(** [mel(f) = 2595 * log10(1 + f / 700)] *)
Definition melOf (f : R) : R := 2595 * (ln (1 + f / 700) / ln 10).

End ScaleSpec.
Import ScaleSpec.

(* ----------------------------------------------------------------- *)
(** ** The invariant of the label view *)

Module InteractionSpec.

Local Open Scope Q_scope.

(** A stored label does not end before it starts nor before 0, and its
    times are doubles. *)
Definition storedLabel (l : Label) : Prop :=
  start l <= end_ l /\ 0 <= end_ l /\
  isDouble (start l) /\ isDouble (end_ l).

(** The props of a render: the duration is a double and the zoom, in
    pixels per second, is positive. *)
Definition renderProps (props : Spectrogram.Props) : Prop :=
  isDouble (Spectrogram.duration props) /\
  0 < Spectrogram.pixelsPerSecond props.

(** What holds of the component after any events: the labels are stored
    labels, a label under creation has its two ends at 0 or later (and
    they are doubles), and the view is not scrolled left of 0. *)
Definition viewInvariant (st : Spectrogram.State) : Prop :=
  Forall storedLabel (Spectrogram.labels st) /\
  (forall s c, Spectrogram.creatingLabel st = Some (s, c) ->
     0 <= s /\ 0 <= c /\ isDouble s /\ isDouble c) /\
  0 <= Spectrogram.scrollLeft st.

End InteractionSpec.
Import InteractionSpec.

(* ----------------------------------------------------------------- *)
(** ** The invariant of the palette *)

Module PaletteSpec.

(** What holds of the category list after any events: the key of a
    category is its position and its colour the hot-key colour of that
    position, there are between one and ten categories, and the active
    index points into the list. *)
Definition paletteInvariant (st : App.State) : Prop :=
  keysIndexed (App.labelConfigs st) /\
  (forall i c, App.labelConfigs st !! i = Some c ->
               cfg_color c = HOTKEY_COLORS !! i) /\
  (1 <= length (App.labelConfigs st) <= 10)%nat /\
  (App.activeLabelIndex st < length (App.labelConfigs st))%nat.

(** Two labels that differ in their text at most. *)
Definition sameButText (a b : Label) : Prop :=
  id a = id b /\ configId a = configId b /\ start a = start b /\
  end_ a = end_ b /\ color a = color b /\ layerIndex a = layerIndex b.

End PaletteSpec.
Import PaletteSpec.

(* ----------------------------------------------------------------- *)
(** ** Reading a CSV record *)

Module CsvSpec.

Local Open Scope string_scope.

(** Reading a quoted field of a CSV record: the text between the opening
    and the closing quote, a doubled quote standing for one quote, and
    what follows the closing quote. *)
Fixpoint readQuotedBody (s : string) : option (string * string) :=
  match s with
  | "" => None
  | String c rest =>
      if Ascii.eqb c QUOTE_CHAR then
        match rest with
        | String d rest' =>
            if Ascii.eqb d QUOTE_CHAR then
              match readQuotedBody rest' with
              | Some (t, r) => Some (String QUOTE_CHAR t, r)
              | None => None
              end
            else Some ("", rest)
        | "" => Some ("", "")
        end
      else
        match readQuotedBody rest with
        | Some (t, r) => Some (String c t, r)
        | None => None
        end
  end.

Definition readQuoted (s : string) : option (string * string) :=
  match s with
  | String c rest => if Ascii.eqb c QUOTE_CHAR then readQuotedBody rest else None
  | "" => None
  end.

(** The numbers of a CSV record: start and end with four decimals. *)
Definition csvTimes (numberToString : Q -> string) (l : Label) : string :=
  "," ++ toFixed numberToString (start l) 4 ++ ","
    ++ toFixed numberToString (end_ l) 4 ++ NL.

Definition csvLine (numberToString : Q -> string) (l : Label) : string :=
  QUOTE ++ escapeQuotes (text l) ++ QUOTE ++ csvTimes numberToString l.

End CsvSpec.
Import CsvSpec.

(* ----------------------------------------------------------------- *)
(** ** The frequency of a height of the picture *)

Module AxisSpec.

Local Open Scope R_scope.

(** The frequency shown at the height [normY] of the picture (0 at the
    bottom, 1 at the top), over the reals. *)
Definition freqOf (frequencyScale : FrequencyScale) (minFreq maxFreq normY : R)
  : R :=
  match frequencyScale with
  | linear => minFreq + normY * (maxFreq - minFreq)
  | log => Rmax minFreq 1 * Rpower (maxFreq / Rmax minFreq 1) normY
  | mel =>
      700 * (Rpower 10
               ((melOf minFreq + normY * (melOf maxFreq - melOf minFreq)) / 2595)
             - 1)
  end.

End AxisSpec.
Import AxisSpec.

(* ----------------------------------------------------------------- *)
(** ** Sample inputs *)

Module Samples.

Local Open Scope string_scope.

Definition lbl (s e : Q) : Label := mkLabel "" "0" s e "" None None.

Definition threeLabels : list Label := [lbl 0 5; lbl 3 8; lbl 6 10].

(** A label that ends at 0.7 and one that starts at 0.7999999999999999,
    the double next below 0.8. *)
Definition closeLabels : list Label :=
  [ lbl 0 (round64 (7 # 10));
    lbl (round64 (7999999999999999 # 10000000000000000)) 1 ].

Definition callLabel : Label := mkLabel "a1" "1" 1 (5 # 2) "call" None None.


(** A press, a move and a release on an empty spot of a 10 s recording
    shown at 100 pixels per second, with category "1" active. *)
Definition birdConfig : LabelConfig :=
  mkLabelConfig "1" "bird" (HOTKEY_COLORS !! 1%nat).

Definition customConfig : LabelConfig :=
  mkLabelConfig "0" "Custom Label" (HOTKEY_COLORS !! 0%nat).

Definition tenSeconds : Spectrogram.Props :=
  Spectrogram.mkProps 10 100 (Some 0%Q) birdConfig.

Definition idle : Spectrogram.State :=
  Spectrogram.mkState [] None 0 None None None None.

Definition creating (s c : Q) : Spectrogram.State :=
  Spectrogram.mkState [] None 0 None (Some (s, c)) None None.

(** Two labels of category "1" and one custom label. *)
Definition twoBirds : App.State :=
  App.mkState
    [ mkLabel "a1" "1" 1 2 "bird" (Some "#ef4444") None;
      mkLabel "a2" "0" 3 4 "noise" (Some "#ffffff") None;
      mkLabel "a3" "1" 5 6 "bird" (Some "#ef4444") None ]
    [ customConfig; birdConfig ]
    1.


(** Five samples for a transform of size 4: one column. *)
Definition toneBuffer : AudioProcessing.AudioBuffer :=
  AudioProcessing.mkAudioBuffer
    [0; 499999 / 750000; 0; 0; 0]%R 44100%R.




(** Ten samples, fewer than a transform of size 16 needs. *)
Definition shortBuffer : AudioProcessing.AudioBuffer :=
  AudioProcessing.mkAudioBuffer (repeat 0%R 10) 44100%R.

End Samples.
Import Samples.

(* ================================================================= *)
(** * Part II: properties *)
(* ================================================================= *)

(* ----------------------------------------------------------------- *)
(** ** Rounding to the nearest double *)

Section Rounding.

Local Open Scope Q_scope.

Lemma pow2_pos e : 0 < 2 ^ e.
Proof. apply Qpower_0_lt. reflexivity. Qed.

Lemma pow2_le e e' : (e <= e')%Z -> 2 ^ e <= 2 ^ e'.
Proof. intros H. apply Qpower_le_compat_l; [exact H|discriminate]. Qed.

Lemma pow2_lt e e' : (e < e')%Z -> 2 ^ e < 2 ^ e'.
Proof. intros H. apply Qpower_lt_compat_l; [exact H|reflexivity]. Qed.

Lemma pow2_lt_inv e e' : 2 ^ e < 2 ^ e' -> (e < e')%Z.
Proof. intros H. apply (Qpower_lt_compat_l_inv 2); [exact H|reflexivity]. Qed.

Lemma pow2_plus e e' : 2 ^ (e + e') == 2 ^ e * 2 ^ e'.
Proof. apply Qpower_plus. discriminate. Qed.

Lemma pow2_Z n : (0 <= n)%Z -> inject_Z (2 ^ n) == 2 ^ n.
Proof. intros H. apply (Zpower_Qpower 2 n H). Qed.

Lemma binade_spec x : 0 < x -> 2 ^ binade x <= x /\ x < 2 ^ (binade x + 1).
Proof.
  intros Hx. destruct x as [n d]. unfold binade. cbn [Qnum Qden].
  assert (Hn : (0 < n)%Z).
  { unfold Qlt in Hx. cbn in Hx. lia. }
  set (a := Z.log2 n). set (b := Z.log2 (Z.pos d)).
  destruct (Z.log2_spec n Hn) as [Ha1 Ha2]. fold a in Ha1, Ha2.
  destruct (Z.log2_spec (Z.pos d) (Pos2Z.is_pos d)) as [Hb1 Hb2].
  fold b in Hb1, Hb2.
  assert (Ha0 : (0 <= a)%Z) by apply Z.log2_nonneg.
  assert (Hb0 : (0 <= b)%Z) by apply Z.log2_nonneg.
  assert (Hx' : (n # d) * inject_Z (Z.pos d) == inject_Z n).
  { unfold Qeq, Qmult, inject_Z. cbn. lia. }
  assert (Hd : 0 < inject_Z (Z.pos d)).
  { unfold Qlt, inject_Z. cbn. lia. }
  assert (Qa1 : 2 ^ a <= inject_Z n).
  { rewrite <- pow2_Z by lia. rewrite <- Zle_Qle. exact Ha1. }
  assert (Qa2 : inject_Z n < 2 ^ (a + 1)).
  { rewrite <- pow2_Z by lia. rewrite <- Zlt_Qlt.
    replace (a + 1)%Z with (Z.succ a) by lia. exact Ha2. }
  assert (Qb1 : 2 ^ b <= inject_Z (Z.pos d)).
  { rewrite <- pow2_Z by lia. rewrite <- Zle_Qle. exact Hb1. }
  assert (Qb2 : inject_Z (Z.pos d) < 2 ^ (b + 1)).
  { rewrite <- pow2_Z by lia. rewrite <- Zlt_Qlt.
    replace (b + 1)%Z with (Z.succ b) by lia. exact Hb2. }
  set (x := n # d) in *. set (D := inject_Z (Z.pos d)) in *.
  set (N := inject_Z n) in *.
  assert (Hup : x < 2 ^ (a - b + 1)).
  { assert (E : 2 ^ (a + 1) == 2 ^ (a - b + 1) * 2 ^ b).
    { rewrite <- pow2_plus. replace (a - b + 1 + b)%Z with (a + 1)%Z by lia.
      reflexivity. }
    pose proof (pow2_pos (a - b + 1)) as P1. pose proof (pow2_pos b) as P2.
    set (u := 2 ^ (a - b + 1)) in *. set (v := 2 ^ b) in *.
    set (w := 2 ^ (a + 1)) in *. clearbody u v w x D N.
    destruct (Qlt_le_dec x u) as [|Hge]; [assumption|exfalso].
    assert (u * v <= x * D) by nra. lra. }
  assert (Hlo : 2 ^ (a - b - 1) <= x).
  { assert (E : 2 ^ a == 2 ^ (a - b - 1) * 2 ^ (b + 1)).
    { rewrite <- pow2_plus. replace (a - b - 1 + (b + 1))%Z with a by lia.
      reflexivity. }
    pose proof (pow2_pos (a - b - 1)) as P1.
    pose proof (pow2_pos (b + 1)) as P2.
    set (u := 2 ^ (a - b - 1)) in *. set (v := 2 ^ (b + 1)) in *.
    set (w := 2 ^ a) in *. clearbody u v w x D N.
    destruct (Qlt_le_dec x u) as [Hlt|]; [exfalso|assumption].
    assert (x * D < u * v) by nra. lra. }
  destruct (Qle_bool (2 ^ (a - b)) x) eqn:Hb.
  - apply Qle_bool_iff in Hb. split; assumption.
  - split; [exact Hlo|].
    replace (a - b - 1 + 1)%Z with (a - b)%Z by lia.
    apply Qnot_le_lt. intros H. apply Qle_bool_iff in H. congruence.
Qed.

Lemma binade_unique x e :
  0 < x -> 2 ^ e <= x -> x < 2 ^ (e + 1) -> binade x = e.
Proof.
  intros Hx H1 H2. destruct (binade_spec x Hx) as [B1 B2].
  assert (2 ^ binade x < 2 ^ (e + 1)) by lra.
  assert (2 ^ e < 2 ^ (binade x + 1)) by lra.
  apply pow2_lt_inv in H, H0. lia.
Qed.

Lemma binade_le x y : 0 < x -> x <= y -> (binade x <= binade y)%Z.
Proof.
  intros Hx Hxy. destruct (binade_spec x Hx) as [B1 _].
  destruct (binade_spec y ltac:(lra)) as [_ B2].
  assert (2 ^ binade x < 2 ^ (binade y + 1)) by lra.
  apply pow2_lt_inv in H. lia.
Qed.

#[global] Instance rne_comp : Proper (Qeq ==> eq) rne.
Proof.
  intros q q' H. unfold rne. rewrite (Qfloor_comp _ _ H).
  assert (E : q - inject_Z (Qfloor q') == q' - inject_Z (Qfloor q')).
  { rewrite H. reflexivity. }
  rewrite (Qcompare_comp _ _ E _ _ (Qeq_refl (1 # 2))). reflexivity.
Qed.

Lemma rne_bounds q :
  inject_Z (rne q) - (1 # 2) <= q /\ q <= inject_Z (rne q) + (1 # 2).
Proof.
  unfold rne. pose proof (Qfloor_le q) as H1. pose proof (Qlt_floor q) as H2.
  rewrite inject_Z_plus in H2. set (f := Qfloor q) in *.
  destruct (Qcompare_spec (q - inject_Z f) (1 # 2)) as [E|L|G].
  - destruct (Z.even f); [|rewrite inject_Z_plus]; change (inject_Z 1) with 1 in *; lra.
  - lra.
  - rewrite inject_Z_plus. change (inject_Z 1) with 1 in *. lra.
Qed.

Lemma rne_floor q : (Qfloor q <= rne q <= Qfloor q + 1)%Z.
Proof.
  unfold rne. destruct (Qcompare _ _); [destruct (Z.even _)| |]; lia.
Qed.

Lemma rne_le q q' : q <= q' -> (rne q <= rne q')%Z.
Proof.
  intros H. pose proof (Qfloor_resp_le _ _ H) as Hf.
  destruct (Z.eq_dec (Qfloor q) (Qfloor q')) as [E|NE].
  - unfold rne. rewrite <- E. set (f := Qfloor q) in *.
    destruct (Qcompare_spec (q - inject_Z f) (1 # 2)) as [E1|L1|G1];
      destruct (Qcompare_spec (q' - inject_Z f) (1 # 2)) as [E2|L2|G2];
      try destruct (Z.even f); try lia; exfalso; lra.
  - pose proof (rne_floor q). pose proof (rne_floor q'). lia.
Qed.

Lemma rne_Z n : rne (inject_Z n) = n.
Proof.
  unfold rne. rewrite Qfloor_Z.
  destruct (Qcompare_spec (inject_Z n - inject_Z n) (1 # 2)) as [E|L|G];
    [exfalso; lra|reflexivity|exfalso; lra].
Qed.

Lemma rne_near q n :
  inject_Z n <= q -> q < inject_Z n + (1 # 2) -> rne q = n.
Proof.
  intros H1 H2. unfold rne.
  assert (Hf : Qfloor q = n).
  { pose proof (Qfloor_le q) as F1. pose proof (Qlt_floor q) as F2.
    assert (inject_Z n < inject_Z (Qfloor q + 1)) by lra.
    assert (inject_Z (Qfloor q) < inject_Z (n + 1)).
    { rewrite inject_Z_plus. change (inject_Z 1) with 1. lra. }
    rewrite <- Zlt_Qlt in H, H0. lia. }
  rewrite Hf.
  destruct (Qcompare_spec (q - inject_Z n) (1 # 2)) as [E|L|G];
    [exfalso; lra|reflexivity|exfalso; lra].
Qed.

Lemma ulp_expo x : ulp x = 2 ^ (expo x - 52).
Proof. reflexivity. Qed.

Lemma ulp_pos x : 0 < ulp x.
Proof. apply pow2_pos. Qed.

Lemma pow2_split e : 2 ^ e == inject_Z (2 ^ 52) * 2 ^ (e - 52).
Proof.
  rewrite pow2_Z by lia. rewrite <- pow2_plus.
  replace (52 + (e - 52))%Z with e by lia. reflexivity.
Qed.

Lemma pow2_split' e : 2 ^ (e + 1) == inject_Z (2 ^ 53) * 2 ^ (e - 52).
Proof.
  rewrite pow2_Z by lia. rewrite <- pow2_plus.
  replace (53 + (e - 52))%Z with (e + 1)%Z by lia. reflexivity.
Qed.

(** The scaled value of a positive number lies below [2^53], and at or
    above [2^52] unless the exponent is the least one. *)
Lemma scaled_range x :
  0 < x ->
  x / ulp x < inject_Z (2 ^ 53) /\
  (expo x = binade x -> inject_Z (2 ^ 52) <= x / ulp x) /\
  (expo x <> binade x -> expo x = (-1022)%Z /\ x / ulp x < inject_Z (2 ^ 52)).
Proof.
  intros Hx. destruct (binade_spec x Hx) as [B1 B2].
  pose proof (ulp_pos x) as Hu. rewrite ulp_expo in *.
  assert (Hle : (binade x <= expo x)%Z) by (unfold expo; lia).
  pose proof (pow2_le _ _ (proj1 (Z.add_le_mono_r _ _ 1) Hle)) as Hp.
  rewrite (pow2_split' (expo x)) in Hp.
  set (u := 2 ^ (expo x - 52)) in *.
  split; [|split].
  - apply Qlt_shift_div_r; [exact Hu|]. lra.
  - intros E. apply Qle_shift_div_l; [exact Hu|].
    subst u. rewrite <- pow2_split, E. exact B1.
  - intros NE. assert (E : expo x = (-1022)%Z) by (unfold expo in *; lia).
    split; [exact E|]. apply Qlt_shift_div_r; [exact Hu|].
    subst u. rewrite <- pow2_split.
    assert (2 ^ (binade x + 1) <= 2 ^ expo x) by (apply pow2_le; lia). lra.
Qed.

Lemma roundPos_le x y : 0 < x -> x <= y -> roundPos x <= roundPos y.
Proof.
  intros Hx Hxy. assert (Hy : 0 < y) by lra.
  pose proof (binade_le x y Hx Hxy) as Hb.
  assert (He : (expo x <= expo y)%Z) by (unfold expo; lia).
  unfold roundPos.
  destruct (Z.eq_dec (expo x) (expo y)) as [E|NE].
  - rewrite !ulp_expo, E. pose proof (pow2_pos (expo y - 52)) as Hu.
    set (u := 2 ^ (expo y - 52)) in *.
    assert (x / u <= y / u).
    { apply Qle_shift_div_l; [exact Hu|].
      unfold Qdiv. rewrite <- Qmult_assoc, (Qmult_comm (/ u)), Qmult_inv_r by lra.
      lra. }
    apply rne_le in H. rewrite Zle_Qle in H.
    apply Qmult_le_compat_r; [exact H|lra].
  - destruct (scaled_range x Hx) as (X1 & _ & _).
    destruct (scaled_range y Hy) as (_ & Y2 & _).
    assert (Ey : expo y = binade y) by (unfold expo in *; lia).
    specialize (Y2 Ey).
    apply Qlt_le_weak, rne_le in X1. rewrite rne_Z in X1.
    apply rne_le in Y2. rewrite rne_Z in Y2.
    rewrite Zle_Qle in X1, Y2.
    pose proof (ulp_pos x) as Hux. pose proof (ulp_pos y) as Huy.
    apply Qle_trans with (inject_Z (2 ^ 53) * ulp x).
    { apply Qmult_le_compat_r; [exact X1|lra]. }
    apply Qle_trans with (inject_Z (2 ^ 52) * ulp y).
    2:{ apply Qmult_le_compat_r; [exact Y2|lra]. }
    rewrite !ulp_expo, <- pow2_split', <- pow2_split.
    apply pow2_le. lia.
Qed.

Lemma roundPos_nonneg x : 0 < x -> 0 <= roundPos x.
Proof.
  intros Hx. unfold roundPos. pose proof (ulp_pos x).
  assert (inject_Z 0 <= x / ulp x).
  { apply Qle_shift_div_l; [assumption|]. change (inject_Z 0) with 0. lra. }
  apply rne_le in H0. rewrite rne_Z in H0. rewrite Zle_Qle in H0.
  apply Qmult_le_0_compat; [exact H0|lra].
Qed.

Lemma Qnum_sign x :
  match Qnum x with
  | Z0 => x == 0
  | Zpos _ => 0 < x
  | Zneg _ => x < 0
  end.
Proof.
  destruct x as [[|p|p] d]; unfold Qeq, Qlt; cbn; lia.
Qed.

Lemma round64_pos x : 0 < x -> round64 x == roundPos x.
Proof.
  intros Hx. unfold round64. rewrite Qred_correct.
  pose proof (Qnum_sign x). destruct (Qnum x); [lra|reflexivity|lra].
Qed.

Lemma round64_neg x : x < 0 -> round64 x == - roundPos (- x).
Proof.
  intros Hx. unfold round64. rewrite Qred_correct.
  pose proof (Qnum_sign x). destruct (Qnum x); [lra|lra|reflexivity].
Qed.

Lemma round64_zero x : x == 0 -> round64 x == 0.
Proof.
  intros Hx. unfold round64. rewrite Qred_correct.
  pose proof (Qnum_sign x). destruct (Qnum x); [reflexivity|lra|lra].
Qed.

Lemma round64_le x y : x <= y -> round64 x <= round64 y.
Proof.
  intros H.
  assert (Nx : x < 0 -> 0 <= roundPos (- x)).
  { intros. apply roundPos_nonneg. lra. }
  assert (Py : 0 < y -> 0 <= roundPos y) by apply roundPos_nonneg.
  destruct (Q_dec x 0) as [[Hx|Hx]|Hx]; destruct (Q_dec y 0) as [[Hy|Hy]|Hy];
    rewrite ?(round64_pos x), ?(round64_neg x), ?(round64_zero x),
      ?(round64_pos y), ?(round64_neg y), ?(round64_zero y) by assumption;
    try (exfalso; lra);
    try specialize (Nx Hx); try specialize (Py Hy); try lra.
  - assert (roundPos (- y) <= roundPos (- x)) by (apply roundPos_le; lra). lra.
  - apply roundPos_le; lra.
Qed.

#[global] Instance round64_comp : Proper (Qeq ==> Qeq) round64.
Proof.
  intros x y H. apply Qle_antisym; apply round64_le; lra.
Qed.

Lemma roundPos_eq x y : 0 < x -> x == y -> roundPos x == roundPos y.
Proof.
  intros Hx E. apply Qle_antisym; apply roundPos_le; lra.
Qed.

Lemma div_ulp z n u : 0 < u -> z == inject_Z n * u -> z / u == inject_Z n.
Proof. intros Hu E. rewrite E. field. lra. Qed.

Lemma roundPos_grid n e z :
  (0 < n <= 2 ^ 53)%Z -> (-1022 <= e)%Z ->
  (2 ^ 52 <= n)%Z \/ e = (-1022)%Z ->
  z == inject_Z n * 2 ^ (e - 52) -> roundPos z == z.
Proof.
  intros [Hn0 Hn] He Hne Hz.
  pose proof (pow2_pos (e - 52)) as Hu.
  assert (Q0 : 0 < inject_Z n).
  { change 0 with (inject_Z 0). rewrite <- Zlt_Qlt. lia. }
  assert (Hz0 : 0 < z).
  { rewrite Hz. apply Qmult_lt_0_compat; assumption. }
  destruct (Z.eq_dec n (2 ^ 53)%Z) as [E53|N53].
  - assert (Ez : z == 2 ^ (e + 1)).
    { rewrite Hz, E53. symmetry. apply pow2_split'. }
    assert (Hb : binade z = (e + 1)%Z).
    { apply binade_unique; [exact Hz0|rewrite Ez; lra|].
      rewrite Ez. apply pow2_lt. lia. }
    unfold roundPos. rewrite ulp_expo. unfold expo. rewrite Hb.
    replace (Z.max (e + 1) (-1022)) with (e + 1)%Z by lia.
    pose proof (pow2_pos (e + 1 - 52)) as Hu'.
    assert (Ed : z / 2 ^ (e + 1 - 52) == inject_Z (2 ^ 52)).
    { apply div_ulp; [exact Hu'|]. rewrite Ez. apply pow2_split. }
    rewrite Ed, rne_Z, Ez. symmetry. apply pow2_split.
  - assert (He' : expo z = e).
    { unfold expo.
      destruct (Z_le_gt_dec (2 ^ 52)%Z n) as [H52|H52].
      + assert (Hb : binade z = e).
        { apply binade_unique; [exact Hz0| |].
          - rewrite Hz, (pow2_split e).
            apply Qmult_le_compat_r; [|lra]. rewrite <- Zle_Qle. exact H52.
          - rewrite Hz, (pow2_split' e).
            apply Qmult_lt_compat_r; [exact Hu|]. rewrite <- Zlt_Qlt. lia. }
        lia.
      + destruct Hne as [?|Hne]; [lia|]. subst e.
        destruct (binade_spec z Hz0) as [B1 _].
        assert (z < 2 ^ (-1022)).
        { rewrite Hz, (pow2_split (-1022)).
          apply Qmult_lt_compat_r; [exact Hu|]. rewrite <- Zlt_Qlt. lia. }
        assert (2 ^ binade z < 2 ^ (-1022)) by lra.
        apply pow2_lt_inv in H0. lia. }
    unfold roundPos. rewrite ulp_expo, He'.
    rewrite (div_ulp z n _ Hu Hz), rne_Z. symmetry. exact Hz.
Qed.

Lemma roundPos_form x :
  0 < x ->
  (0 <= rne (x / ulp x) <= 2 ^ 53)%Z /\
  (-1022 <= expo x)%Z /\
  ((2 ^ 52 <= rne (x / ulp x))%Z \/ expo x = (-1022)%Z).
Proof.
  intros Hx. destruct (scaled_range x Hx) as (S1 & S2 & S3).
  pose proof (ulp_pos x) as Hu.
  assert (S0 : inject_Z 0 <= x / ulp x).
  { apply Qle_shift_div_l; [exact Hu|]. change (inject_Z 0) with 0. lra. }
  apply rne_le in S0. rewrite rne_Z in S0.
  apply Qlt_le_weak, rne_le in S1. rewrite rne_Z in S1.
  split; [lia|]. split; [unfold expo; lia|].
  destruct (Z.eq_dec (expo x) (binade x)) as [E|NE].
  - left. specialize (S2 E). apply rne_le in S2. rewrite rne_Z in S2. exact S2.
  - right. apply S3. exact NE.
Qed.

Lemma roundPos_idem x : 0 < x -> round64 (roundPos x) == roundPos x.
Proof.
  intros Hx. destruct (roundPos_form x Hx) as ([N0 N1] & He & Hne).
  destruct (Z.eq_dec (rne (x / ulp x)) 0%Z) as [E0|NZ].
  - assert (roundPos x == 0).
    { unfold roundPos. rewrite E0. change (inject_Z 0) with 0. ring. }
    rewrite H. apply round64_zero. reflexivity.
  - assert (Hg : roundPos (roundPos x) == roundPos x).
    { apply (roundPos_grid (rne (x / ulp x)) (expo x)); [lia|exact He|exact Hne|].
      reflexivity. }
    assert (0 < roundPos x).
    { unfold roundPos. apply Qmult_lt_0_compat; [|apply ulp_pos].
      change 0 with (inject_Z 0). rewrite <- Zlt_Qlt. lia. }
    rewrite round64_pos by assumption. exact Hg.
Qed.

Lemma round64_opp x : round64 (- x) == - round64 x.
Proof.
  destruct (Q_dec x 0) as [[Hx|Hx]|Hx].
  - rewrite (round64_neg x Hx), round64_pos by lra. ring.
  - rewrite (round64_pos x Hx), round64_neg by lra.
    rewrite (roundPos_eq (- - x) x); [reflexivity|lra|ring].
  - rewrite (round64_zero x Hx), round64_zero; [reflexivity|lra].
Qed.

Lemma round64_idem x : isDouble (round64 x).
Proof.
  unfold isDouble.
  destruct (Q_dec x 0) as [[Hx|Hx]|Hx].
  - rewrite (round64_neg x Hx), round64_opp, roundPos_idem by lra. reflexivity.
  - rewrite (round64_pos x Hx). apply roundPos_idem. exact Hx.
  - rewrite (round64_zero x Hx). apply round64_zero. reflexivity.
Qed.

Lemma round64_nonneg x : 0 <= x -> 0 <= round64 x.
Proof.
  intros H. rewrite <- (round64_zero 0) by reflexivity. apply round64_le, H.
Qed.

Lemma round64_nonpos x : x <= 0 -> round64 x <= 0.
Proof.
  intros H. rewrite <- (round64_zero 0) by reflexivity. apply round64_le, H.
Qed.

(** A result is positive only if the exact value is. *)
Lemma round64_pos_inv x : 0 < round64 x -> 0 < x.
Proof.
  intros H. apply Qnot_le_lt. intros Hx. apply round64_nonpos in Hx. lra.
Qed.

Lemma roundPos_error x :
  0 < x -> Qabs (roundPos x - x) <= ulp x * (1 # 2).
Proof.
  intros Hx. pose proof (ulp_pos x) as Hu. unfold roundPos.
  destruct (rne_bounds (x / ulp x)) as [B1 B2].
  assert (E : x == (x / ulp x) * ulp x) by (field; lra).
  set (q := x / ulp x) in *. set (n := inject_Z (rne q)) in *.
  set (u := ulp x) in *. clearbody q n u.
  apply Qabs_case; intros _; rewrite E; nra.
Qed.

(** A number less than half a unit in the last place above a double
    rounds to that double. *)
Lemma roundPos_down s x :
  0 < s -> roundPos s == s -> s <= x -> x < s + ulp s * (1 # 2) ->
  roundPos x == s.
Proof.
  intros Hs Hd Hsx Hx.
  pose proof (ulp_pos s) as Hu.
  destruct (scaled_range s Hs) as (S1 & S2 & S3).
  set (n := rne (s / ulp s)) in *.
  assert (Es : s == inject_Z n * ulp s) by (symmetry; exact Hd).
  pose proof (div_ulp s n (ulp s) Hu Es) as Ed.
  rewrite Ed in S1. rewrite <- Zlt_Qlt in S1.
  assert (Hx0 : 0 < x) by lra.
  assert (Hxu : x < (inject_Z n + (1 # 2)) * ulp s) by lra.
  assert (He : expo x = expo s).
  { destruct (Z.eq_dec (expo s) (binade s)) as [E|NE].
    - assert (Hb : binade x = binade s).
      { destruct (binade_spec s Hs) as [B1 _].
        apply binade_unique; [exact Hx0|lra|].
        rewrite <- E, (pow2_split' (expo s)), <- ulp_expo.
        apply Qlt_le_trans with ((inject_Z n + (1 # 2)) * ulp s); [exact Hxu|].
        apply Qmult_le_compat_r; [|lra].
        assert (inject_Z (n + 1) <= inject_Z (2 ^ 53)).
        { rewrite <- Zle_Qle. lia. }
        rewrite inject_Z_plus in H. change (inject_Z 1) with 1 in H. lra. }
      unfold expo in *. lia.
    - destruct (S3 NE) as [E S4]. rewrite Ed in S4. rewrite <- Zlt_Qlt in S4.
      assert (x < 2 ^ (-1022)).
      { rewrite (pow2_split (-1022)), <- E, <- ulp_expo.
        apply Qlt_le_trans with ((inject_Z n + (1 # 2)) * ulp s); [exact Hxu|].
        apply Qmult_le_compat_r; [|lra].
        assert (inject_Z (n + 1) <= inject_Z (2 ^ 52)).
        { rewrite <- Zle_Qle. lia. }
        rewrite inject_Z_plus in H. change (inject_Z 1) with 1 in H. lra. }
      destruct (binade_spec x Hx0) as [B1 _].
      assert (2 ^ binade x < 2 ^ (-1022)) by lra.
      apply pow2_lt_inv in H0. unfold expo in *. lia. }
  assert (Eu : ulp x = ulp s) by (rewrite !ulp_expo, He; reflexivity).
  unfold roundPos. rewrite Eu.
  assert (Hn : rne (x / ulp s) = n).
  { apply rne_near.
    - apply Qle_shift_div_l; [exact Hu|]. lra.
    - apply Qlt_shift_div_r; [exact Hu|]. lra. }
  rewrite Hn. symmetry. exact Es.
Qed.

Lemma binade_pow2 k : binade (2 ^ k) = k.
Proof.
  apply binade_unique; [apply pow2_pos|apply Qle_refl|apply pow2_lt; lia].
Qed.

Lemma ulp_le_pow2 x k :
  0 < x -> x <= 2 ^ k -> (-1022 <= k)%Z -> ulp x <= 2 ^ (k - 52).
Proof.
  intros Hx Hk Hmin. rewrite ulp_expo. apply pow2_le.
  pose proof (binade_le x (2 ^ k) Hx Hk) as Hb. rewrite binade_pow2 in Hb.
  unfold expo. lia.
Qed.

End Rounding.
(* ----------------------------------------------------------------- *)
(** ** Layering *)

Section Layering.

Local Open Scope Q_scope.

Lemma insertByStart_perm x l : Permutation (x :: l) (insertByStart x l).
Proof.
  induction l as [|y ys IH]; simpl; [reflexivity|].
  destruct (Qle_bool (start x) (start y)); [reflexivity|].
  rewrite perm_swap. now apply perm_skip.
Qed.

Lemma sortByStart_perm labels : Permutation labels (sortByStart labels).
Proof.
  induction labels as [|x l IH]; simpl; [reflexivity|].
  etransitivity; [|apply insertByStart_perm]. now apply perm_skip.
Qed.

Lemma insertByStart_sorted x l :
  StronglySorted startsLe l -> StronglySorted startsLe (insertByStart x l).
Proof.
  induction 1 as [|y ys Hs IH Hall]; simpl.
  - repeat constructor.
  - destruct (Qle_bool (start x) (start y)) eqn:E.
    + apply Qle_bool_iff in E.
      constructor; [now constructor|].
      constructor; [exact E|].
      eapply List.Forall_impl; [|exact Hall].
      intros z Hz. unfold startsLe in *. lra.
    + assert (start y < start x) as Hlt.
      { apply Qnot_le_lt. intros H. apply Qle_bool_iff in H. congruence. }
      constructor; [exact IH|].
      rewrite <- (insertByStart_perm x ys).
      constructor; [unfold startsLe; lra | exact Hall].
Qed.

Lemma sortByStart_sorted labels : StronglySorted startsLe (sortByStart labels).
Proof.
  induction labels as [|x l IH]; simpl; [constructor|].
  now apply insertByStart_sorted.
Qed.

(** *** The constant 0.1 and the rounded gap *)

Lemma lit_0_1_value : lit_0_1 = 3602879701896397 # 36028797018963968.
Proof. vm_compute. reflexivity. Qed.

Lemma roundedGap_le e e' : e <= e' -> roundedGap e <= roundedGap e'.
Proof.
  intros H. unfold roundedGap, fadd. apply round64_le. lra.
Qed.

(** A lane that ends at a double [e] admits no start before [e]. *)
Lemma roundedGap_ge e : isDouble e -> e <= roundedGap e.
Proof.
  intros H. unfold isDouble in H. unfold roundedGap, fadd.
  apply Qle_trans with (round64 e); [rewrite H; apply Qle_refl|].
  apply round64_le. rewrite lit_0_1_value. lra.
Qed.

(** The rounded gap is 0.1 or more, less at most half a unit in the last
    place of the sum. *)
Lemma roundedGap_near e :
  0 <= e ->
  e + (1 # 10) - ulp (e + lit_0_1) * (1 # 2) <= roundedGap e.
Proof.
  intros He. unfold roundedGap, fadd.
  assert (Hpos : 0 < e + lit_0_1) by (rewrite lit_0_1_value; lra).
  rewrite (round64_pos _ Hpos).
  pose proof (roundPos_error _ Hpos) as Herr.
  assert (Hc : (1 # 10) <= lit_0_1) by (rewrite lit_0_1_value; lra).
  pose proof (ulp_pos (e + lit_0_1)) as Hu.
  revert Herr. apply Qabs_case; intros Hs Herr; lra.
Qed.

(** *** The lane-end array against the labels placed *)

Lemma laneEnd_snoc placed l i :
  laneEnd (placed ++ [l]) i =
  if inLane i l then Some (end_ l) else laneEnd placed i.
Proof.
  unfold laneEnd. rewrite List.filter_app. simpl.
  destruct (inLane i l); simpl.
  - now rewrite last_snoc.
  - now rewrite app_nil_r.
Qed.

Lemma laneCount_snoc placed l k :
  layerIndex l = Some k ->
  laneCount (placed ++ [l]) = Nat.max (laneCount placed) (S k).
Proof.
  intros Hk. unfold laneCount. rewrite map_app, list_max_app. simpl.
  rewrite Hk. lia.
Qed.

Lemma inLane_setLayerIndex i k l :
  inLane i (setLayerIndex k l) = (k =? i)%nat.
Proof. reflexivity. Qed.

Lemma firstFit_range layers k s i :
  firstFit layers k s = Some i -> (k <= i < k + length layers)%nat.
Proof.
  revert k. induction layers as [|e rest IH]; intros k; simpl; [discriminate|].
  destruct (Qle_bool (fadd e lit_0_1) s).
  - intros [= <-]. lia.
  - intros H. apply IH in H. lia.
Qed.

Lemma firstFit_find (f : nat -> bool) layers k s :
  (forall i, (i < length layers)%nat ->
             f (k + i)%nat =
             match layers !! i with
             | Some e => Qle_bool (fadd e lit_0_1) s
             | None => false
             end) ->
  match firstFit layers k s with
  | Some i => i
  | None => (k + length layers)%nat
  end =
  match List.find f (seq k (length layers)) with
  | Some i => i
  | None => (k + length layers)%nat
  end.
Proof.
  revert k. induction layers as [|e rest IH]; intros k Hf; simpl; [reflexivity|].
  pose proof (Hf 0%nat ltac:(simpl; lia)) as H0. simpl in H0.
  rewrite Nat.add_0_r in H0. rewrite H0.
  destruct (Qle_bool (fadd e lit_0_1) s); [reflexivity|].
  rewrite <- Nat.add_succ_comm. apply IH.
  intros i Hi. rewrite Nat.add_succ_comm. apply (Hf (S i)). simpl. lia.
Qed.

Lemma tracks_laneFor layers placed s :
  tracks layers placed ->
  laneFor roundedGap placed s =
  match firstFit layers 0 s with Some i => i | None => length layers end.
Proof.
  intros [He Hc]. unfold laneFor. rewrite Hc.
  symmetry. apply (firstFit_find (fits roundedGap placed s) layers 0%nat s).
  intros i _. simpl. unfold fits, roundedGap. now rewrite He.
Qed.

Lemma tracks_nil : tracks [] [].
Proof. split; [intros i; reflexivity | reflexivity]. Qed.

Lemma placeLabel_tracks layers placed l :
  tracks layers placed ->
  let st := placeLabel (layers, placed) l in
  tracks (fst st) (snd st) /\
  snd st = placed ++ [setLayerIndex (laneFor roundedGap placed (start l)) l].
Proof.
  intros Ht. pose proof (tracks_laneFor layers placed (start l) Ht) as Hl.
  destruct Ht as [He Hc]. cbn zeta. unfold placeLabel.
  destruct (firstFit layers 0 (start l)) as [i|] eqn:Hf; simpl.
  - apply firstFit_range in Hf. rewrite Hl. split; [|reflexivity].
    split.
    + intros j. rewrite laneEnd_snoc, inLane_setLayerIndex.
      destruct (Nat.eqb_spec i j) as [->|Hne].
      * now rewrite list_lookup_insert_eq by lia.
      * rewrite list_lookup_insert_ne by exact Hne. apply He.
    + rewrite (laneCount_snoc _ _ i) by reflexivity.
      rewrite length_insert. lia.
  - rewrite Hl. split; [|reflexivity].
    split.
    + intros j. rewrite laneEnd_snoc, inLane_setLayerIndex.
      destruct (Nat.eqb_spec (length layers) j) as [<-|Hne].
      * now rewrite lookup_app_r, Nat.sub_diag by lia.
      * rewrite He. destruct (Nat.lt_ge_cases j (length layers)).
        -- now rewrite lookup_app_l by lia.
        -- rewrite lookup_app_r by lia.
           rewrite (lookup_ge_None_2 layers j) by lia.
           destruct (j - length layers)%nat eqn:E; [lia|reflexivity].
    + rewrite (laneCount_snoc _ _ (length layers)) by reflexivity.
      rewrite length_app. simpl. lia.
Qed.



(** *** Labels of one lane keep the gap *)

Lemma lookup_snoc_inv {A} (l : list A) (x a : A) (p : nat) :
  (l ++ [x]) !! p = Some a ->
  l !! p = Some a \/ (p = length l /\ a = x).
Proof.
  intros H. destruct (Nat.lt_ge_cases p (length l)) as [Hp|Hp].
  - left. now rewrite lookup_app_l in H by exact Hp.
  - right. rewrite lookup_app_r in H by exact Hp.
    destruct (p - length l)%nat eqn:E; simpl in H; [|discriminate].
    split; [lia | congruence].
Qed.

Lemma firstFit_fits layers k s i :
  firstFit layers k s = Some i ->
  exists e, layers !! (i - k)%nat = Some e /\ roundedGap e <= s.
Proof.
  unfold roundedGap.
  revert k. induction layers as [|e rest IH]; intros k; simpl; [discriminate|].
  destruct (Qle_bool (fadd e lit_0_1) s) eqn:E.
  - intros [= <-]. rewrite Nat.sub_diag. exists e. split; [reflexivity|].
    now apply Qle_bool_iff.
  - intros H. pose proof (firstFit_range _ _ _ _ H) as Hr.
    destruct (IH _ H) as (e' & He' & Hle). exists e'. split; [|exact Hle].
    replace (i - k)%nat with (S (i - S k)) by lia. exact He'.
Qed.

Lemma placeLabel_gapInvariant layers placed l :
  gapInvariant layers placed ->
  wellFormed l -> isDouble (end_ l) ->
  let st := placeLabel (layers, placed) l in
  gapInvariant (fst st) (snd st).
Proof.
  intros (Hend & Hgap & Hdbl) Hwf Hd. cbn zeta.
  unfold placeLabel, wellFormed in *.
  destruct (firstFit layers 0 (start l)) as [i|] eqn:Hf; simpl.
  - pose proof (firstFit_range _ _ _ _ Hf) as Hr.
    destruct (firstFit_fits _ _ _ _ Hf) as (e & He & Hle).
    rewrite Nat.sub_0_r in He.
    pose proof (roundedGap_ge e (Hdbl i e He)) as Hge.
    split; [|split].
    + intros p a Hp. apply lookup_snoc_inv in Hp as [Hp|[-> ->]].
      * destruct (Hend p a Hp) as (j & e' & Hj & He' & Hae).
        destruct (Nat.eq_dec j i) as [->|Hne].
        -- exists i, (end_ l). split; [exact Hj|]. split.
           ++ now rewrite list_lookup_insert_eq by lia.
           ++ rewrite He in He'. injection He' as <-. lra.
        -- exists j, e'. split; [exact Hj|]. split; [|exact Hae].
           now rewrite list_lookup_insert_ne by congruence.
      * exists i, (end_ l). split; [reflexivity|]. split.
        -- now rewrite list_lookup_insert_eq by lia.
        -- simpl. lra.
    + intros p q a b Hpq Ha Hb Hsame.
      apply lookup_snoc_inv in Hb as [Hb|[-> ->]].
      * assert (placed !! p = Some a) as Ha'.
        { apply lookup_lt_Some in Hb. now rewrite lookup_app_l in Ha by lia. }
        now apply (Hgap p q a b).
      * rewrite lookup_app_l in Ha by exact Hpq.
        destruct (Hend p a Ha) as (j & e' & Hj & He' & Hae).
        simpl in Hsame. rewrite Hj in Hsame. injection Hsame as ->.
        rewrite He in He'. injection He' as <-. simpl.
        pose proof (roundedGap_le _ _ Hae). lra.
    + intros j e' Hj. destruct (Nat.eq_dec i j) as [->|Hne].
      * rewrite list_lookup_insert_eq in Hj by lia. injection Hj as <-.
        exact Hd.
      * rewrite list_lookup_insert_ne in Hj by exact Hne.
        now apply (Hdbl j).
  - split; [|split].
    + intros p a Hp. apply lookup_snoc_inv in Hp as [Hp|[-> ->]].
      * destruct (Hend p a Hp) as (j & e' & Hj & He' & Hae).
        exists j, e'. split; [exact Hj|]. split; [|exact Hae].
        apply lookup_app_l_Some. exact He'.
      * exists (length layers), (end_ l). split; [reflexivity|]. split.
        -- now rewrite lookup_app_r, Nat.sub_diag by lia.
        -- simpl. lra.
    + intros p q a b Hpq Ha Hb Hsame.
      apply lookup_snoc_inv in Hb as [Hb|[-> ->]].
      * assert (placed !! p = Some a) as Ha'.
        { apply lookup_lt_Some in Hb. now rewrite lookup_app_l in Ha by lia. }
        now apply (Hgap p q a b).
      * rewrite lookup_app_l in Ha by exact Hpq.
        destruct (Hend p a Ha) as (j & e' & Hj & He' & Hae).
        simpl in Hsame. rewrite Hj in Hsame. injection Hsame as ->.
        apply lookup_lt_Some in He'. lia.
    + intros j e' Hj. apply lookup_snoc_inv in Hj as [Hj|[_ ->]].
      * now apply (Hdbl j).
      * exact Hd.
Qed.

Lemma fold_placeLabel_gapInvariant sorted : forall layers placed,
  gapInvariant layers placed ->
  Forall wellFormed sorted ->
  Forall doubleTimes sorted ->
  let st := fold_left placeLabel sorted (layers, placed) in
  gapInvariant (fst st) (snd st).
Proof.
  induction sorted as [|l rest IH]; intros layers placed Hinv Hwf Hdt;
    [exact Hinv|].
  cbn [fold_left]. cbn zeta.
  apply Forall_cons in Hwf as [Hl Hrest].
  apply Forall_cons in Hdt as [[_ Hd] Hdrest].
  pose proof (placeLabel_gapInvariant layers placed l Hinv Hl Hd) as Hinv'.
  cbn zeta in Hinv'.
  destruct (placeLabel (layers, placed) l) as [layers' placed'].
  now apply IH.
Qed.

Lemma gapInvariant_nil : gapInvariant [] [].
Proof.
  split; [|split].
  - intros p a Hp. discriminate.
  - intros p q a b _ Hp. discriminate.
  - intros i e Hi. discriminate.
Qed.

Lemma fold_placeLabel_cores sorted : forall layers placed,
  map withoutLayer (snd (fold_left placeLabel sorted (layers, placed))) =
  map withoutLayer placed ++ map withoutLayer sorted.
Proof.
  induction sorted as [|l rest IH]; intros layers placed.
  - simpl. now rewrite app_nil_r.
  - cbn [fold_left]. unfold placeLabel at 2.
    destruct (firstFit layers 0 (start l)); rewrite IH, map_app; simpl;
      now rewrite <- app_assoc.
Qed.

Lemma calculateLabelLayers_cores labels :
  Permutation (map withoutLayer (calculateLabelLayers labels))
              (map withoutLayer labels).
Proof.
  unfold calculateLabelLayers. rewrite fold_placeLabel_cores. simpl.
  apply Permutation_map. symmetry. apply sortByStart_perm.
Qed.

(** What holds of the times of every input label holds of the times of
    every label of a list with the same labels, lanes apart. *)
Lemma times_of_cores (P : Q -> Q -> Prop) labels out b :
  Forall (fun l => P (start l) (end_ l)) labels ->
  Permutation (map withoutLayer out) (map withoutLayer labels) ->
  In b out -> P (start b) (end_ b).
Proof.
  intros Hwf Hperm Hb.
  apply (in_map withoutLayer) in Hb.
  apply (Permutation_in _ Hperm) in Hb.
  apply in_map_iff in Hb as (b0 & Heq & Hb0).
  rewrite List.Forall_forall in Hwf. specialize (Hwf b0 Hb0).
  replace (start b) with (start (withoutLayer b)) by reflexivity.
  replace (end_ b) with (end_ (withoutLayer b)) by reflexivity.
  now rewrite <- Heq.
Qed.

Lemma wellFormed_of_cores labels out b :
  Forall wellFormed labels ->
  Permutation (map withoutLayer out) (map withoutLayer labels) ->
  In b out -> wellFormed b.
Proof. apply (times_of_cores (fun s e => s < e)). Qed.

Lemma doubleTimes_of_cores labels out b :
  Forall doubleTimes labels ->
  Permutation (map withoutLayer out) (map withoutLayer labels) ->
  In b out -> doubleTimes b.
Proof. apply (times_of_cores (fun s e => isDouble s /\ isDouble e)). Qed.

(** Of two labels of one lane of the result, the one placed later starts
    no earlier than the rounded sum of the other's end and 0.1. *)
Lemma calculateLabelLayers_gap labels :
  Forall wellFormed labels -> Forall doubleTimes labels ->
  let out := calculateLabelLayers labels in
  (forall p a, out !! p = Some a -> exists i, layerIndex a = Some i) /\
  (forall p q a b, (p < q)%nat ->
     out !! p = Some a -> out !! q = Some b ->
     layerIndex a = layerIndex b -> roundedGap (end_ a) <= start b).
Proof.
  intros Hwf Hdt out.
  assert (Forall wellFormed (sortByStart labels)) as Hsorted.
  { eapply Permutation_Forall; [apply sortByStart_perm | exact Hwf]. }
  assert (Forall doubleTimes (sortByStart labels)) as Hsorted'.
  { eapply Permutation_Forall; [apply sortByStart_perm | exact Hdt]. }
  pose proof (fold_placeLabel_gapInvariant (sortByStart labels) [] []
                gapInvariant_nil Hsorted Hsorted') as (Hend & Hgap & _).
  cbn zeta in Hend, Hgap.
  fold (calculateLabelLayers labels) in Hend, Hgap. fold out in Hend, Hgap.
  split.
  - intros p a Ha. destruct (Hend p a Ha) as (i & _ & Hi & _). now exists i.
  - exact Hgap.
Qed.

(** Of two distinct labels of one lane, the one that starts later starts
    no earlier than the rounded sum of the other's end and 0.1. *)
Lemma same_lane_gap labels p q a b :
  Forall wellFormed labels -> Forall doubleTimes labels ->
  p <> q ->
  calculateLabelLayers labels !! p = Some a ->
  calculateLabelLayers labels !! q = Some b ->
  layerIndex a = layerIndex b ->
  start a <= start b ->
  roundedGap (end_ a) <= start b.
Proof.
  intros Hwf Hdt Hne Ha Hb Hsame Hle.
  pose proof (calculateLabelLayers_cores labels) as Hperm.
  destruct (calculateLabelLayers_gap labels Hwf Hdt) as [_ Hgap].
  destruct (Nat.lt_total p q) as [Hlt|[Heq|Hgt]]; [|contradiction|].
  - now apply (Hgap p q a b).
  - pose proof (Hgap q p b a Hgt Hb Ha (eq_sym Hsame)) as Hba.
    assert (In b (calculateLabelLayers labels)) as Hin.
    { apply list_elem_of_In, list_elem_of_lookup. now exists q. }
    pose proof (wellFormed_of_cores labels _ b Hwf Hperm Hin) as Hwb.
    destruct (doubleTimes_of_cores labels _ b Hdt Hperm Hin) as [_ Hdb].
    pose proof (roundedGap_ge _ Hdb). unfold wellFormed in Hwb.
    exfalso. lra.
Qed.



(** C10.  When every input label starts before it ends (the times being
    doubles), the result of [calculateLabelLayers] holds the input
    labels, each with a lane, and of two distinct labels of the same lane
    the one that starts later starts no earlier than the other ends, and
    no earlier than the rounded sum of that end and 0.1; for an end at 0
    or later that sum is 0.1 above the end, less at most half a unit in
    its last place. *)
Theorem calculateLabelLayers_no_overlap labels :
  Forall wellFormed labels ->
  Forall doubleTimes labels ->
  let out := calculateLabelLayers labels in
  Permutation (map withoutLayer out) (map withoutLayer labels) /\
  (forall p a, out !! p = Some a -> exists i, layerIndex a = Some i) /\
  (forall p q a b, p <> q ->
     out !! p = Some a -> out !! q = Some b ->
     layerIndex a = layerIndex b ->
     start a <= start b ->
     end_ a <= start b /\
     fadd (end_ a) lit_0_1 <= start b /\
     (0 <= end_ a ->
      end_ a + (1 # 10) - ulp (end_ a + lit_0_1) * (1 # 2) <= start b)).
Proof.
  intros Hwf Hdt out.
  pose proof (calculateLabelLayers_cores labels) as Hperm.
  destruct (calculateLabelLayers_gap labels Hwf Hdt) as [Hlane _].
  fold out in Hlane.
  split; [exact Hperm|]. split; [exact Hlane|].
  intros p q a b Hne Ha Hb Hsame Hle.
  pose proof (same_lane_gap labels p q a b Hwf Hdt Hne Ha Hb Hsame Hle) as Hg.
  assert (In a out) as Hin.
  { apply list_elem_of_In, list_elem_of_lookup. now exists p. }
  destruct (doubleTimes_of_cores labels out a Hdt Hperm Hin) as [_ Hda].
  pose proof (roundedGap_ge _ Hda) as Hge.
  split; [lra|]. split; [exact Hg|].
  intros H0. pose proof (roundedGap_near _ H0). lra.
Qed.

Lemma calculateLabelLayers_no_overlap_witness :
  Forall wellFormed closeLabels /\ Forall doubleTimes closeLabels /\
  (forall p q a b, p <> q ->
     calculateLabelLayers closeLabels !! p = Some a ->
     calculateLabelLayers closeLabels !! q = Some b ->
     layerIndex a = layerIndex b ->
     start a <= start b ->
     end_ a <= start b /\
     fadd (end_ a) lit_0_1 <= start b /\
     (0 <= end_ a ->
      end_ a + (1 # 10) - ulp (end_ a + lit_0_1) * (1 # 2) <= start b)).
Proof.
  assert (Forall wellFormed closeLabels) as H.
  { repeat constructor. }
  assert (Forall doubleTimes closeLabels) as H'.
  { repeat constructor; vm_compute; reflexivity. }
  split; [exact H|]. split; [exact H'|].
  apply (calculateLabelLayers_no_overlap closeLabels H H').
Defined.

(** C10, as the claim reads with the sum taken exactly: the two labels
    of [closeLabels] start before they end and share lane 0, and the
    later one starts less than 0.1 after the earlier one ends. *)
Lemma same_lane_closer_than_a_tenth :
  exists a b,
    calculateLabelLayers closeLabels = [a; b] /\
    wellFormed a /\ wellFormed b /\
    layerIndex a = layerIndex b /\ start a <= start b /\
    ~ end_ a + (1 # 10) <= start b.
Proof.
  eexists. eexists. split; [vm_compute; reflexivity|].
  repeat split; vm_compute; congruence.
Qed.

End Layering.

(* ----------------------------------------------------------------- *)
(** ** The Audacity export *)

Section AudacityExport.

Local Open Scope string_scope.

Variable numberToString : Q -> string.

Lemma append_assoc (a b c : string) : (a ++ b) ++ c = a ++ (b ++ c).
Proof. induction a as [|x a IH]; simpl; [reflexivity | now rewrite IH]. Qed.

Lemma append_nil_r (a : string) : a ++ "" = a.
Proof. induction a as [|x a IH]; simpl; [reflexivity | now rewrite IH]. Qed.

Lemma length_append (a b : string) :
  String.length (a ++ b) = (String.length a + String.length b)%nat.
Proof. induction a as [|x a IH]; simpl; [reflexivity | now rewrite IH]. Qed.

Lemma length_zeros k : String.length (zeros k) = k.
Proof. induction k as [|k IH]; simpl; [reflexivity | now rewrite IH]. Qed.

Lemma substring_split (s : string) : forall a,
  (a <= String.length s)%nat ->
  substring 0 a s ++ substring a (String.length s - a) s = s.
Proof.
  induction s as [|c s IH]; intros [|a] Ha; simpl in *; try lia.
  - reflexivity.
  - f_equal. specialize (IH 0%nat ltac:(lia)). simpl in IH.
    rewrite Nat.sub_0_r in IH.
    destruct s; simpl in *; [reflexivity|]. exact IH.
  - f_equal. apply IH. lia.
Qed.

Lemma length_substring (s : string) : forall a m,
  (a + m <= String.length s)%nat -> String.length (substring a m s) = m.
Proof.
  induction s as [|c s IH]; intros [|a] [|m] H; simpl in *; try lia;
    try reflexivity.
  - f_equal. apply (IH 0%nat m). lia.
  - apply (IH a 0%nat). lia.
  - apply (IH a (S m)). lia.
Qed.

Lemma allDigits_append a b :
  allDigits (a ++ b) = allDigits a && allDigits b.
Proof.
  induction a as [|c a IH]; simpl; [reflexivity|].
  rewrite IH. now rewrite andb_assoc.
Qed.

Lemma allDigits_zeros k : allDigits (zeros k) = true.
Proof. induction k as [|k IH]; simpl; [reflexivity | exact IH]. Qed.

Lemma allDigits_string_of_uint d :
  allDigits (NilEmpty.string_of_uint d) = true.
Proof. induction d; simpl; auto. Qed.

Lemma valueOf_zeros k s : valueOf (zeros k ++ s) = valueOf s.
Proof.
  induction k as [|k IH]; simpl; [reflexivity|].
  unfold valueOf in *. simpl.
  destruct (NilEmpty.uint_of_string (zeros k ++ s)) as [d|];
    destruct (NilEmpty.uint_of_string s) as [d'|]; simpl in *;
    try discriminate; try reflexivity.
  exact IH.
Qed.

Lemma valueOf_digits n : (0 <= n)%Z -> valueOf (digits n) = Some (Z.to_N n).
Proof.
  intros _. unfold valueOf, digits. rewrite NilEmpty.usu. simpl.
  now rewrite DecimalN.Unsigned.of_to.
Qed.

Lemma Qle_bool_false_lt a b : Qle_bool a b = false -> (b < a)%Q.
Proof.
  intros H. apply Qnot_le_lt. intros Hle.
  apply Qle_bool_iff in Hle. congruence.
Qed.

Lemma toFixed_rendersFixed x f :
  f <> 0%nat -> fixedRange x ->
  rendersFixed f x (toFixed numberToString x f).
Proof.
  intros Hf Hx. unfold fixedRange in Hx. unfold toFixed, rendersFixed.
  destruct (Qle_bool (inject_Z (10 ^ 21)) (Qabs x)) eqn:E.
  { apply Qle_bool_iff in E. lra. }
  destruct (Nat.eqb_spec f 0) as [|_]; [contradiction|].
  set (n := Qfloor (Qabs x * inject_Z (10 ^ Z.of_nat f) + (1 # 2))).
  assert (0 <= n)%Z as Hn.
  { unfold n. change 0%Z with (Qfloor 0). apply Qfloor_resp_le.
    pose proof (Qabs_nonneg x) as Hx0.
    assert (0 <= inject_Z (10 ^ Z.of_nat f))%Q as Hp.
    { change 0%Q with (inject_Z 0). rewrite <- Zle_Qle.
      apply Z.pow_nonneg. lia. }
    pose proof (Qmult_le_0_compat _ _ Hx0 Hp). lra. }
  set (m := if (String.length (digits n) <=? f)%nat
            then zeros (f + 1 - String.length (digits n)) ++ digits n
            else digits n).
  assert (f < String.length m)%nat as Hlen.
  { unfold m. destruct (Nat.leb_spec (String.length (digits n)) f).
    - rewrite length_append, length_zeros. lia.
    - lia. }
  assert (allDigits m = true) as Hd.
  { unfold m. destruct (String.length (digits n) <=? f)%nat.
    - rewrite allDigits_append, allDigits_zeros. simpl.
      apply allDigits_string_of_uint.
    - apply allDigits_string_of_uint. }
  assert (valueOf m = Some (Z.to_N n)) as Hv.
  { unfold m. destruct (String.length (digits n) <=? f)%nat.
    - rewrite valueOf_zeros. now apply valueOf_digits.
    - now apply valueOf_digits. }
  pose proof (substring_split m (String.length m - f) ltac:(lia)) as Hsplit.
  replace (String.length m - (String.length m - f))%nat with f in Hsplit by lia.
  exists (substring 0 (String.length m - f) m),
         (substring (String.length m - f) f m).
  split; [reflexivity|]. split; [apply length_substring; lia|].
  split.
  - intros H0. apply (f_equal String.length) in H0.
    rewrite length_substring in H0 by lia. simpl in H0. lia.
  - rewrite Hsplit. now split.
Qed.

Lemma fold_left_append labels : forall acc,
  fold_left (fun txtContent l => txtContent ++ audacityLine numberToString l)
    labels acc
  = acc ++ String.concat "" (map (audacityLine numberToString) labels).
Proof.
  induction labels as [|l rest IH]; intros acc; simpl.
  - now rewrite append_nil_r.
  - rewrite IH, append_assoc. f_equal.
    destruct rest; simpl; [now rewrite append_nil_r | reflexivity].
Qed.

End AudacityExport.

(** C9.  The content that [exportToAudacity] saves is, label by label in
    list order and with nothing before, the line
    [start TAB end TAB text NEWLINE] with [start] and [end] printed by
    [toFixed(6)]; for times of magnitude below [10^21] that is fixed
    notation with exactly six decimals.  For the single label
    [{start: 1.0, end: 2.5, text: "call"}] the content is
    ["1.000000\t2.500000\tcall\n"]. *)
Theorem exportToAudacity_lines (numberToString : Q -> string)
    (labels : list Label) (filename : string) :
  content (exportToAudacity numberToString labels filename)
  = String.concat "" (map (audacityLine numberToString) labels)
  /\ (forall l, In l labels ->
        fixedRange (start l) -> fixedRange (end_ l) ->
        rendersFixed 6 (start l) (toFixed numberToString (start l) 6) /\
        rendersFixed 6 (end_ l) (toFixed numberToString (end_ l) 6))
  /\ content (exportToAudacity numberToString [callLabel] filename)
     = ("1.000000" ++ TAB ++ "2.500000" ++ TAB ++ "call" ++ NL)%string.
Proof.
  split; [|split].
  - unfold exportToAudacity. cbn [content].
    exact (fold_left_append numberToString labels ""%string).
  - intros l _ Hs He.
    split; apply toFixed_rendersFixed; (discriminate || assumption).
  - vm_compute. reflexivity.
Qed.

Lemma exportToAudacity_lines_witness :
  rendersFixed 6 (start callLabel) (toFixed (fun _ => ""%string) (start callLabel) 6) /\
  rendersFixed 6 (end_ callLabel) (toFixed (fun _ => ""%string) (end_ callLabel) 6).
Proof.
  destruct (exportToAudacity_lines (fun _ => ""%string) [callLabel] "song.wav")
    as (_ & H & _).
  apply (H callLabel).
  - left. reflexivity.
  - vm_compute. reflexivity.
  - vm_compute. reflexivity.
Defined.

(* ----------------------------------------------------------------- *)
(** ** Creating a label *)

Section Creation.

Import Spectrogram.
Local Open Scope Q_scope.

Lemma drag_extent (s c : Q) : Qmax s c - Qmin s c == Qabs (c - s).
Proof.
  destruct (Q.max_spec s c) as [[Hlt Hmax]|[Hle Hmax]];
    destruct (Q.min_spec s c) as [[Hlt' Hmin]|[Hle' Hmin]];
    rewrite Hmax, Hmin.
  - rewrite Qabs_pos by lra. reflexivity.
  - lra.
  - lra.
  - rewrite Qabs_neg by lra. ring.
Qed.

(** C7.  On the release that ends a creation drag from [s] to [c], the
    label list either gains one label at its end or is left as it was.
    The label is appended exactly when the difference of the later and
    the earlier end of the drag, rounded as the program computes it,
    exceeds the double 0.05.  So a label is committed only if
    [|c - s| > 0.05], and a drag with [|c - s| <= 0.05] creates nothing.
    The new label spans the drag, has the active category's key and
    colour, and its text, which is empty for the default category
    (key 0). *)
Theorem handleMouseUp_creates (props : Props) (newId : string) (st : State)
    (s c : Q) :
  creatingLabel st = Some (s, c) ->
  let st' := handleMouseUp props newId st in
  let active := activeLabelConfig props in
  let newLabel :=
    mkLabel newId (key active) (Qmin s c) (Qmax s c)
      (if String.eqb (key active) "0" then ""%string else cfg_text active)
      (cfg_color active) None in
  creatingLabel st' = None /\
  (lit_0_05 < fsub (Qmax s c) (Qmin s c) ->
   labels st' = labels st ++ [newLabel]) /\
  (fsub (Qmax s c) (Qmin s c) <= lit_0_05 -> labels st' = labels st) /\
  (labels st' <> labels st -> (1 # 20) < Qabs (c - s)) /\
  (Qabs (c - s) <= (1 # 20) -> labels st' = labels st).
Proof.
  intros Hc st' active newLabel. subst st' active newLabel.
  unfold handleMouseUp. rewrite Hc.
  assert (Hsmall : Qabs (c - s) <= (1 # 20) ->
                   fsub (Qmax s c) (Qmin s c) <= lit_0_05).
  { intros H. unfold fsub, lit_0_05. apply round64_le.
    pose proof (drag_extent s c) as He. lra. }
  destruct (Qlt_le_dec lit_0_05 (fsub (Qmax s c) (Qmin s c))) as [Hlt|Hle];
    cbn [labels creatingLabel fst snd].
  - split; [reflexivity|]. split; [reflexivity|].
    split; [intros H; exfalso; lra|].
    split.
    + intros _. apply Qnot_le_lt. intros H. apply Hsmall in H. lra.
    + intros H. apply Hsmall in H. exfalso. lra.
  - split; [reflexivity|]. split; [intros H; exfalso; lra|].
    split; [reflexivity|].
    split; [intros H; exfalso; now apply H | reflexivity].
Qed.

(** A drag from 1 s to 2 s creates a label; so does the drag from pixel
    100 to pixel 105 at 100 pixels per second, whose ends are 1 and 1.05
    and differ by more than 0.05; a drag over 1/32 s creates none. *)
Lemma handleMouseUp_creates_witness :
  labels (handleMouseUp tenSeconds "n1" (creating 1 2))
  = [mkLabel "n1" "1" 1 2 "bird" (Some "#ef4444"%string) None]
  /\ labels
       (handleMouseUp tenSeconds "n1"
          (creating (getPointerTime tenSeconds 0 100)
             (getPointerTime tenSeconds 0 105)))
     = [mkLabel "n1" "1" 1 (4728779608739021 # 4503599627370496) "bird"
          (Some "#ef4444"%string) None]
  /\ labels (handleMouseUp tenSeconds "n1" (creating 1 (33 # 32))) = [].
Proof.
  split; [|split].
  - destruct (handleMouseUp_creates tenSeconds "n1" (creating 1 2) 1 2 eq_refl)
      as (_ & H & _).
    apply H. vm_compute. reflexivity.
  - destruct (handleMouseUp_creates tenSeconds "n1"
                (creating (getPointerTime tenSeconds 0 100)
                   (getPointerTime tenSeconds 0 105))
                (getPointerTime tenSeconds 0 100)
                (getPointerTime tenSeconds 0 105) eq_refl)
      as (_ & H & _).
    etransitivity; [apply H; vm_compute; reflexivity|].
    vm_compute. reflexivity.
  - destruct (handleMouseUp_creates tenSeconds "n1" (creating 1 (33 # 32)) 1
                (33 # 32) eq_refl)
      as (_ & _ & _ & _ & H).
    apply H. vm_compute. discriminate.
Defined.

End Creation.

(* ----------------------------------------------------------------- *)
(** ** Deleting a category *)

Section Categories.

Import App.
Local Open Scope string_scope.

Lemma toString_inj i j : toString i = toString j -> i = j.
Proof.
  unfold toString. intros H.
  apply (f_equal NilEmpty.uint_of_string) in H.
  rewrite !NilEmpty.usu in H. injection H as H.
  apply (f_equal Nat.of_uint) in H.
  now rewrite !DecimalNat.Unsigned.of_to in H.
Qed.

Lemma keysIndexed_default : keysIndexed DEFAULT_LABEL_CONFIGS.
Proof. intros [|i] c H; simpl in H; [|discriminate]. now injection H as <-. Qed.

Lemma keysIndexed_add newLabelText st :
  keysIndexed (labelConfigs st) ->
  keysIndexed (labelConfigs (handleAddLabelConfig newLabelText st)).
Proof.
  intros Hk. unfold handleAddLabelConfig.
  destruct (trimIsEmpty newLabelText); [exact Hk|].
  destruct (10 <=? length (labelConfigs st))%nat; [exact Hk|].
  intros i c Hi. cbn [labelConfigs] in Hi.
  destruct (Nat.lt_ge_cases i (length (labelConfigs st))) as [Hlt|Hge].
  - rewrite lookup_app_l in Hi by exact Hlt. now apply Hk.
  - rewrite lookup_app_r in Hi by exact Hge.
    destruct (i - length (labelConfigs st))%nat eqn:E; simpl in Hi;
      [|discriminate].
    injection Hi as <-. simpl. f_equal. lia.
Qed.

Lemma keysIndexed_delete idx choice st st' :
  handleDeleteCategory idx choice st = Some st' ->
  keysIndexed (labelConfigs st) ->
  keysIndexed (labelConfigs st').
Proof.
  unfold handleDeleteCategory. intros H Hk.
  destruct (idx =? 0)%nat; [now injection H as <-|].
  destruct (labelConfigs st !! idx) as [config|]; [|discriminate].
  injection H as <-. cbn [labelConfigs].
  intros i c Hi. rewrite list_lookup_imap in Hi.
  destruct (removeAt idx (labelConfigs st) !! i); simpl in Hi; [|discriminate].
  now injection Hi as <-.
Qed.

Lemma lookup_map {A B} (f : A -> B) (l : list A) (i : nat) :
  map f l !! i = option_map f (l !! i).
Proof.
  revert i. induction l as [|x l IH]; intros [|i]; simpl; try reflexivity.
  apply IH.
Qed.

Lemma filter_nil_map_convert k (ls : list Label) :
  List.filter (fun l => String.eqb (configId l) k) ls = [] ->
  map (convertToCustom k) ls = ls.
Proof.
  induction ls as [|l ls IH]; simpl; [reflexivity|].
  unfold convertToCustom at 1.
  destruct (String.eqb (configId l) k); [discriminate|].
  intros H. now rewrite IH.
Qed.

Lemma handleDeleteCategory_convert st idx config :
  idx <> 0%nat ->
  labelConfigs st !! idx = Some config ->
  exists st',
    handleDeleteCategory idx true st = Some st' /\
    labels st' = map (convertToCustom (key config)) (labels st).
Proof.
  intros Hidx Hc. unfold handleDeleteCategory.
  destruct (Nat.eqb_spec idx 0) as [|_]; [contradiction|].
  rewrite Hc. eexists. split; [reflexivity|]. cbn [labels].
  destruct (List.filter _ (labels st)) as [|l0 ls0] eqn:E; simpl.
  - symmetry. now apply filter_nil_map_convert.
  - reflexivity.
Qed.

(** C8.  Deleting the category at a position other than 0 with the
    reassign answer replaces the label list, in one step, by the list in
    which every label of that category has [configId] "0" and colour
    "#ffffff" and every other label is as it was; no label of the new
    list has the deleted key.  The category keys are their positions, as
    they are from the initial list on.  Deleting category "1", used by
    two labels, leaves no label with [configId] "1"; both converted
    labels have colour "#ffffff" and [configId] "0". *)
Theorem handleDeleteCategory_reassign :
  (forall st idx config,
     keysIndexed (labelConfigs st) ->
     idx <> 0%nat ->
     labelConfigs st !! idx = Some config ->
     exists st',
       handleDeleteCategory idx true st = Some st' /\
       length (labels st') = length (labels st) /\
       (forall l, In l (labels st') -> configId l <> key config) /\
       (forall i l, labels st !! i = Some l ->
          labels st' !! i =
          Some (if String.eqb (configId l) (key config)
                then mkLabel (id l) "0" (start l) (end_ l) (text l)
                       (Some "#ffffff") (layerIndex l)
                else l))) /\
  option_map labels (handleDeleteCategory 1 true twoBirds)
  = Some [ mkLabel "a1" "0" 1 2 "bird" (Some "#ffffff") None;
           mkLabel "a2" "0" 3 4 "noise" (Some "#ffffff") None;
           mkLabel "a3" "0" 5 6 "bird" (Some "#ffffff") None ].
Proof.
  split; [|reflexivity].
  intros st idx config Hk Hidx Hc.
  destruct (handleDeleteCategory_convert st idx config Hidx Hc)
    as (st' & Hst' & Hl).
  exists st'. split; [exact Hst'|]. rewrite Hl.
  assert (key config <> "0") as Hkey.
  { rewrite (Hk idx config Hc). change "0" with (toString 0).
    intros H. apply toString_inj in H. contradiction. }
  split; [apply length_map|]. split.
  - intros l Hin. apply in_map_iff in Hin as (l0 & <- & _).
    unfold convertToCustom.
    destruct (String.eqb_spec (configId l0) (key config)) as [_|Hne];
      simpl; congruence.
  - intros i l Hi. rewrite lookup_map, Hi. reflexivity.
Qed.

Lemma handleDeleteCategory_reassign_witness :
  exists st',
    handleDeleteCategory 1 true twoBirds = Some st' /\
    length (labels st') = 3%nat /\
    (forall l, In l (labels st') -> configId l <> "1").
Proof.
  destruct (proj1 handleDeleteCategory_reassign twoBirds 1%nat birdConfig)
    as (st' & H1 & H2 & H3 & _).
  - intros [|[|i]] c H; simpl in H; try discriminate;
      injection H as <-; reflexivity.
  - discriminate.
  - reflexivity.
  - exists st'. split; [exact H1|]. split; [exact H2 | exact H3].
Defined.

End Categories.

(* ----------------------------------------------------------------- *)
(** ** Resizing and dragging a label *)

Section Editing.

Import Spectrogram.
Local Open Scope Q_scope.

(** C6 (the code departs from it).  On a 10 s recording a label is
    created from 1 s to 2 s, pressed at 1.5 s and dragged to the right
    edge: the stored label, valid before the drag, then runs from 9.5 s
    to 10.5 s, past the end of the recording. *)
Theorem drag_past_duration :
  let created :=
    handleMouseUp tenSeconds "n1"
      (handleMouseMove tenSeconds 200
         (handleMouseDown tenSeconds 0 onCanvas 100 idle)) in
  exists l l',
    labels created = [l] /\ validLabel 10 l /\
    calculateLabelLayers (labels created) = [setLayerIndex 0 l] /\
    labels (handleMouseMove tenSeconds 1000
              (labelMouseDown tenSeconds (setLayerIndex 0 l) 0 150 created))
    = [l'] /\
    start l' == 19 # 2 /\ end_ l' == 21 # 2 /\
    ~ validLabel 10 l'.
Proof.
  cbn zeta. eexists. eexists.
  split; [vm_compute; reflexivity|].
  split; [vm_compute; repeat split; discriminate|].
  split; [vm_compute; reflexivity|].
  split; [vm_compute; reflexivity|].
  split; [vm_compute; reflexivity|]. split; [vm_compute; reflexivity|].
  intros (_ & _ & H). vm_compute in H. apply H. reflexivity.
Qed.

End Editing.

(* ----------------------------------------------------------------- *)
(** ** The analysis: dimensions and failure *)

Section Analysis.

Import JsNumber AudioProcessing.
Local Open Scope Z_scope.

Lemma powerOfTwo_half fftSize :
  powerOfTwo fftSize -> 2 <= fftSize ->
  2 * (fftSize / 2) = fftSize /\ 1 <= fftSize / 2.
Proof.
  intros (k & Hk & ->) H2.
  assert (1 <= k) as Hk1.
  { destruct (Z.eq_dec k 0) as [->|]; [simpl in H2; lia | lia]. }
  replace k with (Z.succ (k - 1)) by lia.
  rewrite Z.pow_succ_r by lia.
  replace (2 * 2 ^ (k - 1) / 2) with (2 ^ (k - 1))
    by (symmetry; rewrite Z.mul_comm; apply Z.div_mul; lia).
  split; [reflexivity|].
  assert (0 < 2 ^ (k - 1)) by (apply Z.pow_pos_nonneg; lia). lia.
Qed.

Lemma length_subarray_prefix {A} (a : list A) (e : Z) :
  0 <= e ->
  Z.of_nat (length (subarray a 0 e)) = Z.min e (Z.of_nat (length a)).
Proof.
  intros He. unfold subarray.
  destruct (Z.ltb_spec e 0) as [|_]; [lia|].
  cbn [Z.ltb Z.compare]. rewrite (Z.min_l 0) by lia.
  change (Z.to_nat 0) with 0%nat. rewrite drop_0, length_take. lia.
Qed.

Lemma length_subarray_inside {A} (a : list A) (b e : Z) :
  0 <= b <= e -> e <= Z.of_nat (length a) ->
  subarray a b e = take (Z.to_nat (e - b)) (drop (Z.to_nat b) a) /\
  Z.of_nat (length (subarray a b e)) = e - b.
Proof.
  intros Hb He. unfold subarray.
  destruct (Z.ltb_spec b 0) as [|_]; [lia|].
  destruct (Z.ltb_spec e 0) as [|_]; [lia|].
  rewrite !Z.min_l, Z.max_l by lia.
  split; [reflexivity|].
  rewrite length_take, length_drop. lia.
Qed.

(** *** The loop bounds suffice

    The two [forLoop]s of [performFFT] stop by their own conditions
    before the bound [fftSize] on their rounds is used up: more rounds
    change nothing. *)

Lemma forLoop_extra_fuel {S : Type} (cond : Z -> bool) (next : Z -> Z)
    (body : Z -> S -> S) : forall fuel extra v s,
  cond (Nat.iter fuel next v) = false ->
  forLoop (fuel + extra) cond next body v s = forLoop fuel cond next body v s.
Proof.
  induction fuel as [|fuel IH]; intros extra v s Hc.
  - simpl in Hc. destruct extra; simpl; [reflexivity | now rewrite Hc].
  - rewrite Nat.iter_succ_r in Hc. simpl.
    destruct (cond v); [now apply IH | reflexivity].
Qed.

Lemma doubling_exceeds (n : nat) :
  Z.of_nat n < Nat.iter n (fun size => size * 2) 2.
Proof.
  induction n as [|n IH]; [simpl; lia|].
  rewrite Nat.iter_succ. cbv beta. lia.
Qed.

Lemma stepping_reaches (size : Z) (n : nat) :
  1 <= size -> Z.of_nat n <= Nat.iter n (fun i => i + size) 0.
Proof.
  intros Hs. induction n as [|n IH]; [simpl; lia|].
  rewrite Nat.iter_succ. cbv beta. lia.
Qed.

Lemma stage_loop_fuel {S : Type} (fftSize : Z) (body : Z -> S -> S) extra s :
  0 <= fftSize ->
  forLoop (Z.to_nat fftSize + extra) (fun size => size <=? fftSize)
    (fun size => size * 2) body 2 s
  = forLoop (Z.to_nat fftSize) (fun size => size <=? fftSize)
      (fun size => size * 2) body 2 s.
Proof.
  intros Hf. apply forLoop_extra_fuel.
  pose proof (doubling_exceeds (Z.to_nat fftSize)).
  apply Z.leb_gt. lia.
Qed.

Lemma block_loop_fuel {S : Type} (fftSize size : Z) (body : Z -> S -> S)
    extra s :
  0 <= fftSize -> 1 <= size ->
  forLoop (Z.to_nat fftSize + extra) (fun i => i <? fftSize)
    (fun i => i + size) body 0 s
  = forLoop (Z.to_nat fftSize) (fun i => i <? fftSize)
      (fun i => i + size) body 0 s.
Proof.
  intros Hf Hs. apply forLoop_extra_fuel.
  pose proof (stepping_reaches size (Z.to_nat fftSize) Hs).
  apply Z.ltb_ge. lia.
Qed.

(** *** The cells of one column and of all columns *)

Lemma wr_insert {A} (a : list A) (i : Z) (v : A) :
  0 <= i -> wr a i v = <[Z.to_nat i := v]> a.
Proof.
  intros Hi. unfold wr. destruct (Z.ltb_spec i 0); [lia | reflexivity].
Qed.

Lemma store_fold (v : Z -> Z) (h col : Z) (bs : list Z) : forall out,
  NoDup bs ->
  (forall b, b ∈ bs -> 0 <= b < h) ->
  0 <= col -> (col + 1) * h <= Z.of_nat (length out) ->
  let out' :=
    fold_left (fun o b => wr o (col * h + (h - 1 - b)) (v b)) bs out in
  length out' = length out /\
  (forall b, b ∈ bs ->
     out' !! Z.to_nat (col * h + (h - 1 - b)) = Some (v b)) /\
  (forall j, (forall b, b ∈ bs -> j <> Z.to_nat (col * h + (h - 1 - b))) ->
     out' !! j = out !! j).
Proof.
  induction bs as [|b bs IH]; intros out Hnd Hin Hcol Hlen; cbn zeta.
  - split; [reflexivity|]. split; [|reflexivity].
    intros b Hb. now apply elem_of_nil in Hb.
  - cbn [fold_left].
    apply NoDup_cons in Hnd as [Hnotin Hnd].
    pose proof (Hin b ltac:(left)) as Hb.
    assert (0 <= col * h) as Hch by nia.
    assert (0 <= col * h + (h - 1 - b) < Z.of_nat (length out)) as Hidx by nia.
    rewrite wr_insert by lia.
    specialize (IH (<[Z.to_nat (col * h + (h - 1 - b)) := v b]> out) Hnd
                  (fun b' Hb' => Hin b' ltac:(now right)) Hcol).
    rewrite length_insert in IH. specialize (IH Hlen).
    cbn zeta in IH. destruct IH as (IHlen & IHin & IHout).
    split; [exact IHlen|]. split.
    + intros b' Hb'. apply elem_of_cons in Hb' as [->|Hb'].
      * rewrite IHout.
        -- apply list_lookup_insert_eq. lia.
        -- intros b' Hb' Heq.
           pose proof (Hin b' ltac:(now right)).
           assert (b' = b) as -> by lia. contradiction.
      * now apply IHin.
    + intros j Hj. rewrite IHout.
      * apply list_lookup_insert_ne. intros Heq. apply (Hj b); [left|].
        now symmetry.
      * intros b' Hb'. apply Hj. now right.
Qed.

Lemma storeColumn_cells (h col : Z) (ri : list R * list R) (out : list Z) :
  0 <= col -> (col + 1) * h <= Z.of_nat (length out) ->
  let out' := storeColumn h col ri out in
  length out' = length out /\
  (forall bin, 0 <= bin < h ->
     out' !! Z.to_nat (col * h + (h - 1 - bin))
     = Some (ToUint8 (intensityOf (rd 0%R (fst ri) bin) (rd 0%R (snd ri) bin)))) /\
  (forall j, (Z.of_nat j < col * h \/ (col + 1) * h <= Z.of_nat j) ->
     out' !! j = out !! j).
Proof.
  intros Hcol Hlen. cbn zeta. unfold storeColumn, forUpTo.
  pose proof (store_fold
                (fun bin => ToUint8 (intensityOf (rd 0%R (fst ri) bin)
                                       (rd 0%R (snd ri) bin)))
                h col (seqZ 0 h) out (NoDup_seqZ 0 h)) as H.
  cbn zeta in H. destruct H as (H1 & H2 & H3); try assumption.
  { intros b Hb. apply elem_of_seqZ in Hb. lia. }
  split; [exact H1|]. split.
  - intros bin Hbin. apply H2. apply elem_of_seqZ. lia.
  - intros j Hj. apply H3. intros b Hb. apply elem_of_seqZ in Hb. nia.
Qed.

Section Columns.

Variable audioBuffer : AudioBuffer.
Variables fftSize hopSize w h : Z.

Let N := Z.of_nat (length (channelData audioBuffer)).

Hypothesis Hfft : 0 <= fftSize.
Hypothesis Hhop : 0 < hopSize.
Hypothesis Hh : 0 <= h.
Hypothesis Hw : w * hopSize + fftSize <= N.

Lemma mainLoop_cells (fuel : nat) : forall col out,
  Z.of_nat fuel + col = w -> 0 <= col ->
  Z.of_nat (length out) = w * h ->
  let out' := mainLoop audioBuffer fftSize hopSize fuel (Int w) h col out in
  length out' = length out /\
  (forall c bin, col <= c < w -> 0 <= bin < h ->
     out' !! Z.to_nat (c * h + (h - 1 - bin))
     = Some (cellOf audioBuffer fftSize hopSize c bin)) /\
  (forall j, Z.of_nat j < col * h -> out' !! j = out !! j).
Proof.
  induction fuel as [|fuel IH]; intros col out Hf Hcol Hlen; cbn zeta.
  - simpl. split; [reflexivity|]. split; [|reflexivity].
    intros c bin Hc. lia.
  - cbn [mainLoop lessThan].
    destruct (Z.ltb_spec col w) as [Hlt|]; [|lia].
    destruct (length_subarray_inside (channelData audioBuffer)
                (col * hopSize) (col * hopSize + fftSize)
                ltac:(nia) ltac:(fold N; nia)) as [_ Hchunk].
    destruct (Z.ltb_spec
                (Z.of_nat (length (subarray (channelData audioBuffer)
                              (col * hopSize) (col * hopSize + fftSize))))
                fftSize) as [|_]; [lia|].
    set (ri := performFFT fftSize _).
    destruct (storeColumn_cells h col ri out Hcol ltac:(nia))
      as (S1 & S2 & S3).
    specialize (IH (col + 1) (storeColumn h col ri out) ltac:(lia)
                  ltac:(lia) ltac:(lia)).
    cbn zeta in IH. destruct IH as (I1 & I2 & I3).
    split; [congruence|]. split.
    + intros c bin Hc Hbin.
      destruct (Z.eq_dec c col) as [->|Hne].
      * rewrite I3 by nia. rewrite S2 by exact Hbin. reflexivity.
      * apply I2; lia.
    + intros j Hj. rewrite I3 by nia. apply S3. now left.
Qed.

End Columns.

(** *** The call as a whole *)

Lemma generateSpectrogramData_valid audioBuffer fftSize hopSize :
  validConfig fftSize hopSize ->
  let N := Z.of_nat (length (channelData audioBuffer)) in
  let w := (N - fftSize) / hopSize in
  let h := fftSize / 2 in
  (N < fftSize ->
     generateSpectrogramData audioBuffer fftSize hopSize = Thrown RangeError) /\
  (fftSize <= N ->
     0 <= w /\ w * hopSize + fftSize <= N /\
     generateSpectrogramData audioBuffer fftSize hopSize
     = Returned
         (mkSpectrogramData
            (mainLoop audioBuffer fftSize hopSize (Z.to_nat w) (Int w) h 0
               (repeat 0 (Z.to_nat (w * h))))
            (Int w) h (sampleRate audioBuffer))).
Proof.
  intros (Hp & H2 & Hhop) N w h.
  destruct (powerOfTwo_half fftSize Hp H2) as [Hhalf Hh1]. fold h in Hhalf, Hh1.
  unfold generateSpectrogramData, floorDiv. fold N.
  destruct (Z.eqb_spec hopSize 0) as [|_]; [lia|]. fold w h.
  cbn [times newUint8Array].
  split.
  - intros Hlt.
    assert (w < 0) as Hw by (apply Z.div_lt_upper_bound; lia).
    destruct (Z.ltb_spec (w * h) 0) as [_|]; [reflexivity | nia].
  - intros Hle.
    assert (0 <= w) as Hw by (apply Z.div_pos; lia).
    assert (w * hopSize <= N - fftSize) as Hwh.
    { rewrite Z.mul_comm. apply Z.mul_div_le. lia. }
    split; [exact Hw|]. split; [lia|].
    destruct (Z.ltb_spec (w * h) 0) as [|_]; [nia | reflexivity].
Qed.

Lemma intensityOf_clamp re im :
  intensityOf re im = clamp255 (decibelScale re im).
Proof.
  unfold intensityOf, clamp255, decibelScale, Rmin, Rmax.
  set (v := ((20 * (ln (sqrt (re * re + im * im) + / 1000000) / ln 10) + 60)
             * 4)%R).
  destruct (Rlt_dec v 0); destruct (Rle_dec 0 v); try lra.
  - destruct (Rlt_dec 255 0); destruct (Rle_dec 255 0); lra.
  - destruct (Rlt_dec 255 v); destruct (Rle_dec 255 v); lra.
Qed.

Lemma clamp255_range x : (0 <= clamp255 x <= 255)%R.
Proof.
  unfold clamp255, Rmin, Rmax.
  destruct (Rle_dec 0 x); destruct (Rle_dec 255 _); lra.
Qed.

Lemma ToUint8_floor x : (0 <= x <= 255)%R -> ToUint8 x = Int_part x.
Proof.
  intros Hx. unfold ToUint8, truncate.
  destruct (Rle_dec 0 x) as [_|]; [|lra].
  destruct (base_Int_part x) as [Hlo Hhi].
  assert (-1 < Int_part x) as H1 by (apply lt_IZR; lra).
  assert (Int_part x < 256) as H2 by (apply lt_IZR; lra).
  apply Z.mod_small. lia.
Qed.

(** C1.  For a valid configuration ([fftSize] a power of two >= 2,
    [hopSize > 0]) and a buffer of [N] samples, a field returned by
    [generateSpectrogramData] has width [floor((N - fftSize) / hopSize)]
    and a height that is half of [fftSize], with one cell per column and
    bin; a field is returned whenever [N >= fftSize] (for fewer samples
    the output allocation throws and no field is returned). *)
Theorem generateSpectrogramData_dimensions audioBuffer fftSize hopSize :
  validConfig fftSize hopSize ->
  let N := Z.of_nat (length (channelData audioBuffer)) in
  (forall d,
     generateSpectrogramData audioBuffer fftSize hopSize = Returned d ->
     width d = Int ((N - fftSize) / hopSize) /\
     2 * height d = fftSize /\
     Z.of_nat (length (data d)) = (N - fftSize) / hopSize * height d) /\
  (fftSize <= N ->
     exists d, generateSpectrogramData audioBuffer fftSize hopSize = Returned d) /\
  (N < fftSize ->
     generateSpectrogramData audioBuffer fftSize hopSize = Thrown RangeError).
Proof.
  intros Hv N.
  destruct (generateSpectrogramData_valid audioBuffer fftSize hopSize Hv)
    as [Hshort Hlong]. fold N in Hshort, Hlong.
  destruct Hv as (Hp & H2 & Hhop).
  destruct (powerOfTwo_half fftSize Hp H2) as [Hhalf Hh1].
  split; [|split].
  - intros d Hd. destruct (Z.lt_ge_cases N fftSize) as [Hlt|Hge].
    + rewrite (Hshort Hlt) in Hd. discriminate.
    + destruct (Hlong Hge) as (Hw & Hwh & Heq). rewrite Heq in Hd.
      injection Hd as <-. cbn [width height data].
      split; [reflexivity|]. split; [exact Hhalf|].
      destruct (mainLoop_cells audioBuffer fftSize hopSize
                  ((N - fftSize) / hopSize) (fftSize / 2)
                  ltac:(lia) Hhop ltac:(lia) Hwh
                  (Z.to_nat ((N - fftSize) / hopSize)) 0
                  (repeat 0 (Z.to_nat ((N - fftSize) / hopSize * (fftSize / 2))))
                  ltac:(lia) ltac:(lia)) as (Hlen & _).
      * rewrite repeat_length. nia.
      * rewrite Hlen, repeat_length. nia.
  - intros Hge. destruct (Hlong Hge) as (_ & _ & Heq). eexists. exact Heq.
  - exact Hshort.
Qed.

Lemma generateSpectrogramData_dimensions_witness :
  exists d, generateSpectrogramData toneBuffer 4 1 = Returned d.
Proof.
  apply (generateSpectrogramData_dimensions toneBuffer 4 1).
  - split; [exists 2; split; [lia | reflexivity]|]. lia.
  - change (4 <= 5). lia.
Defined.

(** *** A hop size that is not positive *)

Lemma generateSpectrogramData_short_negative_hop :
  generateSpectrogramData shortBuffer 16 (-1)
  = Returned (mkSpectrogramData (repeat 0 48) (Int 6) 8 44100%R).
Proof. reflexivity. Qed.

(** C2 as stated fails: with [hopSize = -1] and ten samples for a
    transform of size 16 the call returns a field. *)
Lemma invalid_config_not_rejected :
  ~ (forall audioBuffer fftSize hopSize,
       ~ powerOfTwo fftSize \/ hopSize <= 0 ->
       exists e,
         generateSpectrogramData audioBuffer fftSize hopSize = Thrown e).
Proof.
  intros H. destruct (H shortBuffer 16 (-1)) as [e He]; [right; lia|].
  rewrite generateSpectrogramData_short_negative_hop in He. discriminate.
Qed.

Lemma mainLoop_short audioBuffer fftSize hopSize fuel w h out :
  Z.of_nat (length (channelData audioBuffer)) < fftSize -> 0 <= fftSize ->
  mainLoop audioBuffer fftSize hopSize fuel w h 0 out = out.
Proof.
  intros Hshort Hfft. destruct fuel as [|fuel]; [reflexivity|].
  cbn [mainLoop]. destruct (lessThan 0 w); [|reflexivity].
  rewrite Z.mul_0_l, Z.add_0_l, length_subarray_prefix by exact Hfft.
  destruct (Z.ltb_spec (Z.min fftSize (Z.of_nat (length (channelData audioBuffer))))
              fftSize); [reflexivity | lia].
Qed.

(** C2, amended.  [generateSpectrogramData] does not check its
    configuration and has no [InvalidConfig] error; its only error is
    the [RangeError] of the output allocation.  For a power-of-two
    [fftSize >= 2] and [hopSize <= 0] the call throws when
    [N > fftSize], or when [hopSize = 0] and [N < fftSize]; in the other
    cases it returns a field whose cells are all zero. *)
Theorem generateSpectrogramData_nonpositive_hop audioBuffer fftSize hopSize :
  powerOfTwo fftSize -> 2 <= fftSize -> hopSize <= 0 ->
  let N := Z.of_nat (length (channelData audioBuffer)) in
  (fftSize < N \/ (hopSize = 0 /\ N < fftSize) ->
     generateSpectrogramData audioBuffer fftSize hopSize = Thrown RangeError) /\
  (~ (fftSize < N \/ (hopSize = 0 /\ N < fftSize)) ->
     exists d,
       generateSpectrogramData audioBuffer fftSize hopSize = Returned d /\
       width d = floorDiv (N - fftSize) hopSize /\
       height d = fftSize / 2 /\
       Forall (eq 0) (data d)).
Proof.
  intros Hp H2 Hhop N.
  destruct (powerOfTwo_half fftSize Hp H2) as [Hhalf Hh1].
  unfold generateSpectrogramData, floorDiv. fold N.
  destruct (Z.eqb_spec hopSize 0) as [->|Hne].
  - (* hopSize = 0 *)
    destruct (Z.ltb_spec 0 (N - fftSize)) as [Hpos|Hnpos].
    + cbn [times]. destruct (Z.ltb_spec 0 (fftSize / 2)); [|lia].
      split; [reflexivity | intros Hn; exfalso; apply Hn; left; lia].
    + destruct (Z.ltb_spec (N - fftSize) 0) as [Hneg|Hnneg].
      * cbn [times]. destruct (Z.ltb_spec 0 (fftSize / 2)); [|lia].
        split; [reflexivity | intros Hn; exfalso; apply Hn; right; lia].
      * cbn [times newUint8Array rounds mainLoop].
        split; [intros [?|[_ ?]]; lia|]. intros _. eexists.
        split; [reflexivity|]. cbn [width height data].
        split; [reflexivity|]. split; [reflexivity | constructor].
  - (* hopSize < 0 *)
    cbn [times newUint8Array].
    set (w := (N - fftSize) / hopSize).
    destruct (Z.lt_ge_cases fftSize N) as [Hlong|Hshort].
    + assert (w < 0) as Hw.
      { unfold w. rewrite <- Z.div_opp_opp by exact Hne.
        apply Z.div_lt_upper_bound; lia. }
      destruct (Z.ltb_spec (w * (fftSize / 2)) 0) as [_|]; [|nia].
      split; [reflexivity | intros Hn; exfalso; apply Hn; now left].
    + assert (0 <= w) as Hw.
      { unfold w. rewrite <- Z.div_opp_opp by exact Hne.
        apply Z.div_pos; lia. }
      destruct (Z.ltb_spec (w * (fftSize / 2)) 0) as [|_]; [nia|].
      split; [intros [?|[? _]]; lia|]. intros _. eexists.
      split; [reflexivity|]. cbn [width height data].
      split; [reflexivity|]. split; [reflexivity|].
      destruct (Z.eq_dec N fftSize) as [Heq|Hlt].
      * assert (w = 0) as -> by (unfold w; rewrite Heq, Z.sub_diag; reflexivity).
        simpl. constructor.
      * rewrite mainLoop_short by (fold N; lia).
        apply List.Forall_forall. intros x Hx.
        now apply repeat_spec in Hx.
Qed.

Lemma generateSpectrogramData_nonpositive_hop_witness :
  exists d,
    generateSpectrogramData shortBuffer 16 (-1) = Returned d /\
    width d = floorDiv (10 - 16) (-1) /\
    height d = 16 / 2 /\
    Forall (eq 0) (data d).
Proof.
  apply (generateSpectrogramData_nonpositive_hop shortBuffer 16 (-1)).
  - exists 4. split; [lia | reflexivity].
  - lia.
  - lia.
  - change (~ (16 < 10 \/ -1 = 0 /\ 10 < 16)). lia.
Defined.

End Analysis.

(* ----------------------------------------------------------------- *)
(** ** The analysis: the cells *)

Section Cells.

Import JsNumber AudioProcessing.
Local Open Scope Z_scope.

Variables cosD sinD sqrtD log10D : R -> R.


Section Columns.

Variable audioBuffer : Rounded.AudioBuffer.
Variables fftSize hopSize w h : Z.

Let N := Z.of_nat (length (Rounded.channelData audioBuffer)).

Hypothesis Hfft : 0 <= fftSize.
Hypothesis Hhop : 0 < hopSize.
Hypothesis Hh : 0 <= h.
Hypothesis Hw : w * hopSize + fftSize <= N.


End Columns.






End Cells.

Section CellExamples.

Import JsNumber AudioProcessing.
Local Open Scope Z_scope.




End CellExamples.

(* ----------------------------------------------------------------- *)
(** ** Rows and frequencies *)

Section Scales.

Import JsNumber.
Local Open Scope R_scope.

Lemma div_Fin a b : b <> 0 -> div (Fin a) (Fin b) = Fin (a / b).
Proof.
  intros Hb. unfold div.
  destruct (Req_dec_T b 0); [contradiction | reflexivity].
Qed.

Lemma logWith_Fin f x : 0 < x -> logWith f (Fin x) = Fin (f x).
Proof.
  intros Hx. unfold logWith.
  destruct (Rlt_dec 0 x); [reflexivity | contradiction].
Qed.

Lemma pow_Fin b e : 0 < b -> Math_pow (Fin b) (Fin e) = Fin (Rpower b e).
Proof.
  intros Hb. unfold Math_pow. destruct (Req_dec_T e 0) as [->|_].
  - now rewrite Rpower_O.
  - destruct (Rlt_dec 0 b); [reflexivity | contradiction].
Qed.

Lemma ln_Rpower_pos b e : ln (Rpower b e) = e * ln b.
Proof. unfold Rpower. apply ln_exp. Qed.

Lemma Rpower_pos b e : 0 < Rpower b e.
Proof. unfold Rpower. apply exp_pos. Qed.

Lemma ln_10_pos : 0 < ln 10.
Proof. rewrite <- ln_1. apply ln_increasing; lra. Qed.

Lemma toMel_Fin f :
  -700 < f -> AudioProcessing.toMel (Fin f) = Fin (melOf f).
Proof.
  intros Hf. unfold AudioProcessing.toMel, Math_log10.
  rewrite div_Fin by lra. cbn [add].
  rewrite logWith_Fin by lra. reflexivity.
Qed.

Lemma axis_toMel_Fin f :
  -700 < f -> Spectrogram.toMel (Fin f) = Fin (melOf f).
Proof. apply toMel_Fin. Qed.

Lemma fromMel_Fin m :
  AudioProcessing.fromMel (Fin m) = Fin (700 * (Rpower 10 (m / 2595) - 1)).
Proof.
  unfold AudioProcessing.fromMel.
  rewrite div_Fin by lra. rewrite pow_Fin by lra. reflexivity.
Qed.

Lemma melOf_fromMel m : melOf (700 * (Rpower 10 (m / 2595) - 1)) = m.
Proof.
  unfold melOf.
  replace (1 + 700 * (Rpower 10 (m / 2595) - 1) / 700)
    with (Rpower 10 (m / 2595)) by field.
  rewrite ln_Rpower_pos. pose proof ln_10_pos. field. lra.
Qed.

Lemma melOf_increasing a b : 0 <= a -> a < b -> melOf a < melOf b.
Proof.
  intros Ha Hab. unfold melOf. pose proof ln_10_pos as H10.
  assert (ln (1 + a / 700) < ln (1 + b / 700)) as Hln
    by (apply ln_increasing; lra).
  apply Rmult_lt_compat_l; [lra|].
  unfold Rdiv. apply Rmult_lt_compat_r; [|exact Hln].
  now apply Rinv_0_lt_compat.
Qed.

Lemma normY_Fin (y h : Z) :
  (0 < h)%Z ->
  sub (Fin 1) (div (ofZ y) (ofZ h)) = Fin (1 - IZR y / IZR h).
Proof.
  intros Hh. unfold ofZ. rewrite div_Fin; [reflexivity|].
  apply not_0_IZR. lia.
Qed.

Lemma row_of_pct (y h : Z) :
  (0 < h)%Z -> IZR h - (1 - IZR y / IZR h) * IZR h = IZR y.
Proof.
  intros Hh. field. apply not_0_IZR. lia.
Qed.

(** C4 as stated fails: with [minFreq = 0] and [maxFreq = 1] on the log
    scale the top row maps to 1 Hz and the tick formula divides [log 1]
    by [log 1]; the row comes back as [NaN]. *)
Lemma log_scale_round_trip_fails :
  (0 <= 0 < 2)%Z /\ 0 <= 0 < 1 /\
  Spectrogram.renderTick_y Types.log 2 0 1
    (AudioProcessing.targetFreq Types.log 2 0 1 0)
  = NaN.
Proof.
  split; [lia|]. split; [lra|].
  unfold Spectrogram.renderTick_y, AudioProcessing.targetFreq.
  cbn [Math_max]. rewrite (Rmax_right 0 1) by lra.
  rewrite normY_Fin by lia.
  rewrite !div_Fin by lra. rewrite pow_Fin by lra. cbn [mul].
  rewrite div_Fin by lra.
  assert (Rpower (1 / 1) (1 - 0 / 2) = 1) as ->.
  { unfold Rpower. replace (1 / 1) with 1 by lra.
    rewrite ln_1, Rmult_0_r. apply exp_0. }
  unfold Math_log. rewrite !logWith_Fin by lra.
  replace (1 * 1 / 1) with 1 by lra. replace (1 / 1) with 1 by lra.
  rewrite ln_1. unfold div.
  destruct (Req_dec_T 0 0) as [_|Hne]; [|contradiction].
  unfold sgn. destruct (Rlt_dec 0 0) as [Habs|_]; [lra|].
  reflexivity.
Qed.

(** C4, amended.  For each of the three scales and every pixel row [y]
    of a canvas of [h] rows, the tick formula of the axis takes the
    frequency that the renderer computes for row [y] back to [y]
    (exactly, over the real numbers), given [0 <= minFreq < maxFreq] and,
    for the log scale, [maxFreq <> max(minFreq, 1)]. *)
Theorem tick_row_of_target_frequency (scale : FrequencyScale) (h y : Z)
    (minFreq maxFreq : R) :
  (0 <= y < h)%Z ->
  0 <= minFreq < maxFreq ->
  (scale = Types.log -> maxFreq <> Rmax minFreq 1) ->
  Spectrogram.renderTick_y scale h minFreq maxFreq
    (AudioProcessing.targetFreq scale h minFreq maxFreq y)
  = Fin (IZR y).
Proof.
  intros Hy Hf Hlog. assert (0 < h)%Z as Hh by lia.
  pose proof (row_of_pct y h Hh) as Hrow.
  set (n := 1 - IZR y / IZR h) in *.
  unfold Spectrogram.renderTick_y, AudioProcessing.targetFreq.
  rewrite normY_Fin by exact Hh. fold n.
  destruct scale.
  - (* linear *)
    cbn [add sub mul neg]. rewrite div_Fin by lra. cbn [mul add sub neg ofZ].
    f_equal. rewrite <- Hrow. unfold Rminus. f_equal. f_equal. f_equal.
    field. lra.
  - (* log *)
    specialize (Hlog eq_refl). cbn [Math_max].
    set (sm := Rmax minFreq 1) in *.
    assert (1 <= sm) as Hsm by (unfold sm; apply Rmax_r).
    assert (0 < maxFreq / sm) as Hb.
    { apply Rdiv_lt_0_compat; lra. }
    rewrite (div_Fin maxFreq sm) by lra.
    rewrite pow_Fin by exact Hb. cbn [mul].
    rewrite div_Fin by lra.
    replace (sm * Rpower (maxFreq / sm) n / sm)
      with (Rpower (maxFreq / sm) n) by (field; lra).
    unfold Math_log.
    rewrite logWith_Fin by apply Rpower_pos.
    rewrite logWith_Fin by exact Hb.
    rewrite ln_Rpower_pos.
    assert (ln (maxFreq / sm) <> 0) as Hln.
    { intros H0. rewrite <- ln_1 in H0. apply ln_inv in H0; [|exact Hb|lra].
      apply Hlog. apply (Rmult_eq_compat_r sm) in H0.
      unfold Rdiv in H0. rewrite Rmult_assoc, Rinv_l in H0 by lra. lra. }
    rewrite div_Fin by exact Hln. cbn [mul sub add neg ofZ].
    f_equal. rewrite <- Hrow. unfold Rminus. f_equal. f_equal. f_equal.
    field. exact Hln.
  - (* mel *)
    rewrite ?toMel_Fin, ?axis_toMel_Fin by lra.
    cbn [add sub mul neg]. rewrite fromMel_Fin.
    rewrite axis_toMel_Fin.
    2:{ pose proof (Rpower_pos 10 ((melOf minFreq + n * (melOf maxFreq + - melOf minFreq)) / 2595)).
        lra. }
    rewrite melOf_fromMel. cbn [add sub mul neg].
    pose proof (melOf_increasing minFreq maxFreq ltac:(lra) ltac:(lra)) as Hm.
    rewrite div_Fin by lra. cbn [mul sub add neg ofZ].
    f_equal. rewrite <- Hrow. unfold Rminus. f_equal. f_equal. f_equal.
    field. lra.
Qed.

Lemma tick_row_of_target_frequency_witness :
  Spectrogram.renderTick_y Types.log 400 100 8000
    (AudioProcessing.targetFreq Types.log 400 100 8000 100)
  = Fin 100.
Proof.
  apply (tick_row_of_target_frequency Types.log 400 100 100 8000).
  - lia.
  - lra.
  - intros _. rewrite Rmax_left by lra. lra.
Defined.

End Scales.

(* ----------------------------------------------------------------- *)
(** ** More on layering *)

Section LayeringMore.

Local Open Scope Q_scope.

Lemma sortByStart_sorted_id l :
  StronglySorted startsLe l -> sortByStart l = l.
Proof.
  induction 1 as [|x l Hs IH Hall]; [reflexivity|].
  unfold sortByStart in *. cbn [foldr]. rewrite IH.
  destruct l as [|y ys]; [reflexivity|].
  cbn [insertByStart].
  apply Forall_cons in Hall as [Hxy _]. unfold startsLe in Hxy.
  apply Qle_bool_iff in Hxy. now rewrite Hxy.
Qed.

Lemma setLayerIndex_cores i a b :
  withoutLayer a = withoutLayer b -> setLayerIndex i a = setLayerIndex i b.
Proof.
  unfold withoutLayer, setLayerIndex. intros [= -> -> -> -> -> ->].
  reflexivity.
Qed.

Lemma fold_placeLabel_cores_eq s1 s2 :
  Forall2 (fun a b => withoutLayer a = withoutLayer b) s1 s2 ->
  forall layers p1 p2,
  exists L X,
    fold_left placeLabel s1 (layers, p1) = (L, p1 ++ X) /\
    fold_left placeLabel s2 (layers, p2) = (L, p2 ++ X) /\
    Forall2 (fun a b => withoutLayer a = withoutLayer b) s1 X.
Proof.
  induction 1 as [|a b s1 s2 Hab Hrest IH]; intros layers p1 p2.
  - exists layers, []. rewrite !app_nil_r. repeat split. constructor.
  - cbn [fold_left].
    assert (start a = start b /\ end_ a = end_ b) as [Es Ee].
    { unfold withoutLayer in Hab. now injection Hab. }
    unfold placeLabel at 2 4. rewrite <- Es, <- Ee.
    destruct (firstFit layers 0 (start a)) as [i|].
    + rewrite <- (setLayerIndex_cores i a b Hab).
      destruct (IH (<[i := end_ a]> layers) (p1 ++ [setLayerIndex i a])
                  (p2 ++ [setLayerIndex i a])) as (L & X & H1 & H2 & H3).
      exists L, (setLayerIndex i a :: X).
      rewrite H1, H2, <- !app_assoc. repeat split.
      constructor; [reflexivity | exact H3].
    + rewrite <- (setLayerIndex_cores (length layers) a b Hab).
      destruct (IH (layers ++ [end_ a])
                  (p1 ++ [setLayerIndex (length layers) a])
                  (p2 ++ [setLayerIndex (length layers) a]))
        as (L & X & H1 & H2 & H3).
      exists L, (setLayerIndex (length layers) a :: X).
      rewrite H1, H2, <- !app_assoc. repeat split.
      constructor; [reflexivity | exact H3].
Qed.

Lemma Forall2_cores_refl (l : list Label) :
  Forall2 (fun a b => withoutLayer a = withoutLayer b) l l.
Proof. induction l; constructor; auto. Qed.

Lemma sorted_cores s x :
  Forall2 (fun a b => withoutLayer a = withoutLayer b) s x ->
  StronglySorted startsLe s -> StronglySorted startsLe x.
Proof.
  induction 1 as [|a b s x Hab Hrest IH]; intros Hs; [constructor|].
  apply StronglySorted_inv in Hs as [Hs Hall].
  constructor; [now apply IH|].
  assert (start a = start b) as Es.
  { unfold withoutLayer in Hab. now injection Hab. }
  clear IH Hs. induction Hrest as [|c d s x Hcd Hrest IH2]; [constructor|].
  apply Forall_cons in Hall as [Hac Hall].
  constructor; [|now apply IH2].
  unfold startsLe in *. rewrite <- Es.
  assert (start c = start d) as <-.
  { unfold withoutLayer in Hcd. now injection Hcd. }
  exact Hac.
Qed.

Lemma calculateLabelLayers_sorted labels :
  StronglySorted startsLe (calculateLabelLayers labels).
Proof.
  destruct (fold_placeLabel_cores_eq _ _
              (Forall2_cores_refl (sortByStart labels)) [] [] [])
    as (L & X & H1 & _ & H3).
  unfold calculateLabelLayers. rewrite H1. cbn [snd app].
  apply (sorted_cores _ _ H3). apply sortByStart_sorted.
Qed.

(** X1.  Layering is idempotent: laying out the result of
    [calculateLabelLayers] again returns it unchanged, so the lanes
    depend on the times of the labels only and not on lanes assigned
    before. *)
Theorem calculateLabelLayers_idempotent labels :
  calculateLabelLayers (calculateLabelLayers labels)
  = calculateLabelLayers labels.
Proof.
  destruct (fold_placeLabel_cores_eq _ _
              (Forall2_cores_refl (sortByStart labels)) [] [] [])
    as (L & X & H1 & _ & H3).
  assert (calculateLabelLayers labels = X) as EX.
  { unfold calculateLabelLayers. now rewrite H1. }
  rewrite EX.
  assert (sortByStart X = X) as Hsort.
  { apply sortByStart_sorted_id. rewrite <- EX.
    apply calculateLabelLayers_sorted. }
  destruct (fold_placeLabel_cores_eq _ _ H3 [] [] [])
    as (L2 & X2 & G1 & G2 & _).
  unfold calculateLabelLayers at 1. rewrite Hsort, G2.
  rewrite H1 in G1. injection G1 as _ <-. reflexivity.
Qed.

Lemma sorted_lookup (l : list Label) p q a b :
  StronglySorted startsLe l -> (p < q)%nat ->
  l !! p = Some a -> l !! q = Some b -> start a <= start b.
Proof.
  intros Hs. revert p q. induction Hs as [|x l Hs IH Hall]; intros p q Hpq Ha Hb;
    [discriminate|].
  destruct q as [|q]; [lia|]. simpl in Hb.
  destruct p as [|p].
  - injection Ha as <-. rewrite List.Forall_forall in Hall.
    apply Hall. apply list_elem_of_In, list_elem_of_lookup. now exists q.
  - simpl in Ha. apply (IH p q); [lia | exact Ha | exact Hb].
Qed.

Lemma firstFit_earlier layers k s :
  forall j e, (j < match firstFit layers k s with
                   | Some i => i - k
                   | None => length layers
                   end)%nat ->
              layers !! j = Some e -> s < roundedGap e.
Proof.
  unfold roundedGap.
  revert k. induction layers as [|e0 rest IH]; intros k j e Hj He;
    [discriminate|].
  cbn [firstFit] in Hj.
  destruct (Qle_bool (fadd e0 lit_0_1) s) eqn:E.
  - rewrite Nat.sub_diag in Hj. lia.
  - destruct j as [|j].
    + injection He as <-. now apply Qle_bool_false_lt.
    + apply (IH (S k) j e); [|exact He].
      destruct (firstFit rest (S k) s) as [i|] eqn:F.
      * apply firstFit_range in F. lia.
      * simpl in Hj. lia.
Qed.

Lemma laneEnd_holder placed j e :
  laneEnd placed j = Some e ->
  exists p a, placed !! p = Some a /\ layerIndex a = Some j /\ end_ a = e.
Proof.
  unfold laneEnd. intros H.
  destruct (last (List.filter (inLane j) placed)) as [a|] eqn:E;
    [|discriminate].
  injection H as <-.
  apply last_Some_elem_of in E. apply list_elem_of_In in E.
  apply filter_In in E as [Hin Hlane].
  apply list_elem_of_In, list_elem_of_lookup in Hin as [p Hp].
  exists p, a. split; [exact Hp|]. split; [|reflexivity].
  unfold inLane in Hlane. destruct (layerIndex a) as [k|]; [|discriminate].
  apply Nat.eqb_eq in Hlane. now subst.
Qed.

Lemma placeLabel_blocked layers placed l :
  tracks layers placed ->
  (forall q b k j, placed !! q = Some b -> layerIndex b = Some k ->
     (j < k)%nat ->
     exists p a, (p < q)%nat /\ placed !! p = Some a /\
                 layerIndex a = Some j /\ start b < roundedGap (end_ a)) ->
  let st := placeLabel (layers, placed) l in
  forall q b k j, snd st !! q = Some b -> layerIndex b = Some k ->
     (j < k)%nat ->
     exists p a, (p < q)%nat /\ snd st !! p = Some a /\
                 layerIndex a = Some j /\ start b < roundedGap (end_ a).
Proof.
  intros Ht Hinv st q b k j Hq Hk Hj.
  assert (exists i,
            snd st = placed ++ [setLayerIndex i l] /\
            (forall j e, (j < i)%nat -> layers !! j = Some e ->
                         start l < roundedGap e) /\
            (i <= length layers)%nat) as (i & Est & Hblock & Hi).
  { unfold st, placeLabel.
    pose proof (firstFit_earlier layers 0 (start l)) as F.
    destruct (firstFit layers 0 (start l)) as [i|] eqn:E.
    - exists i. split; [reflexivity|]. split.
      + intros j0 e Hj0. apply F. lia.
      + apply firstFit_range in E. lia.
    - exists (length layers). split; [reflexivity|]. split; [|lia].
      intros j0 e Hj0. now apply F. }
  rewrite Est in Hq |- *.
  apply lookup_snoc_inv in Hq as [Hq|[-> ->]].
  - destruct (Hinv q b k j Hq Hk Hj) as (p & a & Hp & Ha & Hl & Hlt).
    exists p, a. split; [exact Hp|]. split; [|now split].
    apply lookup_app_l_Some. exact Ha.
  - cbn [setLayerIndex layerIndex start] in Hk |- *. injection Hk as <-.
    destruct Ht as [Hends Hcount].
    assert (j < length layers)%nat as Hjl by lia.
    apply lookup_lt_is_Some_2 in Hjl as [e He].
    pose proof (Hblock j e Hj He) as Hlt.
    rewrite <- Hends in He.
    apply laneEnd_holder in He as (p & a & Hp & Ha & <-).
    exists p, a. split; [now apply lookup_lt_Some in Hp|].
    split; [now apply lookup_app_l_Some|]. now split.
Qed.

Lemma fold_placeLabel_blocked sorted : forall layers placed,
  tracks layers placed ->
  (forall q b k j, placed !! q = Some b -> layerIndex b = Some k ->
     (j < k)%nat ->
     exists p a, (p < q)%nat /\ placed !! p = Some a /\
                 layerIndex a = Some j /\ start b < roundedGap (end_ a)) ->
  let st := fold_left placeLabel sorted (layers, placed) in
  forall q b k j, snd st !! q = Some b -> layerIndex b = Some k ->
     (j < k)%nat ->
     exists p a, (p < q)%nat /\ snd st !! p = Some a /\
                 layerIndex a = Some j /\ start b < roundedGap (end_ a).
Proof.
  induction sorted as [|l rest IH]; intros layers placed Ht Hinv;
    [exact Hinv|].
  cbn [fold_left]. cbn zeta.
  pose proof (placeLabel_blocked layers placed l Ht Hinv) as Hinv'.
  destruct (placeLabel_tracks layers placed l Ht) as [Ht' _].
  cbn zeta in Hinv'.
  destruct (placeLabel (layers, placed) l) as [layers' placed'].
  now apply IH.
Qed.

(** A start that fails the test of a lane ending at [e >= 0] is less
    than 0.1 after [e]: the sum [e + 0.1] is rounded to the double next
    to it, and no double lies between the two. *)
Lemma blocked_exact e s :
  isDouble s -> 0 <= e -> s < roundedGap e -> s < e + (1 # 10).
Proof.
  intros Hd He Hlt. unfold roundedGap, fadd in Hlt.
  apply Qnot_le_lt. intros Hge.
  assert (Hs : 0 < s) by lra.
  assert (Hx : 0 < e + lit_0_1) by (rewrite lit_0_1_value; lra).
  destruct (Qlt_le_dec s (e + lit_0_1)) as [Hsx|Hxs].
  - assert (Hr : roundPos s == s).
    { rewrite <- (round64_pos s Hs). exact Hd. }
    assert (Hb : (-4 <= binade s)%Z).
    { assert (E : binade (1 # 16) = (-4)%Z) by (vm_compute; reflexivity).
      rewrite <- E. apply binade_le; lra. }
    assert (Hu : 2 ^ (-56) <= ulp s).
    { rewrite ulp_expo. apply pow2_le. unfold expo. lia. }
    assert (E56 : 2 ^ (-56) == 1 # 72057594037927936) by reflexivity.
    rewrite E56 in Hu.
    assert (Hnear : e + lit_0_1 < s + ulp s * (1 # 2)).
    { rewrite lit_0_1_value in *. lra. }
    pose proof (roundPos_down s (e + lit_0_1) Hs Hr (Qlt_le_weak _ _ Hsx)
                  Hnear) as Hdown.
    rewrite (round64_pos _ Hx) in Hlt. lra.
  - apply round64_le in Hxs. unfold isDouble in Hd. lra.
Qed.

(** X2.  No lane is used without need: when a label is laid out in lane
    [k], every lane below [k] holds a label that comes earlier in the
    result, starts no later and failed the test of the lane: the label
    starts before the rounded sum of that end and 0.1.  For a start that
    is a double and an end at 0 or later, the label then starts less than
    0.1 s after that end.  So [k + 1] labels are then in progress, the
    gap counted in, and fewer lanes would not do. *)
Theorem calculateLabelLayers_lanes_needed labels q b k j :
  calculateLabelLayers labels !! q = Some b ->
  layerIndex b = Some k ->
  (j < k)%nat ->
  exists p a,
    (p < q)%nat /\ calculateLabelLayers labels !! p = Some a /\
    layerIndex a = Some j /\
    start a <= start b /\ start b < fadd (end_ a) lit_0_1 /\
    (isDouble (start b) -> 0 <= end_ a -> start b < end_ a + (1 # 10)).
Proof.
  intros Hq Hk Hj.
  assert (forall q b k j, ([] : list Label) !! q = Some b ->
            layerIndex b = Some k -> (j < k)%nat ->
            exists p a, (p < q)%nat /\ ([] : list Label) !! p = Some a /\
                        layerIndex a = Some j /\
                        start b < roundedGap (end_ a))
    as Hnil by (intros ? ? ? ? H; discriminate).
  pose proof (fold_placeLabel_blocked (sortByStart labels) [] []
                tracks_nil Hnil) as H.
  cbn zeta in H. fold (calculateLabelLayers labels) in H.
  destruct (H q b k j Hq Hk Hj) as (p & a & Hp & Ha & Hl & Hlt).
  exists p, a. split; [exact Hp|]. split; [exact Ha|]. split; [exact Hl|].
  split; [|split; [exact Hlt|]].
  - exact (sorted_lookup _ p q a b (calculateLabelLayers_sorted labels)
             Hp Ha Hq).
  - intros Hd He. now apply blocked_exact.
Qed.

Lemma calculateLabelLayers_lanes_needed_witness :
  exists p a,
    (p < 1)%nat /\ calculateLabelLayers threeLabels !! p = Some a /\
    layerIndex a = Some 0%nat /\
    start a <= 3 /\ 3 < fadd (end_ a) lit_0_1 /\
    (isDouble 3 -> 0 <= end_ a -> 3 < end_ a + (1 # 10)).
Proof.
  apply (calculateLabelLayers_lanes_needed threeLabels 1%nat
           (setLayerIndex 1 (lbl 3 8)) 1%nat 0%nat).
  - vm_compute. reflexivity.
  - reflexivity.
  - lia.
Defined.

End LayeringMore.
(* ----------------------------------------------------------------- *)
(** ** File names *)

Section FileNames.

Local Open Scope string_scope.

Variable numberToString : Q -> string.

Lemma extensionAt_dot s1 s2 : extensionAt (s1 ++ "." ++ s2) = false.
Proof.
  induction s1 as [|c s1 IH].
  - simpl. now destruct s2.
  - change (String c s1 ++ "." ++ s2) with (String c (s1 ++ "." ++ s2)).
    destruct (s1 ++ "." ++ s2) as [|d rest] eqn:E.
    + destruct s1; discriminate.
    + cbn [extensionAt]. cbn [extensionAt] in IH. rewrite IH.
      apply andb_false_r.
Qed.

(** X3.  The base name of a file name that ends in a dot and an
    extension (one character or more, none of them a dot or a slash) is
    the name without the dot and the extension, whatever dots and slashes
    come before; the CSV and the Audacity export then suggest that base
    name followed by [_annotations.csv] and [_labels.txt]. *)
Theorem getBaseName_strips_extension base ext labels :
  extensionAt ext = true ->
  getBaseName (base ++ "." ++ ext) = base /\
  suggestedName (exportToCSV numberToString labels (base ++ "." ++ ext))
  = base ++ "_annotations.csv" /\
  suggestedName (exportToAudacity numberToString labels (base ++ "." ++ ext))
  = base ++ "_labels.txt".
Proof.
  intros Hext.
  assert (getBaseName (base ++ "." ++ ext) = base) as H.
  { induction base as [|c base IH].
    - simpl. now rewrite Hext.
    - change (String c base ++ "." ++ ext) with (String c (base ++ "." ++ ext)).
      cbn [getBaseName]. rewrite extensionAt_dot, andb_false_r.
      now rewrite IH. }
  unfold exportToCSV, exportToAudacity. cbn [suggestedName].
  now rewrite H.
Qed.

End FileNames.

Lemma getBaseName_strips_extension_witness :
  getBaseName "rec.2024/song.v2.wav" = "rec.2024/song.v2"%string.
Proof.
  apply (getBaseName_strips_extension (fun _ => ""%string)
           "rec.2024/song.v2" "wav" []).
  reflexivity.
Defined.

(* ----------------------------------------------------------------- *)
(** ** The CSV export *)

Section CsvExport.

Local Open Scope string_scope.

Variable numberToString : Q -> string.

Lemma fold_left_csv labels : forall acc,
  fold_left
    (fun csvContent l =>
       csvContent ++
         ((QUOTE ++ escapeQuotes (text l) ++ QUOTE) ++ "," ++
            toFixed numberToString (start l) 4 ++ "," ++
            toFixed numberToString (end_ l) 4 ++ NL))
    labels acc
  = acc ++ String.concat "" (map (csvLine numberToString) labels).
Proof.
  induction labels as [|l rest IH]; intros acc; cbn [fold_left map].
  - simpl. now rewrite append_nil_r.
  - rewrite IH, append_assoc. f_equal.
    assert ((QUOTE ++ escapeQuotes (text l) ++ QUOTE) ++ "," ++
              toFixed numberToString (start l) 4 ++ "," ++
              toFixed numberToString (end_ l) 4 ++ NL
            = csvLine numberToString l) as ->.
    { unfold csvLine, csvTimes. now rewrite !append_assoc. }
    destruct rest; simpl; [now rewrite append_nil_r | reflexivity].
Qed.

Lemma readQuotedBody_escape t rest :
  (forall r, rest <> String QUOTE_CHAR r) ->
  readQuotedBody (escapeQuotes t ++ QUOTE ++ rest) = Some (t, rest).
Proof.
  intros Hrest. induction t as [|c t IH].
  - simpl. destruct rest as [|d rest']; [reflexivity|].
    destruct (Ascii.eqb_spec d QUOTE_CHAR) as [->|_]; [|reflexivity].
    now destruct (Hrest rest').
  - cbn [escapeQuotes].
    destruct (Ascii.eqb_spec c QUOTE_CHAR) as [->|Hne].
    + change (readQuotedBody
                (String QUOTE_CHAR
                   (String QUOTE_CHAR (escapeQuotes t ++ QUOTE ++ rest)))
              = Some (String QUOTE_CHAR t, rest)).
      cbn [readQuotedBody]. rewrite !Ascii.eqb_refl. now rewrite IH.
    + change (readQuotedBody (String c (escapeQuotes t ++ QUOTE ++ rest))
              = Some (String c t, rest)).
      cbn [readQuotedBody].
      destruct (Ascii.eqb_spec c QUOTE_CHAR) as [|_]; [contradiction|].
      now rewrite IH.
Qed.

(** X4.  The content that [exportToCSV] saves is the header
    [Label,Start,End] and then, label by label in list order, one record:
    the text between quotes with every quote doubled, then the start and
    the end with four decimals.  Reading the quoted field of a record
    gives back the text of the label exactly, whatever commas, quotes and
    line breaks it holds, and leaves the two numbers. *)
Theorem exportToCSV_records (labels : list Label) (filename : string) :
  content (exportToCSV numberToString labels filename)
  = "Label,Start,End" ++ NL
      ++ String.concat "" (map (csvLine numberToString) labels)
  /\ (forall l more,
        readQuoted (csvLine numberToString l ++ more)
        = Some (text l, csvTimes numberToString l ++ more)).
Proof.
  split.
  - unfold exportToCSV. cbn [content].
    rewrite fold_left_csv. now rewrite append_assoc.
  - intros l more. unfold csvLine.
    change (QUOTE ++ escapeQuotes (text l) ++ QUOTE ++ csvTimes numberToString l)
      with (String QUOTE_CHAR
              (escapeQuotes (text l) ++ QUOTE ++ csvTimes numberToString l)).
    cbn [append readQuoted]. rewrite Ascii.eqb_refl.
    rewrite !append_assoc.
    apply readQuotedBody_escape.
    intros r. unfold csvTimes. discriminate.
Qed.

End CsvExport.
(* ----------------------------------------------------------------- *)
(** ** The time format *)

Section TimeFormat.

Local Open Scope string_scope.

Variable numberToString : Q -> string.

Lemma Qfloor_unique (y : Q) (z : Z) :
  (inject_Z z <= y)%Q -> (y < inject_Z (z + 1))%Q -> Qfloor y = z.
Proof.
  intros H1 H2.
  pose proof (Qfloor_le y) as F1. pose proof (Qlt_floor y) as F2.
  assert (inject_Z z < inject_Z (Qfloor y + 1))%Q as A by lra.
  assert (inject_Z (Qfloor y) < inject_Z (z + 1))%Q as B by lra.
  rewrite <- Zlt_Qlt in A, B. lia.
Qed.

Lemma intToString_small z :
  (0 <= z < 2 ^ 53)%Z -> intToString numberToString z = digits z.
Proof.
  intros H. unfold intToString.
  rewrite Z.abs_eq by lia.
  destruct (Z.ltb_spec z (2 ^ 53)) as [_|]; [|lia].
  destruct (Z.ltb_spec z 0) as [|_]; [lia|]. reflexivity.
Qed.

Lemma padStart2_digits z :
  (0 <= z < 100)%Z ->
  String.length (padStart2 (digits z)) = 2%nat /\
  allDigits (padStart2 (digits z)) = true /\
  valueOf (padStart2 (digits z)) = Some (Z.to_N z).
Proof.
  intros H.
  assert (forallb
            (fun z =>
               (String.length (padStart2 (digits z)) =? 2)%nat
               && allDigits (padStart2 (digits z))
               && match valueOf (padStart2 (digits z)) with
                  | Some n => N.eqb n (Z.to_N z)
                  | None => false
                  end)
            (seqZ 0 100) = true) as Hall by (vm_compute; reflexivity).
  rewrite forallb_forall in Hall.
  specialize (Hall z). 
  assert (In z (seqZ 0 100)) as Hin.
  { apply list_elem_of_In. apply elem_of_seqZ. lia. }
  apply Hall in Hin.
  apply andb_true_iff in Hin as [Hin H3].
  apply andb_true_iff in Hin as [H1 H2].
  apply Nat.eqb_eq in H1.
  destruct (valueOf (padStart2 (digits z))) as [n|]; [|discriminate].
  apply N.eqb_eq in H3. now subst n.
Qed.

(** The fraction of a double that is not negative is at most
    [1 - 2^-53]: the doubles below 1 end there, and those from 1 on are
    multiples of [2^-52]. *)
Lemma double_fraction (t : Q) :
  isDouble t -> (0 <= t)%Q ->
  (t - inject_Z (Qfloor t) <= 1 - (1 # 9007199254740992))%Q.
Proof.
  intros Hd H0.
  pose proof (Qfloor_le t) as F1. pose proof (Qlt_floor t) as F2.
  rewrite inject_Z_plus in F2. change (inject_Z 1) with 1%Q in F2.
  assert (F0 : (0 <= inject_Z (Qfloor t))%Q).
  { change 0%Q with (inject_Z 0). rewrite <- Zle_Qle.
    change 0%Z with (Qfloor 0). apply Qfloor_resp_le. exact H0. }
  destruct (Qlt_le_dec 0 t) as [Hpos|Hle]; [|lra].
  assert (Hr : (roundPos t == t)%Q).
  { rewrite <- (round64_pos t Hpos). exact Hd. }
  pose proof (ulp_pos t) as Hu.
  destruct (scaled_range t Hpos) as (S1 & _ & _).
  set (n := rne (t / ulp t)) in *.
  assert (Es : (t == inject_Z n * ulp t)%Q) by (symmetry; exact Hr).
  rewrite (div_ulp t n (ulp t) Hu Es) in S1. rewrite <- Zlt_Qlt in S1.
  rewrite ulp_expo in Es, Hu.
  destruct (Z_le_gt_dec 0 (expo t)) as [He|He].
  - (* a multiple of 2^-52 *)
    assert (E52 : (2 ^ (expo t - 52) * inject_Z (2 ^ 52)
                   == inject_Z (2 ^ expo t))%Q).
    { rewrite !pow2_Z by lia. rewrite <- pow2_plus.
      replace (expo t - 52 + 52)%Z with (expo t) by lia. reflexivity. }
    set (J := (n * 2 ^ expo t - Qfloor t * 2 ^ 52)%Z).
    assert (EJ : (inject_Z J
                  == (t - inject_Z (Qfloor t)) * inject_Z (2 ^ 52))%Q).
    { unfold J, Z.sub.
      rewrite inject_Z_plus, inject_Z_opp, !inject_Z_mult, <- E52.
      rewrite Qmult_assoc, <- Es. ring. }
    assert (HJ : (J < 2 ^ 52)%Z).
    { rewrite Zlt_Qlt, EJ.
      assert (0 < inject_Z (2 ^ 52))%Q by reflexivity.
      set (P := inject_Z (2 ^ 52)) in *. clearbody P.
      set (fr := (t - inject_Z (Qfloor t))%Q) in *.
      assert (fr < 1)%Q by (unfold fr; lra). nra. }
    assert (HJ' : (inject_Z J <= inject_Z (2 ^ 52 - 1))%Q).
    { rewrite <- Zle_Qle. lia. }
    rewrite EJ in HJ'.
    change (inject_Z (2 ^ 52 - 1)) with (4503599627370495 # 1)%Q in HJ'.
    change (inject_Z (2 ^ 52)) with (4503599627370496 # 1)%Q in HJ'.
    lra.
  - (* below 1 *)
    assert (Hn : (inject_Z n <= inject_Z (2 ^ 53 - 1))%Q).
    { rewrite <- Zle_Qle. lia. }
    assert (Hp : (2 ^ (expo t - 52) <= 2 ^ (-53))%Q) by (apply pow2_le; lia).
    assert (E53 : (2 ^ (-53) == 1 # 9007199254740992)%Q) by reflexivity.
    rewrite E53 in Hp.
    change (inject_Z (2 ^ 53 - 1)) with (9007199254740991 # 1)%Q in Hn.
    assert (0 <= inject_Z n)%Q.
    { destruct (Qlt_le_dec (inject_Z n) 0) as [Hneg|]; [|assumption].
      exfalso. set (u := (2 ^ (expo t - 52))%Q) in *. nra. }
    assert (t <= 1 - (1 # 9007199254740992))%Q.
    { rewrite Es. set (u := (2 ^ (expo t - 52))%Q) in *.
      set (N := inject_Z n) in *. clearbody u N. nra. }
    lra.
Qed.

(** X5.  For a time that is a double of 0 s or more (below [2^53]),
    [formatTime] prints the minutes, a colon, two digits of seconds
    below 60, a point and two digits of hundredths.  The seconds are the
    whole seconds of the time modulo 60; the minutes are the integer
    part of the rounded quotient by 60 and the hundredths the integer
    part of the rounded product of the fraction and 100, as the program
    computes them. *)
Theorem formatTime_fields (seconds : Q) :
  isDouble seconds ->
  (0 <= seconds)%Q -> (seconds < inject_Z (2 ^ 53))%Q ->
  exists mm ss cc m s c,
    formatTime numberToString seconds = mm ++ ":" ++ ss ++ "." ++ cc /\
    allDigits (mm ++ ss ++ cc) = true /\
    String.length ss = 2%nat /\ String.length cc = 2%nat /\
    valueOf mm = Some m /\ valueOf ss = Some s /\ valueOf cc = Some c /\
    (s < 60)%N /\ (c < 100)%N /\
    Z.of_N m = Qfloor (fdiv seconds 60) /\
    Z.of_N s = (Qfloor seconds mod 60)%Z /\
    Z.of_N c = Qfloor (fmul (seconds - inject_Z (Qfloor seconds)) 100).
Proof.
  intros Hd H0 Hmax. unfold formatTime.
  set (m := Qfloor (fdiv seconds 60)).
  assert (0 <= m)%Z as Hm0.
  { unfold m. change 0%Z with (Qfloor 0). apply Qfloor_resp_le.
    apply round64_nonneg.
    apply Qle_shift_div_l; [reflexivity | lra]. }
  assert (m < 2 ^ 53)%Z as Hm1.
  { assert (fdiv seconds 60 <= round64 (inject_Z (2 ^ 53) / 60))%Q as Hq.
    { apply round64_le. apply Qmult_le_compat_r; [lra | discriminate]. }
    assert (round64 (inject_Z (2 ^ 53) / 60) < inject_Z (2 ^ 53))%Q as Hv
      by (vm_compute; reflexivity).
    pose proof (Qfloor_le (fdiv seconds 60)) as M1. fold m in M1.
    rewrite Zlt_Qlt. lra. }
  set (M := Qfloor (seconds / 60)).
  assert (seconds / 60 * 60 == seconds)%Q as E60 by field.
  assert (seconds / 1 == seconds)%Q as E1 by field.
  pose proof (Qfloor_le (seconds / 60)) as M1.
  pose proof (Qlt_floor (seconds / 60)) as M2. fold M in M1, M2.
  rewrite inject_Z_plus in M2. change (inject_Z 1) with 1%Q in M2.
  assert (jsRem seconds 60 == seconds - 60 * inject_Z M)%Q as R60.
  { unfold jsRem, truncQ.
    destruct (Qle_bool 0 (seconds / 60)) eqn:E; [reflexivity|].
    apply Qle_bool_false_lt in E. set (q := (seconds / 60)%Q) in *. lra. }
  set (n := Qfloor seconds).
  pose proof (Qfloor_le seconds) as N1.
  pose proof (Qlt_floor seconds) as N2. fold n in N1, N2.
  rewrite inject_Z_plus in N2. change (inject_Z 1) with 1%Q in N2.
  assert (jsRem seconds 1 == seconds - inject_Z n)%Q as R1.
  { unfold jsRem, truncQ.
    assert (Qle_bool 0 (seconds / 1) = true) as ->.
    { apply Qle_bool_iff. lra. }
    assert (Qfloor (seconds / 1) = n) as -> by (unfold n; now rewrite E1).
    ring. }
  set (s := Qfloor (jsRem seconds 60)).
  pose proof (Qfloor_le (jsRem seconds 60)) as S1.
  pose proof (Qlt_floor (jsRem seconds 60)) as S2. fold s in S1, S2.
  rewrite inject_Z_plus in S2. change (inject_Z 1) with 1%Q in S2.
  rewrite R60 in S1, S2.
  assert (fmul (jsRem seconds 1) 100
          == fmul (seconds - inject_Z n) 100)%Q as Ec.
  { unfold fmul. now rewrite R1. }
  set (c := Qfloor (fmul (jsRem seconds 1) 100)).
  assert (c = Qfloor (fmul (seconds - inject_Z n) 100)) as Hcdef.
  { unfold c. now rewrite Ec. }
  set (q := (seconds / 60)%Q) in *.
  assert (0 <= s < 60)%Z as Hs.
  { split.
    - apply Zlt_succ_le. rewrite Zlt_Qlt. unfold Z.succ.
      rewrite inject_Z_plus. change (inject_Z 0) with 0%Q.
      change (inject_Z 1) with 1%Q. lra.
    - rewrite Zlt_Qlt. change (inject_Z 60) with 60%Q. lra. }
  assert (0 <= c < 100)%Z as Hc.
  { rewrite Hcdef.
    pose proof (double_fraction seconds Hd H0) as Hfr. fold n in Hfr.
    set (fr := (seconds - inject_Z n)%Q) in *.
    assert (0 <= fr)%Q by (unfold fr; lra).
    split.
    - change 0%Z with (Qfloor 0). apply Qfloor_resp_le.
      apply round64_nonneg. clearbody fr. nra.
    - assert (fmul fr 100
              <= round64 ((1 - (1 # 9007199254740992)) * 100))%Q as Hq.
      { apply round64_le. clearbody fr. nra. }
      assert (round64 ((1 - (1 # 9007199254740992)) * 100) < 100)%Q as Hv
        by (vm_compute; reflexivity).
      pose proof (Qfloor_le (fmul fr 100)) as C1.
      rewrite Zlt_Qlt. change (inject_Z 100) with 100%Q. lra. }
  assert (n = 60 * M + s)%Z as Hn.
  { unfold n. apply Qfloor_unique.
    - rewrite inject_Z_plus, inject_Z_mult. change (inject_Z 60) with 60%Q. lra.
    - rewrite !inject_Z_plus, inject_Z_mult. change (inject_Z 60) with 60%Q.
      change (inject_Z 1) with 1%Q. lra. }
  rewrite (intToString_small m) by lia.
  rewrite (intToString_small s) by lia.
  rewrite (intToString_small c) by lia.
  destruct (padStart2_digits s ltac:(lia)) as (Ls & Ds & Vs).
  destruct (padStart2_digits c ltac:(lia)) as (Lc & Dc & Vc).
  exists (digits m), (padStart2 (digits s)), (padStart2 (digits c)),
         (Z.to_N m), (Z.to_N s), (Z.to_N c).
  split; [reflexivity|]. split.
  { rewrite !allDigits_append, Ds, Dc.
    unfold digits. now rewrite allDigits_string_of_uint. }
  split; [exact Ls|]. split; [exact Lc|].
  split; [now apply valueOf_digits|]. split; [exact Vs|]. split; [exact Vc|].
  split; [lia|]. split; [lia|].
  split; [lia|]. split.
  - rewrite Z2N.id by lia. rewrite Hn.
    rewrite Z.add_comm, Z.mul_comm, Z.mod_add by lia.
    symmetry. apply Z.mod_small. lia.
  - rewrite Z2N.id by lia. exact Hcdef.
Qed.

End TimeFormat.

Lemma formatTime_fields_witness :
  exists mm ss cc,
    formatTime (fun _ => ""%string) (301 # 4)
    = (mm ++ ":" ++ ss ++ "." ++ cc)%string /\
    String.length ss = 2%nat /\ String.length cc = 2%nat.
Proof.
  destruct (formatTime_fields (fun _ => ""%string) (301 # 4))
    as (mm & ss & cc & m & s & c & H1 & _ & H2 & H3 & _).
  - vm_compute. reflexivity.
  - discriminate.
  - reflexivity.
  - exists mm, ss, cc. split; [exact H1|]. split; [exact H2 | exact H3].
Defined.

(* ----------------------------------------------------------------- *)
(** ** The label view under any events *)

Section Interaction.

Import Spectrogram.
Local Open Scope Q_scope.

#[local] Instance isDouble_comp : Proper (Qeq ==> iff) isDouble.
Proof.
  intros x y H. unfold isDouble. now rewrite H.
Qed.

Lemma isDouble_0 : isDouble 0.
Proof. apply round64_zero. reflexivity. Qed.

Lemma isDouble_max a b : isDouble a -> isDouble b -> isDouble (Qmax a b).
Proof.
  intros Ha Hb.
  destruct (Q.max_spec a b) as [[_ E]|[_ E]]; now rewrite E.
Qed.

Lemma isDouble_min a b : isDouble a -> isDouble b -> isDouble (Qmin a b).
Proof.
  intros Ha Hb.
  destruct (Q.min_spec a b) as [[_ E]|[_ E]]; now rewrite E.
Qed.

Lemma lit_0_05_nonneg : 0 <= lit_0_05.
Proof. vm_compute. discriminate. Qed.

(** Adding a number that is not negative to a double, or taking it off,
    does not cross the double. *)
Lemma fadd_ge a b : isDouble a -> 0 <= b -> a <= fadd a b.
Proof.
  intros Ha Hb. unfold isDouble in Ha. unfold fadd.
  apply Qle_trans with (round64 a); [rewrite Ha; apply Qle_refl|].
  apply round64_le. lra.
Qed.

Lemma fsub_le a b : isDouble a -> 0 <= b -> fsub a b <= a.
Proof.
  intros Ha Hb. unfold isDouble in Ha. unfold fsub.
  apply Qle_trans with (round64 a); [|rewrite Ha; apply Qle_refl].
  apply round64_le. lra.
Qed.

Lemma getPointerTime_nonneg props sc clientX :
  0 <= getPointerTime props sc clientX.
Proof.
  unfold getPointerTime. destruct (containerLeft props); [|lra].
  apply Q.le_max_l.
Qed.

Lemma getPointerTime_double props sc clientX :
  isDouble (duration props) -> isDouble (getPointerTime props sc clientX).
Proof.
  intros Hd. unfold getPointerTime.
  destruct (containerLeft props); [|apply isDouble_0].
  apply isDouble_max; [apply isDouble_0|].
  apply isDouble_min; [apply round64_idem | exact Hd].
Qed.

Lemma storedLabel_resize rid side t l :
  0 <= t -> isDouble t ->
  storedLabel l -> storedLabel (resizeLabel rid side t l).
Proof.
  unfold storedLabel, resizeLabel. intros Ht Hdt (H1 & H2 & H3 & H4).
  destruct (String.eqb (id l) rid); [|now repeat split].
  destruct side; cbn [withStart withEnd start end_].
  - pose proof (fsub_le (end_ l) lit_0_05 H4 lit_0_05_nonneg).
    pose proof (Q.le_min_r t (fsub (end_ l) lit_0_05)).
    split; [lra|]. split; [exact H2|]. split; [|exact H4].
    apply isDouble_min; [exact Hdt | apply round64_idem].
  - pose proof (fadd_ge (start l) lit_0_05 H3 lit_0_05_nonneg).
    pose proof (Q.le_max_r t (fadd (start l) lit_0_05)).
    pose proof (Q.le_max_l t (fadd (start l) lit_0_05)).
    split; [lra|]. split; [lra|]. split; [exact H3|].
    apply isDouble_max; [exact Hdt | apply round64_idem].
Qed.

Lemma storedLabel_drag did startOffset t l :
  storedLabel l -> storedLabel (dragLabel did startOffset t l).
Proof.
  unfold storedLabel, dragLabel. intros (H1 & H2 & H3 & H4).
  destruct (String.eqb (id l) did); [|now repeat split].
  cbn [withStartEnd start end_].
  set (newStart := Qmax 0 (fsub t startOffset)).
  assert (0 <= newStart) as Hn by apply Q.le_max_l.
  assert (isDouble newStart) as Hdn.
  { apply isDouble_max; [apply isDouble_0 | apply round64_idem]. }
  assert (0 <= fsub (end_ l) (start l)) as Hlen.
  { apply round64_nonneg. lra. }
  pose proof (fadd_ge newStart _ Hdn Hlen).
  split; [lra|]. split; [lra|]. split; [exact Hdn | apply round64_idem].
Qed.

Lemma storedLabel_changeText cfgs lid newText l :
  storedLabel l -> storedLabel (changeLabelText cfgs lid newText l).
Proof.
  unfold storedLabel, changeLabelText. intros H.
  destruct (String.eqb (id l) lid); [|exact H].
  destruct (List.find _ cfgs); [exact H|].
  destruct (_ && _); exact H.
Qed.

Lemma Forall_filter_keep {A} (P : A -> Prop) (f : A -> bool) (l : list A) :
  Forall P l -> Forall P (List.filter f l).
Proof.
  induction 1 as [|x l Hx Hl IH]; simpl; [constructor|].
  destruct (f x); [constructor|]; assumption.
Qed.

Lemma Forall_map_keep {A} (P : A -> Prop) (f : A -> A) (l : list A) :
  (forall x, P x -> P (f x)) -> Forall P l -> Forall P (map f l).
Proof.
  intros Hf. induction 1; simpl; constructor; auto.
Qed.

Lemma handleWheel_scroll_nonneg props cw ws ctrl cx dx dy sc :
  0 <= sc -> 0 <= fst (handleWheel props cw ws ctrl cx dx dy sc).
Proof.
  intros Hsc. unfold handleWheel.
  destruct ctrl.
  - destruct (containerLeft props); cbn [fst]; [|exact Hsc]. apply Q.le_max_l.
  - cbn [fst]. apply Q.le_max_l.
Qed.

Lemma syncScroll_nonneg props cw t : 0 <= syncScroll props cw t.
Proof.
  unfold syncScroll.
  destruct (Qlt_le_dec 0 _); lra.
Qed.

Lemma step_viewInvariant props ev st :
  renderProps props ->
  viewInvariant st -> viewInvariant (step props ev st).
Proof.
  intros [Hdur _] (Hl & Hc & Hs). destruct ev; cbn [step].
  - (* MouseDown *)
    unfold handleMouseDown.
    destruct (button =? 2)%Z; [now split|].
    destruct target; try (now split);
      destruct (match containerLeft props with
                | Some rleft => negb (Qle_bool 50 (fsub clientX rleft))
                | None => false end);
      try (now split).
    split; [exact Hl|]. split; [|exact Hs].
    cbn [creatingLabel]. intros s c [= <- <-].
    repeat split; first [apply getPointerTime_nonneg
                        | now apply getPointerTime_double].
  - (* LabelMouseDown *)
    unfold labelMouseDown. destruct (button =? 1)%Z.
    + split; [|now split]. cbn [labels]. now apply Forall_filter_keep.
    + now split.
  - (* EdgeMouseDown *)
    now split.
  - (* MouseMove *)
    unfold handleMouseMove.
    destruct (dragStart st) as [[x scroll]|].
    { split; [exact Hl|]. split; [exact Hc|]. cbn [scrollLeft].
      apply Q.le_max_l. }
    destruct (creatingLabel st) as [[s c0]|] eqn:Ec.
    { split; [exact Hl|]. split; [|exact Hs].
      cbn [creatingLabel]. intros s' c' [= <- <-].
      destruct (Hc s c0 eq_refl) as (Hs0 & _ & Hds & _).
      repeat split; first [assumption | apply getPointerTime_nonneg
                          | now apply getPointerTime_double]. }
    destruct (resizingLabel st) as [[[rid side] o]|].
    { split; [|split; [|exact Hs]].
      - cbn [labels]. apply Forall_map_keep; [|exact Hl].
        intros l. apply storedLabel_resize;
          [apply getPointerTime_nonneg | now apply getPointerTime_double].
      - cbn [creatingLabel]. intros ? ? ?. congruence. }
    destruct (draggedLabel st) as [[did off]|].
    { split; [|split; [|exact Hs]].
      - cbn [labels]. apply Forall_map_keep; [|exact Hl].
        intros l. apply storedLabel_drag.
      - cbn [creatingLabel]. intros ? ? ?. congruence. }
    split; [exact Hl|]. split; [intros ? ? ?; congruence | exact Hs].
  - (* MouseUp *)
    unfold handleMouseUp.
    split; [|split; [discriminate | exact Hs]].
    cbn [labels]. destruct (creatingLabel st) as [[s c]|] eqn:Ec;
      [|exact Hl].
    destruct (Qlt_le_dec lit_0_05 (fsub (Qmax s c) (Qmin s c))) as [Hlt|_];
      [|exact Hl].
    cbn [fst]. apply Forall_app. split; [exact Hl|].
    constructor; [|constructor].
    destruct (Hc s c eq_refl) as (H1 & H2 & H3 & H4).
    unfold storedLabel. cbn [start end_].
    pose proof (Q.le_min_l s c). pose proof (Q.le_max_l s c).
    split; [lra|]. split; [lra|].
    split; [now apply isDouble_min | now apply isDouble_max].
  - (* Wheel *)
    split; [exact Hl|]. split; [exact Hc|]. cbn [withScrollLeft scrollLeft].
    now apply handleWheel_scroll_nonneg.
  - (* PlaybackTick *)
    split; [exact Hl|]. split; [exact Hc|]. cbn [withScrollLeft scrollLeft].
    apply syncScroll_nonneg.
  - (* TextChange *)
    split; [|now split]. cbn [handleTextChange labels].
    apply Forall_map_keep; [|exact Hl].
    intros l. apply storedLabel_changeText.
  - (* DeleteClick *)
    split; [|now split]. cbn [handleDeleteClick labels].
    now apply Forall_filter_keep.
Qed.

(** X6.  Whatever the presses, moves, releases, wheel turns, playback
    ticks, text edits and deletions, and whatever the props of each
    render (the duration being a double and the zoom positive): no label
    of the list ends before it starts or before 0, the label times stay
    doubles, and the view is never scrolled left of 0.  The arithmetic is
    the rounded one of the handlers. *)
Theorem run_keeps_labels_stored (events : list (Props * Event)) (st : State) :
  Forall (fun pe => renderProps (fst pe)) events ->
  viewInvariant st -> viewInvariant (run events st).
Proof.
  revert st. induction events as [|[p ev] rest IH]; intros st Hd H.
  - exact H.
  - apply Forall_cons in Hd as [Hp Hrest].
    apply IH; [exact Hrest|]. now apply step_viewInvariant.
Qed.

Lemma run_keeps_labels_stored_witness :
  viewInvariant
    (run [ (tenSeconds, MouseDown 0 onCanvas 100);
           (tenSeconds, MouseMove 200);
           (tenSeconds, MouseUp "n1") ] idle).
Proof.
  apply run_keeps_labels_stored.
  - repeat constructor; vm_compute; reflexivity.
  - split; [constructor|]. split; [discriminate|]. cbn. lra.
Defined.

End Interaction.
(* ----------------------------------------------------------------- *)
(** ** The geometry of the view *)

Section ViewGeometry.

Import Spectrogram.
Local Open Scope Q_scope.

Lemma labelTop_lanes (a b : Label) i j :
  layerIndex a = Some i -> layerIndex b = Some j -> (i < j)%nat ->
  labelTop a + 30 <= labelTop b.
Proof.
  intros Ha Hb Hlt. unfold labelTop. rewrite Ha, Hb.
  assert (inject_Z (Z.of_nat i) + 1 <= inject_Z (Z.of_nat j)) as H.
  { change 1 with (inject_Z 1). rewrite <- inject_Z_plus, <- Zle_Qle. lia. }
  lra.
Qed.

(** X7.  The boxes drawn for two labels of the layered list never
    overlap: in different lanes one box ends above the other, and in the
    same lane one box ends left of the other, provided the boxes are 2
    pixels wide or wider, or the 0.1 s gap is at least the 2 pixel
    minimum width (20 pixels per second or more) and the labels are a
    millisecond long or longer and end between 0 and [2^32] seconds.  The
    labels start before they end and their times are doubles. *)
Theorem label_boxes_disjoint props sc labels p q a b :
  Forall wellFormed labels ->
  Forall doubleTimes labels ->
  0 < pixelsPerSecond props ->
  (20 <= pixelsPerSecond props /\ Forall ordinaryTimes labels) \/
  (2 <= labelWidth props a /\ 2 <= labelWidth props b) ->
  p <> q ->
  calculateLabelLayers labels !! p = Some a ->
  calculateLabelLayers labels !! q = Some b ->
  (labelTop a + 30 <= labelTop b \/ labelTop b + 30 <= labelTop a) \/
  (labelLeft props sc a + labelShownWidth props a <= labelLeft props sc b \/
   labelLeft props sc b + labelShownWidth props b <= labelLeft props sc a).
Proof.
  intros Hwf Hdt Hp Hw Hne Ha Hb.
  destruct (calculateLabelLayers_gap labels Hwf Hdt) as [Hlane _].
  destruct (Hlane p a Ha) as [i Hi].
  destruct (Hlane q b Hb) as [j Hj].
  pose proof (calculateLabelLayers_cores labels) as Hperm.
  destruct (Nat.lt_total i j) as [Hlt|[Heq|Hgt]].
  - left. left. now apply (labelTop_lanes a b i j).
  - right. subst j.
    assert (forall p q a b,
              p <> q ->
              calculateLabelLayers labels !! p = Some a ->
              calculateLabelLayers labels !! q = Some b ->
              layerIndex a = layerIndex b ->
              (20 <= pixelsPerSecond props /\ Forall ordinaryTimes labels) \/
              2 <= labelWidth props a ->
              start a <= start b ->
              labelLeft props sc a + labelShownWidth props a
              <= labelLeft props sc b) as Hside.
    { clear - Hwf Hdt Hp Hperm. intros p q a b Hne Ha Hb Hsame Hw Hle.
      pose proof (same_lane_gap labels p q a b Hwf Hdt Hne Ha Hb Hsame Hle)
        as Hgap.
      assert (In a (calculateLabelLayers labels)) as Hin.
      { apply list_elem_of_In, list_elem_of_lookup. now exists p. }
      pose proof (wellFormed_of_cores labels _ a Hwf Hperm Hin) as Hwa.
      destruct (doubleTimes_of_cores labels _ a Hdt Hperm Hin) as [_ Hda].
      pose proof (roundedGap_ge _ Hda) as Hge.
      unfold wellFormed in Hwa.
      unfold labelLeft, labelShownWidth, labelWidth in *.
      set (pps := pixelsPerSecond props) in *.
      assert (end_ a * pps <= start b * pps) as Hmul.
      { apply Qmult_le_compat_r; lra. }
      assert (0 <= (end_ a - start a) * pps) as Hnn.
      { apply Qmult_le_0_compat; lra. }
      destruct (Q.max_spec 2 ((end_ a - start a) * pps)) as [[_ E]|[Hsmall E]];
        rewrite E; [lra|].
      destruct Hw as [[H20 Hord]|Hw]; [|lra].
      pose proof (times_of_cores
                    (fun s e => s + (1 # 1000) <= e /\ 0 <= e <= 4294967296)
                    labels _ a Hord Hperm Hin) as [Hlen [He0 He1]].
      pose proof (roundedGap_near _ He0) as Hnear.
      assert (Hu : ulp (end_ a + lit_0_1) <= 2 ^ (33 - 52)).
      { apply ulp_le_pow2; [rewrite lit_0_1_value; lra| |lia].
        assert (E33 : 2 ^ 33 == 8589934592) by reflexivity.
        rewrite E33, lit_0_1_value. lra. }
      assert (E19 : 2 ^ (33 - 52) == 1 # 524288) by reflexivity.
      rewrite E19 in Hu.
      assert ((1 # 10) * pps <= (start b - start a) * pps) as Hfar.
      { apply Qmult_le_compat_r; lra. }
      lra. }
    destruct (Qlt_le_dec (start b) (start a)) as [Hba|Hab].
    + right. apply (Hside q p b a); [congruence | exact Hb | exact Ha |
        congruence | destruct Hw as [Hw|Hw]; [now left | now right] | lra].
    + left. apply (Hside p q a b); [exact Hne | exact Ha | exact Hb |
        congruence | destruct Hw as [Hw|Hw]; [now left | now right] | exact Hab].
  - left. right. now apply (labelTop_lanes b a j i).
Qed.

Lemma label_boxes_disjoint_witness :
  let a := setLayerIndex 0 (lbl 0 5) in
  let b := setLayerIndex 0 (lbl 6 10) in
  (labelTop a + 30 <= labelTop b \/ labelTop b + 30 <= labelTop a) \/
  (labelLeft tenSeconds 0 a + labelShownWidth tenSeconds a
   <= labelLeft tenSeconds 0 b \/
   labelLeft tenSeconds 0 b + labelShownWidth tenSeconds b
   <= labelLeft tenSeconds 0 a).
Proof.
  apply (label_boxes_disjoint tenSeconds 0 threeLabels 0%nat 2%nat
           (setLayerIndex 0 (lbl 0 5)) (setLayerIndex 0 (lbl 6 10))).
  - repeat constructor.
  - repeat constructor; vm_compute; reflexivity.
  - reflexivity.
  - left. split; [discriminate|].
    repeat constructor; vm_compute; discriminate.
  - discriminate.
  - vm_compute. reflexivity.
  - vm_compute. reflexivity.
Defined.

(** X9.  While the recording plays, the view follows the playhead: after
    the scroll that a playback tick sets, the playhead is drawn within the
    view, at its centre or, near the start of the recording, left of the
    centre with the view at 0. *)
Theorem playhead_in_view_while_playing props clientWidth currentTime :
  0 <= currentTime -> 0 <= pixelsPerSecond props -> 0 <= clientWidth ->
  let sc := syncScroll props clientWidth currentTime in
  0 <= playheadX props currentTime sc <= clientWidth /\
  (playheadX props currentTime sc == clientWidth / 2 \/
   (sc == 0 /\ playheadX props currentTime sc <= clientWidth / 2)).
Proof.
  intros Ht Hp Hw. unfold syncScroll, playheadX. cbn zeta.
  pose proof (Qmult_le_0_compat _ _ Ht Hp) as Hpos.
  set (x := currentTime * pixelsPerSecond props) in *. clearbody x.
  assert (clientWidth == 2 * (clientWidth / 2)) as Eh by field.
  set (h := clientWidth / 2) in *. clearbody h.
  destruct (Qlt_le_dec 0 (x - h)) as [H|H].
  - split; [split; lra|]. left. lra.
  - split; [split; lra|]. right. split; [reflexivity | lra].
Qed.

Lemma playhead_in_view_while_playing_witness :
  0 <= playheadX tenSeconds 7 (syncScroll tenSeconds 1000 7) <= 1000.
Proof.
  apply (playhead_in_view_while_playing tenSeconds 1000 7).
  - discriminate.
  - discriminate.
  - discriminate.
Defined.

End ViewGeometry.
(* ----------------------------------------------------------------- *)
(** ** The palette under any events *)

Section Palette.

Import App.
Local Open Scope string_scope.

Lemma removeAt_from k t (l : list LabelConfig) :
  map snd
    (List.filter (fun ic : nat * LabelConfig => negb (fst ic =? t)%nat)
       (imap (fun i c => ((k + i)%nat, c)) l))
  = if (t <? k)%nat then l else (take (t - k) l ++ drop (S (t - k)) l)%list.
Proof.
  revert k. induction l as [|c l IH]; intros k.
  - rewrite take_nil, drop_nil. simpl. now destruct (t <? k)%nat.
  - cbn [imap List.filter fst]. rewrite Nat.add_0_r.
    rewrite (imap_ext _ (fun i c => ((S k + i)%nat, c)) l)
      by (intros i x _; simpl; f_equal; lia).
    destruct (Nat.eqb_spec k t) as [->|Hne]; cbn [negb].
    + rewrite IH.
      destruct (Nat.ltb_spec t (S t)) as [_|]; [|lia].
      destruct (Nat.ltb_spec t t) as [|_]; [lia|].
      rewrite Nat.sub_diag. reflexivity.
    + cbn [map snd]. rewrite IH.
      destruct (Nat.ltb_spec t (S k)) as [H1|H1];
        destruct (Nat.ltb_spec t k) as [H2|H2]; try lia; [reflexivity|].
      replace (t - k)%nat with (S (t - S k)) by lia. reflexivity.
Qed.

Lemma removeAt_take_drop idx (cs : list LabelConfig) :
  removeAt idx cs = (take idx cs ++ drop (S idx) cs)%list.
Proof.
  unfold removeAt.
  change (imap (fun i c => (i, c)) cs)
    with (imap (fun i c => ((0 + i)%nat, c)) cs).
  rewrite (removeAt_from 0 idx cs). simpl. now rewrite Nat.sub_0_r.
Qed.

Lemma lookup_removeAt idx (cs : list LabelConfig) i :
  removeAt idx cs !! i = if (i <? idx)%nat then cs !! i else cs !! S i.
Proof.
  rewrite removeAt_take_drop.
  destruct (Nat.ltb_spec i idx) as [Hlt|Hge].
  - destruct (Nat.lt_ge_cases idx (length cs)) as [Hin|Hout].
    + rewrite lookup_app_l by (rewrite length_take; lia).
      now apply lookup_take_lt.
    + rewrite take_ge, drop_ge by lia. now rewrite app_nil_r.
  - destruct (Nat.lt_ge_cases idx (length cs)) as [Hin|Hout].
    + rewrite lookup_app_r by (rewrite length_take; lia).
      rewrite length_take, lookup_drop. f_equal. lia.
    + rewrite take_ge, drop_ge by lia. rewrite app_nil_r.
      rewrite !lookup_ge_None_2; [reflexivity | lia | lia].
Qed.

Lemma length_removeAt idx (cs : list LabelConfig) :
  (idx < length cs)%nat -> length (removeAt idx cs) = (length cs - 1)%nat.
Proof.
  intros H. rewrite removeAt_take_drop, length_app, length_take, length_drop.
  lia.
Qed.

Lemma paletteInvariant_initial : paletteInvariant initial.
Proof.
  split; [apply keysIndexed_default|]. split; [|simpl; lia].
  intros [|i] c H; simpl in H; [|discriminate]. now injection H as <-.
Qed.

Lemma paletteInvariant_add newLabelText st :
  paletteInvariant st -> paletteInvariant (handleAddLabelConfig newLabelText st).
Proof.
  intros (Hk & Hc & Hlen & Ha).
  split; [now apply keysIndexed_add|].
  unfold handleAddLabelConfig.
  destruct (trimIsEmpty newLabelText); [now split|].
  destruct (Nat.leb_spec 10 (length (labelConfigs st))) as [|Hlt];
    [now split|].
  cbn [labelConfigs activeLabelIndex]. rewrite length_app. simpl.
  split; [|lia].
  intros i c Hi.
  apply lookup_snoc_inv in Hi as [Hi|[-> ->]]; [now apply Hc | reflexivity].
Qed.

Lemma paletteInvariant_delete idx choice st st' :
  handleDeleteCategory idx choice st = Some st' ->
  paletteInvariant st -> paletteInvariant st'.
Proof.
  intros H (Hk & Hc & Hlen & Ha).
  split; [now apply (keysIndexed_delete idx choice st st')|].
  revert H. unfold handleDeleteCategory.
  destruct (Nat.eqb_spec idx 0) as [|Hne]; [intros [= <-]; now split|].
  destruct (labelConfigs st !! idx) as [config|] eqn:E; [|discriminate].
  intros [= <-]. cbn [labelConfigs activeLabelIndex].
  apply lookup_lt_Some in E.
  rewrite length_imap, length_removeAt by exact E.
  split; [|lia].
  intros i c Hi. rewrite list_lookup_imap in Hi.
  destruct (removeAt idx (labelConfigs st) !! i); simpl in Hi; [|discriminate].
  now injection Hi as <-.
Qed.

Lemma paletteInvariant_save i t st st' :
  saveEditingCategory i t st = Some st' ->
  paletteInvariant st -> paletteInvariant st'.
Proof.
  intros H Hinv. revert H. unfold saveEditingCategory.
  destruct i as [idx|]; [|now intros [= <-]].
  destruct (String.eqb (trim t) ""); [now intros [= <-]|].
  destruct (labelConfigs st !! idx) as [config|] eqn:E; [|discriminate].
  destruct (negb (String.eqb (trim t) (cfg_text config)));
    [|now intros [= <-]].
  intros [= <-]. destruct Hinv as (Hk & Hc & Hlen & Ha).
  unfold paletteInvariant. cbn [labelConfigs activeLabelIndex].
  rewrite length_insert. split; [|split; [|now split]].
  - intros j c Hj. destruct (Nat.eq_dec j idx) as [->|Hne].
    + rewrite list_lookup_insert_eq in Hj by (now apply lookup_lt_Some in E).
      injection Hj as <-. simpl. now apply Hk.
    + rewrite list_lookup_insert_ne in Hj by congruence. now apply Hk.
  - intros j c Hj. destruct (Nat.eq_dec j idx) as [->|Hne].
    + rewrite list_lookup_insert_eq in Hj by (now apply lookup_lt_Some in E).
      injection Hj as <-. simpl. now apply Hc.
    + rewrite list_lookup_insert_ne in Hj by congruence. now apply Hc.
Qed.

Lemma step_paletteInvariant ev st st' :
  step ev st = Some st' -> paletteInvariant st -> paletteInvariant st'.
Proof.
  destruct ev; cbn [step].
  - intros [= <-]. apply paletteInvariant_add.
  - apply paletteInvariant_delete.
  - apply paletteInvariant_save.
  - intros [= <-] (Hk & Hc & Hlen & Ha). unfold handleKeyDown.
    destruct targetIsInput; [now repeat split|].
    cbn [fst labelConfigs activeLabelIndex].
    split; [exact Hk|]. split; [exact Hc|]. split; [exact Hlen|].
    destruct (digitOfKey k) as [d|]; [|exact Ha].
    destruct (Nat.ltb_spec d (length (labelConfigs st))); [assumption|exact Ha].
  - destruct (Nat.ltb_spec idx (length (labelConfigs st))) as [Hlt|];
      [|discriminate].
    intros [= <-] (Hk & Hc & Hlen & Ha). now repeat split.
  - intros [= <-] (Hk & Hc & Hlen & Ha). now repeat split.
Qed.

(** X14.  From the initial palette, after any additions, deletions and
    renamings of categories, key presses, palette clicks and label
    changes that the handlers complete: the key of every category is its
    position and its colour the hot-key colour of that position, the
    palette has between one and ten categories, and the active index
    names a category of the palette, so that the active category handed
    to the spectrogram is defined. *)
Theorem run_keeps_palette (events : list Event) (st' : State) :
  run events initial = Some st' ->
  paletteInvariant st' /\
  exists c, labelConfigs st' !! activeLabelIndex st' = Some c.
Proof.
  intros H.
  assert (paletteInvariant st') as Hinv.
  { revert H. generalize paletteInvariant_initial. generalize initial.
    induction events as [|ev rest IH]; intros st Hst; simpl.
    - now intros [= <-].
    - destruct (step ev st) as [st1|] eqn:E; [|discriminate].
      apply IH. now apply (step_paletteInvariant ev st). }
  split; [exact Hinv|].
  destruct Hinv as (_ & _ & _ & Ha).
  now apply lookup_lt_is_Some_2.
Qed.

Lemma run_keeps_palette_witness :
  exists st',
    run [AddCategory "bird"; AddCategory "frog"; DeleteCategory 1 true;
         KeyDown false "1" None] initial = Some st' /\
    paletteInvariant st'.
Proof.
  eexists. split; [reflexivity|].
  apply (run_keeps_palette
           [AddCategory "bird"; AddCategory "frog"; DeleteCategory 1 true;
            KeyDown false "1" None]).
  reflexivity.
Defined.

(** X15.  Deleting the category at a position other than 0 with the
    Cancel answer removes exactly the labels of that category: the new
    label list is the old one without them, the others unchanged and in
    order. *)
Theorem handleDeleteCategory_cascade st idx config :
  idx <> 0%nat ->
  labelConfigs st !! idx = Some config ->
  exists st',
    handleDeleteCategory idx false st = Some st' /\
    labels st'
    = List.filter (fun l => negb (String.eqb (configId l) (key config))) (labels st) /\
    (forall l, In l (labels st') <->
               In l (labels st) /\ configId l <> key config).
Proof.
  intros Hidx Hc. unfold handleDeleteCategory.
  destruct (Nat.eqb_spec idx 0) as [|_]; [contradiction|].
  rewrite Hc. eexists. split; [reflexivity|]. cbn [labels].
  assert (forall ls : list Label,
            (if (0 <? length (List.filter (fun l => String.eqb (configId l) (key config)) ls))%nat
             then List.filter (fun l => negb (String.eqb (configId l) (key config))) ls
             else ls)
            = List.filter (fun l => negb (String.eqb (configId l) (key config))) ls) as E.
  { intros ls.
    destruct (List.filter (fun l => String.eqb (configId l) (key config)) ls)
      as [|x xs] eqn:F; [|reflexivity].
    simpl. induction ls as [|l ls IH]; [reflexivity|].
    simpl in F |- *. destruct (String.eqb (configId l) (key config));
      [discriminate|]. simpl. f_equal. now apply IH. }
  rewrite E. split; [reflexivity|].
  intros l. rewrite filter_In.
  destruct (String.eqb_spec (configId l) (key config)); simpl;
    intuition congruence.
Qed.

Lemma handleDeleteCategory_cascade_witness :
  exists st',
    handleDeleteCategory 1 false twoBirds = Some st' /\
    labels st' = [ mkLabel "a2" "0" 3 4 "noise" (Some "#ffffff") None ].
Proof.
  destruct (handleDeleteCategory_cascade twoBirds 1%nat birdConfig)
    as (st' & H1 & H2 & _).
  - discriminate.
  - reflexivity.
  - exists st'. split; [exact H1|]. rewrite H2. reflexivity.
Defined.

(** X16.  Deleting the category at position [idx] moves every later
    category one position down, with the key and the colour of its new
    position, and resets the active index to 0; a label of a later
    category keeps its [configId].  So the category that a kept label of
    position [j > idx] names after the deletion is the one that was at
    position [j + 1], or none. *)
Theorem handleDeleteCategory_shifts st idx choice config :
  keysIndexed (labelConfigs st) ->
  idx <> 0%nat ->
  labelConfigs st !! idx = Some config ->
  exists st',
    handleDeleteCategory idx choice st = Some st' /\
    length (labelConfigs st') = (length (labelConfigs st) - 1)%nat /\
    activeLabelIndex st' = 0%nat /\
    (forall i,
       labelConfigs st' !! i
       = option_map
           (fun c => mkLabelConfig (toString i) (cfg_text c) (HOTKEY_COLORS !! i))
           (labelConfigs st !! (if (i <? idx)%nat then i else S i))) /\
    (forall j c l,
       (idx < j)%nat -> labelConfigs st !! j = Some c ->
       In l (labels st) -> configId l = key c ->
       In l (labels st') /\
       option_map cfg_text (labelConfigs st' !! j)
       = option_map cfg_text (labelConfigs st !! S j)).
Proof.
  intros Hk Hidx Hc.
  assert (exists st', handleDeleteCategory idx choice st = Some st') as [st' E].
  { unfold handleDeleteCategory.
    destruct (Nat.eqb_spec idx 0) as [|_]; [contradiction|].
    rewrite Hc. now eexists. }
  exists st'. split; [exact E|].
  revert E. unfold handleDeleteCategory.
  destruct (Nat.eqb_spec idx 0) as [|_]; [contradiction|].
  rewrite Hc. intros [= <-]. cbn [labelConfigs activeLabelIndex labels].
  assert (forall i,
            imap (fun i c => mkLabelConfig (toString i) (cfg_text c) (HOTKEY_COLORS !! i))
              (removeAt idx (labelConfigs st)) !! i
            = option_map
                (fun c => mkLabelConfig (toString i) (cfg_text c) (HOTKEY_COLORS !! i))
                (labelConfigs st !! (if (i <? idx)%nat then i else S i))) as Hlook.
  { intros i. rewrite list_lookup_imap, lookup_removeAt.
    destruct (i <? idx)%nat; now destruct (labelConfigs st !! _). }
  split.
  { rewrite length_imap. apply length_removeAt.
    now apply lookup_lt_Some in Hc. }
  split; [reflexivity|]. split; [exact Hlook|].
  intros j c l Hj Hcj Hin Hl. split.
  - assert (key c <> key config) as Hne.
    { rewrite (Hk j c Hcj), (Hk idx config Hc). intros H.
      apply toString_inj in H. lia. }
    assert (String.eqb (configId l) (key config) = false) as Hf.
    { apply String.eqb_neq. congruence. }
    destruct (0 <? length _)%nat; [|exact Hin].
    destruct choice.
    + apply in_map_iff. exists l. split; [|exact Hin].
      unfold convertToCustom. now rewrite Hf.
    + apply filter_In. split; [exact Hin|]. now rewrite Hf.
  - rewrite Hlook.
    destruct (Nat.ltb_spec j idx) as [|_]; [lia|].
    now destruct (labelConfigs st !! S j).
Qed.

Lemma handleDeleteCategory_shifts_witness :
  exists st',
    handleDeleteCategory 1 true twoBirds = Some st' /\
    length (labelConfigs st') = 1%nat.
Proof.
  destruct (handleDeleteCategory_shifts twoBirds 1%nat true birdConfig)
    as (st' & H1 & H2 & _).
  - intros [|[|i]] c H; simpl in H; try discriminate;
      injection H as <-; reflexivity.
  - discriminate.
  - reflexivity.
  - exists st'. split; [exact H1 | exact H2].
Defined.

End Palette.

Section Renaming.

Import App.
Local Open Scope string_scope.

Lemma trimStart_empty s : trimStart s = "" <-> trimIsEmpty s = true.
Proof.
  induction s as [|c s IH]; simpl; [tauto|].
  destruct (isWhiteSpace c); simpl; [exact IH|].
  split; discriminate.
Qed.

Lemma trimStart_head s c rest :
  trimStart s = String c rest -> isWhiteSpace c = false.
Proof.
  induction s as [|d s IH]; simpl; [discriminate|].
  destruct (isWhiteSpace d) eqn:E; [exact IH|].
  intros [= <- _]. exact E.
Qed.

Lemma trim_empty s : trim s = "" <-> trimIsEmpty s = true.
Proof.
  rewrite <- trimStart_empty. unfold trim.
  destruct (trimStart s) as [|c rest] eqn:E; [simpl; tauto|].
  apply trimStart_head in E. simpl. rewrite E.
  split; [|discriminate].
  destruct (trimEnd rest); discriminate.
Qed.

(** X17.  Saving the name of a category changes texts only: the keys and
    colours of the categories, their number and the active index stay,
    and every label keeps its place and all its fields but the text; the
    labels whose text changes are labels of the renamed category, and
    their new text is the trimmed name.  A blank name changes nothing. *)
Theorem saveEditingCategory_changes_texts_only idx t st st' :
  saveEditingCategory (Some idx) t st = Some st' ->
  (trimIsEmpty t = true -> st' = st) /\
  map key (labelConfigs st') = map key (labelConfigs st) /\
  map cfg_color (labelConfigs st') = map cfg_color (labelConfigs st) /\
  activeLabelIndex st' = activeLabelIndex st /\
  length (labels st') = length (labels st) /\
  (forall i l, labels st !! i = Some l ->
     exists l', labels st' !! i = Some l' /\ sameButText l l' /\
       (text l' <> text l ->
        text l' = trim t /\
        exists config, labelConfigs st !! idx = Some config /\
                       configId l = key config)).
Proof.
  unfold saveEditingCategory.
  destruct (String.eqb_spec (trim t) "") as [Hblank|Hname].
  { intros [= <-]. split; [reflexivity|]. repeat split; try reflexivity.
    intros i l Hl. exists l. split; [exact Hl|]. split; [now repeat split|].
    congruence. }
  destruct (labelConfigs st !! idx) as [config|] eqn:E; [|discriminate].
  destruct (negb (String.eqb (trim t) (cfg_text config))).
  2:{ intros [= <-]. split; [reflexivity|]. repeat split; try reflexivity.
      intros i l Hl. exists l. split; [exact Hl|]. split; [now repeat split|].
      congruence. }
  intros [= <-]. cbn [labels labelConfigs activeLabelIndex].
  split. { intros Hb. apply trim_empty in Hb. contradiction. }
  assert (forall (f : LabelConfig -> string) ,
            f (mkLabelConfig (key config) (trim t) (cfg_color config)) = f config ->
            map f (<[idx := mkLabelConfig (key config) (trim t) (cfg_color config)]>
                     (labelConfigs st))
            = map f (labelConfigs st)) as Hmap.
  { intros f Hf. rewrite list_fmap_insert. rewrite Hf.
    apply list_insert_id. rewrite list_lookup_fmap, E. reflexivity. }
  split; [apply Hmap; reflexivity|].
  split.
  { change (map cfg_color) with (fmap (M:=list) cfg_color).
    rewrite list_fmap_insert. simpl.
    apply list_insert_id. rewrite list_lookup_fmap, E. reflexivity. }
  split; [reflexivity|]. split; [apply length_map|].
  intros i l Hl. rewrite lookup_map, Hl. simpl.
  eexists. split; [reflexivity|].
  unfold renameLabel.
  destruct (String.eqb_spec (configId l) (key config)) as [Hlink|_].
  - split; [now repeat split|]. intros _. split; [reflexivity|].
    exists config. now split.
  - split; [now repeat split|]. congruence.
Qed.

Lemma saveEditingCategory_changes_texts_only_witness :
  exists st',
    saveEditingCategory (Some 1%nat) " robin " twoBirds = Some st' /\
    map key (labelConfigs st') = ["0"; "1"] /\
    length (labels st') = 3%nat.
Proof.
  eexists. split; [reflexivity|].
  destruct (saveEditingCategory_changes_texts_only 1 " robin " twoBirds _ eq_refl)
    as (_ & H1 & _ & _ & H2 & _).
  split; [exact H1 | exact H2].
Defined.

End Renaming.
(* ----------------------------------------------------------------- *)
(** ** The renderer *)

Section Rendering.

Import JsNumber AudioProcessing.
Local Open Scope Z_scope.

Lemma Int_part_IZR z : Int_part (IZR z) = z.
Proof. symmetry. apply Int_part_spec. lra. Qed.

Lemma Int_part_le x y : (x <= y)%R -> Int_part x <= Int_part y.
Proof.
  intros H. destruct (base_Int_part x) as [Hx _].
  destruct (base_Int_part y) as [_ Hy].
  assert (Int_part x < Int_part y + 1); [|lia].
  apply lt_IZR. rewrite plus_IZR. lra.
Qed.

Lemma toInt32_small z : 0 <= z < 2 ^ 31 -> toInt32 z = z.
Proof.
  intros H. unfold toInt32.
  rewrite Z.mod_small by lia.
  destruct (Z.ltb_spec z (2 ^ 31)); lia.
Qed.

Lemma truncate_IZR z : 0 <= z -> truncate (IZR z) = z.
Proof.
  intros H. unfold truncate.
  destruct (Rle_dec 0 (IZR z)) as [_|Hn]; [apply Int_part_IZR|].
  exfalso. apply Hn. now apply IZR_le.
Qed.

Lemma Rmax_Rmin_IZR a b :
  Rmax 0 (Rmin (IZR a) (IZR b)) = IZR (Z.max 0 (Z.min a b)).
Proof.
  assert (forall c, Rmax 0 (IZR c) = IZR (Z.max 0 c)) as Hmax.
  { intros c. unfold Rmax. destruct (Rle_dec 0 (IZR c)) as [Hc|Hc].
    - apply le_IZR in Hc. now rewrite Z.max_r by lia.
    - assert (c < 0) as Hlt by (apply lt_IZR; lra).
      now rewrite Z.max_l by lia. }
  unfold Rmin. destruct (Rle_dec (IZR a) (IZR b)) as [Hab|Hab].
  - apply le_IZR in Hab. rewrite (Z.min_l a b) by lia. apply Hmax.
  - assert (b < a) as Hlt by (apply lt_IZR; lra).
    rewrite (Z.min_r a b) by lia. apply Hmax.
Qed.

Lemma rd_map_seqZ {A} (d : A) (f : Z -> A) n i :
  0 <= i < n -> rd d (map f (seqZ 0 n)) i = f i.
Proof.
  intros H. unfold rd. destruct (Z.ltb_spec i 0) as [|_]; [lia|].
  rewrite nth_lookup.
  change (map f (seqZ 0 n)) with (f <$> seqZ 0 n).
  rewrite list_lookup_fmap, lookup_seqZ_lt by lia. simpl.
  f_equal. lia.
Qed.


Lemma columnOf_range specWidth startTime timePerPixel totalDuration x col :
  columnOf specWidth startTime timePerPixel totalDuration x = Some col ->
  0 <= col < specWidth.
Proof.
  unfold columnOf.
  set (exactCol := mul (div (add startTime (mul (ofZ x) timePerPixel))
                          totalDuration) (ofZ specWidth)).
  clearbody exactCol. unfold ofZ.
  destruct exactCol as [e|p|]; cbn [geNum ltNum Math_floor].
  - destruct (Rle_dec 0 e) as [H0|]; [|discriminate].
    destruct (Rlt_dec e (IZR specWidth)) as [H1|]; [|discriminate].
    cbn [andb]. intros [= <-]. rewrite Int_part_IZR.
    destruct (base_Int_part e) as [Hlo Hhi].
    split.
    + assert (-1 < Int_part e); [|lia]. apply lt_IZR. lra.
    + apply lt_IZR. lra.
  - destruct p; discriminate.
  - discriminate.
Qed.



Local Open Scope Q_scope.

Lemma length_COLOR_MAP : length COLOR_MAP = 768%nat.
Proof. vm_compute. reflexivity. Qed.

(** X19.  The colour index of a pixel is one of [0, 3, .., 765] whatever
    the stored value, the contrast and the brightness, so the three
    look-ups at the index and the next two places hit the colour table;
    and for a contrast and a brightness of 0 or more a larger stored
    value never has a smaller colour index. *)
Theorem colorIdxOf_in_table (contrast brightness : Q) :
  (forall raw,
     exists k, (0 <= k <= 255)%Z /\ colorIdxOf raw contrast brightness = (k * 3)%Z /\
               (Z.to_nat (colorIdxOf raw contrast brightness) + 2 < length COLOR_MAP)%nat) /\
  (0 <= contrast -> 0 <= brightness ->
   forall raw1 raw2, (raw1 <= raw2)%Z ->
     (colorIdxOf raw1 contrast brightness <= colorIdxOf raw2 contrast brightness)%Z).
Proof.
  assert (forall v : Q,
            let w := if Qlt_le_dec 255 v then 255 else v in
            let w := if Qlt_le_dec w 0 then 0 else w in
            0 <= w <= 255) as Hclamp.
  { intros v. cbn zeta.
    destruct (Qlt_le_dec 255 v);
    repeat match goal with
           | |- context [Qlt_le_dec ?a ?b] => destruct (Qlt_le_dec a b)
           end; lra. }
  split.
  - intros raw. unfold colorIdxOf.
    match goal with |- context [Qfloor ?v] => set (val := v) end.
    assert (0 <= val <= 255) as Hv by apply Hclamp.
    clearbody val.
    assert (0 <= Qfloor val <= 255)%Z as Hk.
    { split.
      - change 0%Z with (Qfloor 0). apply Qfloor_resp_le. lra.
      - change 255%Z with (Qfloor 255). apply Qfloor_resp_le. lra. }
    exists (Qfloor val). split; [exact Hk|]. split; [reflexivity|].
    rewrite length_COLOR_MAP. lia.
  - intros Hc Hb raw1 raw2 Hraw. unfold colorIdxOf.
    apply Z.mul_le_mono_nonneg_r; [lia|]. apply Qfloor_resp_le.
    assert (fdiv (inject_Z raw1) 255 <= fdiv (inject_Z raw2) 255) as Hn.
    { apply round64_le.
      apply Qmult_le_compat_r; [now rewrite <- Zle_Qle | discriminate]. }
    set (n1 := fdiv (inject_Z raw1) 255) in *.
    set (n2 := fdiv (inject_Z raw2) 255) in *.
    clearbody n1 n2.
    assert (fsub n1 (1 # 2) <= fsub n2 (1 # 2)) as Hd.
    { apply round64_le. lra. }
    assert (fadd (fmul (fsub n1 (1 # 2)) contrast) (1 # 2)
            <= fadd (fmul (fsub n2 (1 # 2)) contrast) (1 # 2)) as Hs.
    { apply round64_le.
      assert (fmul (fsub n1 (1 # 2)) contrast
              <= fmul (fsub n2 (1 # 2)) contrast);
        [apply round64_le; apply Qmult_le_compat_r; lra | lra]. }
    set (s1 := fadd (fmul (fsub n1 (1 # 2)) contrast) (1 # 2)) in *.
    set (s2 := fadd (fmul (fsub n2 (1 # 2)) contrast) (1 # 2)) in *.
    clearbody s1 s2.
    set (c1 := if Qlt_le_dec 1 (if Qlt_le_dec s1 0 then 0 else s1) then 1
               else (if Qlt_le_dec s1 0 then 0 else s1)).
    set (c2 := if Qlt_le_dec 1 (if Qlt_le_dec s2 0 then 0 else s2) then 1
               else (if Qlt_le_dec s2 0 then 0 else s2)).
    assert (c1 <= c2) as Hcl.
    { unfold c1, c2.
      destruct (Qlt_le_dec s1 0); destruct (Qlt_le_dec s2 0);
      repeat match goal with
             | |- context [Qlt_le_dec ?a ?b] => destruct (Qlt_le_dec a b)
             end; lra. }
    clearbody c1 c2.
    assert (fmul (fmul c1 255) brightness <= fmul (fmul c2 255) brightness)
      as Hv.
    { apply round64_le. apply Qmult_le_compat_r; [|lra].
      apply round64_le. lra. }
    set (v1 := fmul (fmul c1 255) brightness) in *.
    set (v2 := fmul (fmul c2 255) brightness) in *. clearbody v1 v2.
    destruct (Qlt_le_dec 255 v1); destruct (Qlt_le_dec 255 v2);
    repeat match goal with
           | |- context [Qlt_le_dec ?a ?b] => destruct (Qlt_le_dec a b)
           end; lra.
Qed.

Lemma colorIdxOf_in_table_witness :
  (colorIdxOf 10 1 (7 # 10) <= colorIdxOf 200 1 (7 # 10))%Z.
Proof.
  apply (proj2 (colorIdxOf_in_table 1 (7 # 10))).
  - discriminate.
  - discriminate.
  - lia.
Defined.

End Rendering.

Section AxisOrder.

Import JsNumber AudioProcessing.
Local Open Scope R_scope.

Lemma targetFreq_Fin scale (canvasHeight : Z) minFreq maxFreq (y : Z) :
  (0 < canvasHeight)%Z -> 0 <= minFreq -> minFreq <= maxFreq -> 1 <= maxFreq ->
  targetFreq scale canvasHeight minFreq maxFreq y
  = Fin (freqOf scale minFreq maxFreq (1 - IZR y / IZR canvasHeight)).
Proof.
  intros Hh Hmin Hle Hmax. unfold targetFreq, freqOf.
  rewrite normY_Fin by exact Hh.
  destruct scale.
  - reflexivity.
  - cbn [Math_max].
    assert (1 <= Rmax minFreq 1) as Hs by apply Rmax_r.
    rewrite div_Fin by lra.
    rewrite pow_Fin; [reflexivity|].
    apply Rdiv_lt_0_compat; lra.
  - rewrite !toMel_Fin by lra. cbn [add sub mul neg].
    rewrite fromMel_Fin. reflexivity.
Qed.

Lemma melOf_le a b : 0 <= a -> a <= b -> melOf a <= melOf b.
Proof.
  intros Ha [Hlt| ->]; [left; now apply melOf_increasing | apply Rle_refl].
Qed.

Lemma freqOf_monotone scale minFreq maxFreq n1 n2 :
  0 <= minFreq -> minFreq <= maxFreq -> 1 <= maxFreq ->
  n1 <= n2 ->
  freqOf scale minFreq maxFreq n1 <= freqOf scale minFreq maxFreq n2.
Proof.
  intros Hmin Hle Hmax Hn. unfold freqOf. destruct scale.
  - assert (n1 * (maxFreq - minFreq) <= n2 * (maxFreq - minFreq));
      [apply Rmult_le_compat_r; lra | lra].
  - assert (1 <= Rmax minFreq 1) as Hs by apply Rmax_r.
    assert (Rmax minFreq 1 <= maxFreq) as Hr by (apply Rmax_lub; lra).
    apply Rmult_le_compat_l; [lra|].
    apply Rle_Rpower; [|exact Hn].
    apply (Rmult_le_reg_r (Rmax minFreq 1)); [lra|].
    unfold Rdiv. rewrite Rmult_assoc, Rinv_l by lra. lra.
  - pose proof (melOf_le minFreq maxFreq Hmin Hle) as Hm.
    assert (n1 * (melOf maxFreq - melOf minFreq)
            <= n2 * (melOf maxFreq - melOf minFreq)) as Hmul
      by (apply Rmult_le_compat_r; lra).
    assert (Rpower 10 ((melOf minFreq + n1 * (melOf maxFreq - melOf minFreq)) / 2595)
            <= Rpower 10 ((melOf minFreq + n2 * (melOf maxFreq - melOf minFreq)) / 2595));
      [apply Rle_Rpower; lra | lra].
Qed.

Lemma binMap_value scale (canvasHeight specHeight : Z) minFreq maxFreq sampleRate
    (y : Z) :
  (0 < canvasHeight)%Z -> (1 <= specHeight <= 2 ^ 31)%Z -> 0 < sampleRate ->
  0 <= minFreq -> minFreq <= maxFreq -> 1 <= maxFreq ->
  binMap scale canvasHeight specHeight minFreq maxFreq sampleRate y
  = Z.max 0
      (Z.min
         (Int_part
            (freqOf scale minFreq maxFreq (1 - IZR y / IZR canvasHeight)
             / (sampleRate / 2) * IZR specHeight))
         (specHeight - 1)).
Proof.
  intros Hh HH Hsr Hmin Hle Hmax. unfold binMap.
  rewrite targetFreq_Fin by assumption.
  rewrite (div_Fin sampleRate 2) by lra.
  rewrite div_Fin by lra.
  unfold ofZ. cbn [mul Math_floor Math_min Math_max].
  rewrite Rmax_Rmin_IZR. cbn [storeInt32].
  rewrite truncate_IZR by lia. apply toInt32_small. lia.
Qed.

(** X20.  The picture is not flipped: for a frequency range with
    [0 <= minFreq <= maxFreq] and [maxFreq >= 1], on each of the three
    scales a pixel row further down shows the same bin or a lower one. *)
Theorem binMap_lower_rows_lower_bins
    scale (canvasHeight specHeight : Z) minFreq maxFreq sampleRate (y1 y2 : Z) :
  (0 < canvasHeight)%Z -> (1 <= specHeight <= 2 ^ 31)%Z -> 0 < sampleRate ->
  0 <= minFreq -> minFreq <= maxFreq -> 1 <= maxFreq ->
  (y1 <= y2)%Z ->
  (binMap scale canvasHeight specHeight minFreq maxFreq sampleRate y2
   <= binMap scale canvasHeight specHeight minFreq maxFreq sampleRate y1)%Z.
Proof.
  intros Hh HH Hsr Hmin Hle Hmax Hy.
  rewrite !binMap_value by assumption.
  apply Z.max_le_compat_l, Z.min_le_compat_r, Int_part_le.
  assert (0 < IZR canvasHeight) as Hc by (apply IZR_lt; lia).
  assert (1 - IZR y2 / IZR canvasHeight <= 1 - IZR y1 / IZR canvasHeight) as Hn.
  { assert (IZR y1 / IZR canvasHeight <= IZR y2 / IZR canvasHeight);
      [|lra].
    apply Rmult_le_compat_r; [left; now apply Rinv_0_lt_compat|].
    now apply IZR_le. }
  pose proof (freqOf_monotone scale minFreq maxFreq _ _ Hmin Hle Hmax Hn) as Hf.
  apply Rmult_le_compat_r; [apply IZR_le; lia|].
  apply Rmult_le_compat_r; [|exact Hf].
  left. apply Rinv_0_lt_compat. lra.
Qed.

Lemma binMap_lower_rows_lower_bins_witness :
  (binMap mel 300 512 0 22050 44100 200
   <= binMap mel 300 512 0 22050 44100 100)%Z.
Proof.
  apply binMap_lower_rows_lower_bins; (lia || lra).
Defined.

End AxisOrder.

Section Alignment.

Import JsNumber AudioProcessing.
Local Open Scope R_scope.

(** X21.  The picture is aligned with the sound up to two hops: when the
    duration handed to the renderer is that of the analysed samples
    ([N / sampleRate]) and the field has the width that the analysis
    gives it, a pixel column that shows column [col] of the field stands
    for a time that is not before the start of the frame of that column
    (sample [col * hopSize]) and less than two hops after its end. *)
Theorem column_shows_its_frame
    (N fftSize hopSize x col : Z) (sampleRate t0 tp : R) :
  (0 < hopSize)%Z -> (0 < fftSize <= N)%Z -> 0 < sampleRate ->
  columnOf ((N - fftSize) / hopSize) (Fin t0) (Fin tp)
    (Fin (IZR N / sampleRate)) x = Some col ->
  let t := t0 + IZR x * tp in
  IZR (col * hopSize) / sampleRate <= t /\
  t < IZR (col * hopSize + fftSize + 2 * hopSize) / sampleRate.
Proof.
  intros Hhop Hfft Hsr Hcol. cbn zeta.
  pose proof (columnOf_range _ _ _ _ _ _ Hcol) as Hrange.
  set (w := ((N - fftSize) / hopSize)%Z) in *.
  assert (w * hopSize + fftSize <= N)%Z as Hlo.
  { unfold w. pose proof (Z.mul_div_le (N - fftSize) hopSize Hhop). lia. }
  assert (N < (w + 1) * hopSize + fftSize)%Z as Hhi.
  { unfold w.
    pose proof (Z.mul_succ_div_gt (N - fftSize) hopSize Hhop). lia. }
  assert (0 < IZR N) as HN by (apply IZR_lt; lia).
  assert (0 < IZR w) as Hw by (apply IZR_lt; lia).
  revert Hcol. unfold columnOf, ofZ. cbn [mul add].
  rewrite div_Fin by (apply Rgt_not_eq, Rdiv_lt_0_compat; lra).
  cbn [mul geNum ltNum Math_floor].
  set (t := t0 + IZR x * tp).
  set (e := t / (IZR N / sampleRate) * IZR w).
  destruct (Rle_dec 0 e) as [H0|]; [|discriminate].
  destruct (Rlt_dec e (IZR w)) as [H1|]; [|discriminate].
  cbn [andb]. intros [= <-]. rewrite Int_part_IZR in *.
  destruct (base_Int_part e) as [Elo Ehi].
  set (c := Int_part e) in *.
  assert (e * IZR N = t * sampleRate * IZR w) as He.
  { unfold e. field. split; lra. }
  set (T := t * sampleRate) in *.
  assert (IZR c * IZR N <= T * IZR w) as A1.
  { rewrite <- He. apply Rmult_le_compat_r; lra. }
  assert (T * IZR w < (IZR c + 1) * IZR N) as A2.
  { rewrite <- He. apply Rmult_lt_compat_r; lra. }
  assert (IZR c * (IZR w * IZR hopSize) <= IZR c * IZR N) as B1.
  { apply Rmult_le_compat_l; [apply IZR_le; lia|].
    rewrite <- mult_IZR. apply IZR_le. lia. }
  assert ((IZR c + 1) * IZR N
          <= IZR w * (IZR c * IZR hopSize + IZR fftSize + 2 * IZR hopSize)) as B2.
  { assert ((c + 1) * N <= w * (c * hopSize + fftSize + 2 * hopSize))%Z as HZ
      by nia.
    apply IZR_le in HZ.
    repeat (rewrite ?mult_IZR, ?plus_IZR in HZ). exact HZ. }
  assert (IZR c * IZR hopSize <= T) as C1.
  { apply (Rmult_le_reg_r (IZR w)); [exact Hw|]. lra. }
  assert (T < IZR c * IZR hopSize + IZR fftSize + 2 * IZR hopSize) as C2.
  { apply (Rmult_lt_reg_r (IZR w)); [exact Hw|]. lra. }
  rewrite !plus_IZR, !mult_IZR.
  split.
  - apply (Rmult_le_reg_r sampleRate); [exact Hsr|].
    unfold Rdiv. rewrite Rmult_assoc, Rinv_l by lra. fold T. lra.
  - apply (Rmult_lt_reg_r sampleRate); [exact Hsr|].
    unfold Rdiv. rewrite Rmult_assoc, Rinv_l by lra. fold T. lra.
Qed.

Lemma column_shows_its_frame_witness :
  IZR (0 * 512) / 44100 <= 0 + IZR 0 * (1 / 100) /\
  0 + IZR 0 * (1 / 100) < IZR (0 * 512 + 1024 + 2 * 512) / 44100.
Proof.
  apply (column_shows_its_frame 44100 1024 512 0 0 44100 0 (1 / 100)).
  - lia.
  - lia.
  - lra.
  - unfold columnOf, ofZ. cbn [mul add].
    rewrite div_Fin by lra. cbn [mul geNum ltNum Math_floor].
    replace ((0 + 0 * (1 / 100)) / (44100 / 44100)
             * IZR ((44100 - 1024) / 512))%R with 0%R by (field; lra).
    destruct (Rle_dec 0 0) as [_|]; [|lra].
    destruct (Rlt_dec 0 (IZR ((44100 - 1024) / 512))) as [_|Hn].
    + cbn [andb]. now rewrite (Int_part_IZR 0), (Int_part_IZR 0).
    + exfalso. apply Hn. apply IZR_lt. reflexivity.
Defined.

End Alignment.

(* ----------------------------------------------------------------- *)
(** ** More on the analysis *)

Section AnalysisMore.

Import JsNumber AudioProcessing.
Local Open Scope Z_scope.

(** *** The last hop of samples *)

Lemma subarray_prefix {A} (a1 a2 : list A) (K b e : Z) :
  length a1 = length a2 ->
  take (Z.to_nat K) a1 = take (Z.to_nat K) a2 ->
  0 <= b <= e -> e <= K -> e <= Z.of_nat (length a1) ->
  subarray a1 b e = subarray a2 b e.
Proof.
  intros Hlen Htake Hb HK He.
  destruct (length_subarray_inside a1 b e Hb He) as [-> _].
  destruct (length_subarray_inside a2 b e Hb ltac:(lia)) as [-> _].
  rewrite !take_drop_commute.
  replace (Z.to_nat b + Z.to_nat (e - b))%nat with (Z.to_nat e) by lia.
  replace (Z.to_nat e) with (Z.to_nat e `min` Z.to_nat K)%nat by lia.
  rewrite <- !take_take. now rewrite Htake.
Qed.

Lemma mainLoop_prefix b1 b2 fftSize hopSize w h (fuel : nat) :
  0 < fftSize -> 0 < hopSize ->
  length (channelData b1) = length (channelData b2) ->
  let N := Z.of_nat (length (channelData b1)) in
  take (Z.to_nat (N - hopSize)) (channelData b1)
  = take (Z.to_nat (N - hopSize)) (channelData b2) ->
  w * hopSize + fftSize <= N ->
  forall col out, 0 <= col ->
    mainLoop b1 fftSize hopSize fuel (Int w) h col out
    = mainLoop b2 fftSize hopSize fuel (Int w) h col out.
Proof.
  intros Hfft Hhop Hlen N Htake Hw.
  induction fuel as [|fuel IH]; intros col out Hcol; [reflexivity|].
  cbn [mainLoop lessThan].
  destruct (Z.ltb_spec col w) as [Hlt|]; [|reflexivity].
  rewrite (subarray_prefix (channelData b1) (channelData b2) (N - hopSize)
             (col * hopSize) (col * hopSize + fftSize) Hlen Htake)
    by (fold N; nia).
  destruct (Z.of_nat _ <? fftSize); [reflexivity|].
  apply IH. lia.
Qed.

(** X22.  The last [hopSize] samples of a recording never reach the
    spectrogram: two recordings of the same length and sample rate that
    agree on all samples but the last [hopSize] have the same analysis
    result, error or field. *)
Theorem generateSpectrogramData_ignores_last_hop b1 b2 fftSize hopSize :
  0 < fftSize -> 0 < hopSize ->
  length (channelData b1) = length (channelData b2) ->
  sampleRate b1 = sampleRate b2 ->
  take (Z.to_nat (Z.of_nat (length (channelData b1)) - hopSize)) (channelData b1)
  = take (Z.to_nat (Z.of_nat (length (channelData b1)) - hopSize)) (channelData b2) ->
  generateSpectrogramData b1 fftSize hopSize
  = generateSpectrogramData b2 fftSize hopSize.
Proof.
  intros Hfft Hhop Hlen Hrate Htake.
  unfold generateSpectrogramData. rewrite <- Hlen, <- Hrate.
  set (N := Z.of_nat (length (channelData b1))) in *.
  unfold floorDiv. destruct (Z.eqb_spec hopSize 0) as [|_]; [lia|].
  set (w := (N - fftSize) / hopSize).
  cbn [times newUint8Array].
  destruct (w * (fftSize / 2) <? 0); [reflexivity|].
  f_equal. f_equal. cbn [rounds].
  destruct (Z.lt_ge_cases w 0) as [Hneg|Hpos].
  - now rewrite Z2Nat.nonpos by lia.
  - apply mainLoop_prefix; try assumption; [|lia].
    assert (w * hopSize <= N - fftSize).
    { unfold w. rewrite Z.mul_comm. apply Z.mul_div_le. lia. }
    fold N. lia.
Qed.

Lemma generateSpectrogramData_ignores_last_hop_witness :
  generateSpectrogramData toneBuffer 4 1
  = generateSpectrogramData
      (mkAudioBuffer [0; 499999 / 750000; 0; 0; 1]%R 44100%R) 4 1.
Proof.
  apply generateSpectrogramData_ignores_last_hop.
  - lia.
  - lia.
  - reflexivity.
  - reflexivity.
  - reflexivity.
Defined.

(** *** Silence *)

Lemma repeat_replicate {A} (x : A) n : repeat x n = replicate n x.
Proof. induction n; simpl; congruence. Qed.

Lemma wr_repeat {A} (x : A) n i : wr (repeat x n) i x = repeat x n.
Proof.
  unfold wr. destruct (i <? 0); [reflexivity|].
  rewrite repeat_replicate. apply insert_replicate.
Qed.

Lemma rd_zeros (a : list R) i :
  Forall (fun x => x = 0%R) a -> rd 0%R a i = 0%R.
Proof.
  intros Ha. unfold rd. destruct (i <? 0); [reflexivity|].
  destruct (nth_in_or_default (Z.to_nat i) a 0%R) as [Hin|Hd]; [|exact Hd].
  rewrite List.Forall_forall in Ha. now apply Ha.
Qed.

Lemma rd_repeat n i : rd 0%R (repeat 0%R n) i = 0%R.
Proof.
  apply rd_zeros. apply List.Forall_forall. intros x Hx.
  now apply repeat_spec in Hx.
Qed.

Lemma forUpTo_fixed {S : Type} (n : Z) (body : Z -> S -> S) (s : S) :
  (forall i, body i s = s) -> forUpTo n body s = s.
Proof.
  intros H. unfold forUpTo. induction (seqZ 0 n) as [|i l IH]; simpl;
    [reflexivity|]. now rewrite H.
Qed.

Lemma forLoop_fixed {S : Type} (cond : Z -> bool) (next : Z -> Z)
    (body : Z -> S -> S) (s : S) :
  (forall v, body v s = s) ->
  forall fuel v, forLoop fuel cond next body v s = s.
Proof.
  intros H. induction fuel as [|fuel IH]; intros v; simpl; [reflexivity|].
  destruct (cond v); [|reflexivity]. now rewrite H.
Qed.

Lemma performFFT_silence fftSize (input : list R) :
  Forall (fun x => x = 0%R) input ->
  performFFT fftSize input
  = (repeat 0%R (Z.to_nat fftSize), repeat 0%R (Z.to_nat fftSize)).
Proof.
  intros Hin. unfold performFFT.
  set (z := repeat 0%R (Z.to_nat fftSize)).
  rewrite forUpTo_fixed.
  - apply forLoop_fixed. intros size.
    apply forLoop_fixed. intros i.
    apply forUpTo_fixed. intros j.
    unfold butterfly, z. lazy beta iota zeta.
    repeat (progress
              (rewrite ?rd_repeat, ?Rmult_0_l, ?Rminus_0_r, ?Rplus_0_r,
                 ?wr_repeat)).
    reflexivity.
  - intros i. rewrite (rd_zeros input i Hin), Rmult_0_l.
    unfold z. now rewrite !wr_repeat.
Qed.

Lemma intensityOf_silence : intensityOf 0 0 = 0%R.
Proof.
  unfold intensityOf.
  rewrite Rmult_0_l, Rplus_0_l, sqrt_0, Rplus_0_l.
  pose proof ln_10_pos as H10.
  assert (ln (/ 1000000) = - (6 * ln 10))%R as ->.
  { rewrite ln_Rinv by lra.
    replace 1000000%R with (10 ^ 6)%R by (simpl; lra).
    rewrite ln_pow by lra. simpl INR. f_equal. lra. }
  replace (20 * (- (6 * ln 10) / ln 10))%R with (-120)%R by (field; lra).
  destruct (Rlt_dec ((-120 + 60) * 4) 0) as [_|Hn]; [|lra].
  destruct (Rlt_dec 255 0) as [H|_]; [lra | reflexivity].
Qed.

Lemma ToUint8_0 : ToUint8 0 = 0.
Proof.
  unfold ToUint8, truncate.
  destruct (Rle_dec 0 0) as [_|H]; [|lra].
  replace (Int_part 0) with 0; [reflexivity|].
  apply Int_part_spec. lra.
Qed.

Lemma storeColumn_silence h col n m :
  storeColumn h col (repeat 0%R n, repeat 0%R n) (repeat 0 m) = repeat 0 m.
Proof.
  unfold storeColumn. apply forUpTo_fixed. intros bin.
  cbn [fst snd]. rewrite !rd_repeat, intensityOf_silence, ToUint8_0.
  apply wr_repeat.
Qed.

Lemma subarray_zeros (a : list R) b e :
  Forall (fun x => x = 0%R) a -> Forall (fun x => x = 0%R) (subarray a b e).
Proof.
  intros H. unfold subarray. apply Forall_take. now apply Forall_drop.
Qed.

Lemma mainLoop_silence audioBuffer fftSize hopSize w h m (fuel : nat) :
  Forall (fun x => x = 0%R) (channelData audioBuffer) ->
  forall col,
    mainLoop audioBuffer fftSize hopSize fuel w h col (repeat 0 m)
    = repeat 0 m.
Proof.
  intros Hz. induction fuel as [|fuel IH]; intros col; [reflexivity|].
  cbn [mainLoop]. destruct (lessThan col w); [|reflexivity].
  destruct (Z.of_nat _ <? fftSize); [reflexivity|].
  rewrite performFFT_silence by now apply subarray_zeros.
  rewrite storeColumn_silence. apply IH.
Qed.

(** X23.  A silent recording gives an empty picture: when every sample is
    0, the analysis with a valid configuration returns a field whose
    cells are all 0. *)
Theorem generateSpectrogramData_silence audioBuffer fftSize hopSize :
  validConfig fftSize hopSize ->
  fftSize <= Z.of_nat (length (channelData audioBuffer)) ->
  Forall (fun x => x = 0%R) (channelData audioBuffer) ->
  exists d,
    generateSpectrogramData audioBuffer fftSize hopSize = Returned d /\
    Z.of_nat (length (data d))
    = (Z.of_nat (length (channelData audioBuffer)) - fftSize) / hopSize
      * (fftSize / 2) /\
    Forall (fun v => v = 0) (data d).
Proof.
  intros Hv Hlen Hz.
  destruct (generateSpectrogramData_valid audioBuffer fftSize hopSize Hv)
    as [_ Hlong].
  destruct (Hlong Hlen) as (Hw & _ & Heq).
  destruct Hv as (Hp & H2 & _).
  destruct (powerOfTwo_half fftSize Hp H2) as [_ Hh].
  rewrite mainLoop_silence in Heq by exact Hz.
  eexists. split; [exact Heq|]. cbn [data]. split.
  - rewrite repeat_length. nia.
  - apply List.Forall_forall. intros v Hin. now apply repeat_spec in Hin.
Qed.

Lemma generateSpectrogramData_silence_witness :
  exists d,
    generateSpectrogramData (mkAudioBuffer (repeat 0%R 10) 44100%R) 4 2
    = Returned d /\
    Forall (fun v => v = 0) (data d).
Proof.
  destruct (generateSpectrogramData_silence
              (mkAudioBuffer (repeat 0%R 10) 44100%R) 4 2)
    as (d & H1 & _ & H2).
  - split; [exists 2; split; [lia | reflexivity]|]. lia.
  - change (4 <= 10). lia.
  - cbn [channelData]. apply List.Forall_forall. intros x Hx.
    now apply repeat_spec in Hx.
  - exists d. split; [exact H1 | exact H2].
Defined.

End AnalysisMore.

Section Intensity.

Import JsNumber AudioProcessing.
Local Open Scope R_scope.

Lemma decibelScale_le re1 im1 re2 im2 :
  re1 * re1 + im1 * im1 <= re2 * re2 + im2 * im2 ->
  decibelScale re1 im1 <= decibelScale re2 im2.
Proof.
  intros H. unfold decibelScale.
  pose proof ln_10_pos as H10.
  pose proof (sqrt_le_1_alt _ _ H) as Hs.
  pose proof (sqrt_pos (re1 * re1 + im1 * im1)) as Hp.
  set (m1 := sqrt (re1 * re1 + im1 * im1)) in *.
  set (m2 := sqrt (re2 * re2 + im2 * im2)) in *.
  clearbody m1 m2.
  assert (ln (m1 + / 1000000) <= ln (m2 + / 1000000)) as Hln.
  { assert (0 < / 1000000) as He by (apply Rinv_0_lt_compat; lra).
    destruct (Req_dec m1 m2) as [->|Hne]; [apply Rle_refl|].
    left. apply ln_increasing; lra. }
  assert (ln (m1 + / 1000000) / ln 10 <= ln (m2 + / 1000000) / ln 10).
  { apply Rmult_le_compat_r; [|exact Hln].
    left. now apply Rinv_0_lt_compat. }
  lra.
Qed.

Lemma clamp255_le x y : x <= y -> clamp255 x <= clamp255 y.
Proof.
  intros H. unfold clamp255, Rmin, Rmax.
  destruct (Rle_dec 0 x); destruct (Rle_dec 0 y);
  repeat match goal with
         | |- context [Rle_dec ?a ?b] => destruct (Rle_dec a b)
         end; lra.
Qed.

(** X24.  The value stored for a bin is one of [0 .. 255] and grows with
    the magnitude of the bin: of two bins, the one whose transform has
    the larger magnitude never has the smaller value. *)
Theorem cell_value_monotone re1 im1 re2 im2 :
  re1 * re1 + im1 * im1 <= re2 * re2 + im2 * im2 ->
  (0 <= ToUint8 (intensityOf re1 im1) <= ToUint8 (intensityOf re2 im2))%Z /\
  (ToUint8 (intensityOf re2 im2) <= 255)%Z.
Proof.
  intros H.
  rewrite !intensityOf_clamp, !ToUint8_floor by apply clamp255_range.
  pose proof (clamp255_range (decibelScale re1 im1)) as [L1 _].
  pose proof (clamp255_range (decibelScale re2 im2)) as [_ U2].
  split; [split|].
  - rewrite <- (Int_part_IZR 0). now apply Int_part_le.
  - apply Int_part_le, clamp255_le, decibelScale_le, H.
  - rewrite <- (Int_part_IZR 255). now apply Int_part_le.
Qed.

Lemma cell_value_monotone_witness :
  (0 <= ToUint8 (intensityOf 0 0) <= ToUint8 (intensityOf 1 0))%Z /\
  (ToUint8 (intensityOf 1 0) <= 255)%Z.
Proof.
  apply (cell_value_monotone 0 0 1 0). lra.
Defined.

Local Open Scope Z_scope.



End Intensity.

Section BitReversal.

Import JsNumber AudioProcessing.
Local Open Scope Z_scope.

Lemma land_1_odd y : negb (Z.land y 1 =? 0) = Z.odd y.
Proof.
  change 1 with (Z.ones 1) at 1. rewrite Z.land_ones by lia.
  change (2 ^ 1) with 2. rewrite <- Z.bit0_mod, Z.bit0_odd.
  now destruct (Z.odd y).
Qed.

Lemma bits_bound k n :
  0 <= k -> 0 <= n ->
  (forall l, k <= l -> Z.testbit n l = false) -> n < 2 ^ k.
Proof.
  intros Hk Hn H.
  destruct (Z.eq_dec n 0) as [->|Hne].
  - apply Z.pow_pos_nonneg; lia.
  - apply Z.log2_lt_pow2; [lia|].
    destruct (Z.lt_ge_cases (Z.log2 n) k) as [|Hge]; [assumption|].
    specialize (H (Z.log2 n) Hge).
    rewrite Z.bit_log2 in H by lia. discriminate.
Qed.

Lemma bound_bits k n l :
  0 <= n < 2 ^ k -> k <= l -> Z.testbit n l = false.
Proof.
  intros Hn Hl.
  destruct (Z.eq_dec n 0) as [->|Hne]; [apply Z.bits_0|].
  apply Z.bits_above_log2; [lia|].
  assert (Z.log2 n < k); [|lia].
  apply Z.log2_lt_pow2; lia.
Qed.

(** The loop of [reverseBits] after its first [k] rounds. *)
Lemma reverseBits_rounds x n (k : nat) :
  0 <= x < 2 ^ 31 -> 0 <= n <= 31 -> Z.of_nat k <= n ->
  let r :=
    fold_left
      (fun result i =>
         if negb (Z.land (Z.shiftr (toInt32 x) (i mod 32)) 1 =? 0)
         then toInt32 (Z.lor result
                         (toInt32 (Z.shiftl 1 ((n - 1 - i) mod 32))))
         else result)
      (seqZ 0 (Z.of_nat k)) 0 in
  0 <= r /\
  forall j, 0 <= j ->
    Z.testbit r j
    = (j <? n) && (n - 1 - j <? Z.of_nat k) && Z.testbit x (n - 1 - j).
Proof.
  intros Hx Hn. induction k as [|k IH]; intros Hk; cbn zeta.
  - simpl. split; [lia|]. intros j Hj. rewrite Z.bits_0.
    destruct (Z.ltb_spec j n); [|reflexivity].
    destruct (Z.ltb_spec (n - 1 - j) (Z.of_nat 0)); [lia | reflexivity].
  - rewrite seqZ_S, fold_left_app. cbn [fold_left].
    specialize (IH ltac:(lia)). cbn zeta in IH.
    set (r := fold_left _ (seqZ 0 (Z.of_nat k)) 0) in *.
    destruct IH as [Hr Hbits].
    rewrite Z.add_0_l.
    rewrite (toInt32_small x) by lia.
    rewrite (Z.mod_small (Z.of_nat k) 32) by lia.
    rewrite (Z.mod_small (n - 1 - Z.of_nat k) 32) by lia.
    rewrite land_1_odd, <- Z.testbit_odd.
    assert (forall j, 0 <= j ->
              ((n - 1 - j <? Z.of_nat (S k)) = (n - 1 - j <? Z.of_nat k)
               || (n - 1 - j =? Z.of_nat k))) as Hstep.
    { intros j Hj.
      destruct (Z.ltb_spec (n - 1 - j) (Z.of_nat (S k)));
        destruct (Z.ltb_spec (n - 1 - j) (Z.of_nat k));
        destruct (Z.eqb_spec (n - 1 - j) (Z.of_nat k)); try reflexivity; lia. }
    destruct (Z.testbit x (Z.of_nat k)) eqn:Ex.
    + rewrite Z.shiftl_1_l.
      assert (0 < 2 ^ (n - 1 - Z.of_nat k) < 2 ^ 31) as Hp.
      { split; [apply Z.pow_pos_nonneg; lia|].
        apply Z.pow_lt_mono_r; lia. }
      rewrite (toInt32_small (2 ^ _)) by lia.
      assert (forall j, 0 <= j ->
                Z.testbit (Z.lor r (2 ^ (n - 1 - Z.of_nat k))) j
                = (j <? n) && (n - 1 - j <? Z.of_nat (S k))
                  && Z.testbit x (n - 1 - j)) as Hnew.
      { intros j Hj. rewrite Z.lor_spec, Hbits by exact Hj.
        rewrite Z.pow2_bits_eqb by lia. rewrite Hstep by exact Hj.
        destruct (Z.eqb_spec (n - 1 - Z.of_nat k) j) as [E|E].
        - replace (n - 1 - j) with (Z.of_nat k) by lia.
          rewrite Ex, Z.eqb_refl.
          destruct (Z.ltb_spec j n); [|lia].
          now rewrite Z.ltb_irrefl.
        - destruct (Z.eqb_spec (n - 1 - j) (Z.of_nat k)) as [E2|_]; [lia|].
          now rewrite !orb_false_r. }
      assert (0 <= Z.lor r (2 ^ (n - 1 - Z.of_nat k))) as Hnn
        by (apply Z.lor_nonneg; lia).
      assert (Z.lor r (2 ^ (n - 1 - Z.of_nat k)) < 2 ^ 31) as Hlt.
      { apply (bits_bound 31); [lia | exact Hnn |].
        intros l Hl. rewrite Hnew by lia.
        destruct (Z.ltb_spec l n); [lia | reflexivity]. }
      rewrite toInt32_small by lia. split; [exact Hnn | exact Hnew].
    + split; [exact Hr|]. intros j Hj. rewrite Hbits, Hstep by exact Hj.
      destruct (Z.eqb_spec (n - 1 - j) (Z.of_nat k)) as [E|_].
      * rewrite E, Ex. now rewrite !andb_false_r.
      * now rewrite orb_false_r.
Qed.

Lemma reverseBits_bits x n :
  0 <= x < 2 ^ 31 -> 0 <= n <= 31 ->
  0 <= reverseBits x n < 2 ^ n /\
  forall j, 0 <= j ->
    Z.testbit (reverseBits x n) j = (j <? n) && Z.testbit x (n - 1 - j).
Proof.
  intros Hx Hn.
  pose proof (reverseBits_rounds x n (Z.to_nat n) Hx Hn ltac:(lia)) as H.
  cbn zeta in H. rewrite Z2Nat.id in H by lia.
  unfold reverseBits, forUpTo. destruct H as [H0 Hb].
  assert (forall j, 0 <= j ->
            Z.testbit
              (fold_left
                 (fun s i =>
                    if negb (Z.land (Z.shiftr (toInt32 x) (i mod 32)) 1 =? 0)
                    then toInt32 (Z.lor s (toInt32 (Z.shiftl 1 ((n - 1 - i) mod 32))))
                    else s)
                 (seqZ 0 n) 0) j
            = (j <? n) && Z.testbit x (n - 1 - j)) as Hb'.
  { intros j Hj. rewrite Hb by exact Hj.
    destruct (Z.ltb_spec j n); [|reflexivity].
    destruct (Z.ltb_spec (n - 1 - j) n); [reflexivity | lia]. }
  split; [|exact Hb']. split; [exact H0|].
  apply bits_bound; [lia | exact H0 |].
  intros l Hl. rewrite Hb' by lia.
  destruct (Z.ltb_spec l n); [lia | reflexivity].
Qed.

Lemma reverseBits_involutive x n :
  0 <= n <= 31 -> 0 <= x < 2 ^ n ->
  reverseBits (reverseBits x n) n = x.
Proof.
  intros Hn Hx.
  assert (2 ^ n <= 2 ^ 31) as Hpow by (apply Z.pow_le_mono_r; lia).
  destruct (reverseBits_bits x n ltac:(lia) Hn) as [Hr Hb].
  destruct (reverseBits_bits (reverseBits x n) n ltac:(lia) Hn) as [Hr2 Hb2].
  apply Z.bits_inj'. intros j Hj. rewrite Hb2 by exact Hj.
  destruct (Z.ltb_spec j n) as [Hlt|Hge]; cbn [andb].
  - rewrite Hb by lia.
    destruct (Z.ltb_spec (n - 1 - j) n); [|lia]. cbn [andb].
    f_equal. lia.
  - symmetry. now apply (bound_bits n).
Qed.

(** X26.  For a transform size that is a power of two up to 65536, the
    table of bit-reversed indices that reorders the frame is its own
    inverse on [0 .. fftSize - 1]: each entry is an index of the frame and
    the entry at that index leads back, so the reordering moves every
    sample of the frame to a place of its own. *)
Theorem rev_involution fftSize i :
  powerOfTwo fftSize -> 2 <= fftSize <= 2 ^ 16 -> 0 <= i < fftSize ->
  let r := rd 0 (rev fftSize) in
  0 <= r i < fftSize /\ r (r i) = i.
Proof.
  intros (k & Hk & ->) Hsize Hi. cbn zeta.
  assert (k <= 16) as Hk16.
  { destruct (Z.le_gt_cases k 16) as [|Hgt]; [assumption|].
    assert (2 ^ 17 <= 2 ^ k) by (apply Z.pow_le_mono_r; lia). lia. }
  assert (forall x, 0 <= x < 2 ^ k ->
            rd 0 (rev (2 ^ k)) x = reverseBits x k /\
            0 <= reverseBits x k < 2 ^ k) as Hrd.
  { intros x Hx. unfold rev. rewrite rd_map_seqZ by exact Hx.
    unfold bits. rewrite Z.log2_pow2 by exact Hk.
    assert (2 ^ k <= 2 ^ 16) as Hp by (apply Z.pow_le_mono_r; lia).
    destruct (reverseBits_bits x k ltac:(lia) ltac:(lia)) as [Hr _].
    split; [apply Z.mod_small; lia | exact Hr]. }
  destruct (Hrd i Hi) as [E1 R1]. rewrite E1.
  split; [exact R1|].
  destruct (Hrd (reverseBits i k) R1) as [E2 _]. rewrite E2.
  apply reverseBits_involutive; lia.
Qed.

Lemma rev_involution_witness :
  rd 0 (rev 8) (rd 0 (rev 8) 3) = 3.
Proof.
  apply (rev_involution 8 3).
  - exists 3. split; [lia | reflexivity].
  - lia.
  - lia.
Defined.

End BitReversal.
